(** * Universe diffs (unidiff.c): a shallow embedding and its properties

    The development follows the C file function by function.  Global
    variables ([diff_stack], [diff_nstack], [diff_mstack]) become fields of
    a [State] record that every function threads explicitly; a dereference
    of a NULL pointer is the outcome [Crash]; calls into the world model
    (space.c), the log and the allocator of the definitions document are
    recorded in a chronological [trace]. *)

From Stdlib Require Import ZArith Ascii List Lia.
From stdpp Require Import base option list strings gmap.

Set Warnings "-register-all,-clear-no-such-hyp".

Local Open Scope Z_scope.

(** ** C strings and libc *)

(** A [char*] is [None] for NULL and [Some s] for a NUL-terminated string. *)

Inductive Res (A : Type) : Type :=
  | Ok (a : A)
  | Crash.
Arguments Ok {A} a.
Arguments Crash {A}.

(** [strcmp]: both arguments are dereferenced; the sign of the result
    follows the lexicographic order of the characters. *)
Definition strcmp (a b : option string) : Res Z :=
  match a, b with
  | Some x, Some y =>
      Ok (match String.compare x y with Eq => 0 | Lt => -1 | Gt => 1 end)
  | _, _ => Crash
  end.

(** [strdup]: copies its argument, which it dereferences. *)
Definition strdup (a : option string) : Res (option string) :=
  match a with
  | Some x => Ok (Some x)
  | None => Crash
  end.

Definition isspace (c : ascii) : bool :=
  let n := Z.of_nat (nat_of_ascii c) in
  (n =? 32) || ((9 <=? n) && (n <=? 13)).

Definition digit_of (c : ascii) : option Z :=
  let n := Z.of_nat (nat_of_ascii c) in
  if (48 <=? n) && (n <=? 57) then Some (n - 48) else None.

Fixpoint skip_space (s : string) : string :=
  match s with
  | String c r => if isspace c then skip_space r else s
  | EmptyString => s
  end.

Fixpoint digits (acc : Z) (s : string) : Z :=
  match s with
  | String c r =>
      match digit_of c with
      | Some d => digits (10 * acc + d) r
      | None => acc
      end
  | EmptyString => acc
  end.

(** The value of an [int]: 32 bits, two's complement. *)
Definition INT_MIN : Z := - 2 ^ 31.
Definition INT_MAX : Z := 2 ^ 31 - 1.
Definition wrap_int (z : Z) : Z := (z + 2 ^ 31) mod 2 ^ 32 - 2 ^ 31.

(** The value of a [long]: 64 bits. *)
Definition LONG_MIN : Z := - 2 ^ 63.
Definition LONG_MAX : Z := 2 ^ 63 - 1.

(** [strtol] in base 10: optional white space, optional sign, then the
    longest run of decimal digits; no digits give 0, and a value outside
    [long] gives [LONG_MIN] or [LONG_MAX]. *)
Definition strtol_str (s : string) : Z :=
  let v :=
    match skip_space s with
    | String "-"%char r => - digits 0 r
    | String "+"%char r => digits 0 r
    | r => digits 0 r
    end in
  Z.max LONG_MIN (Z.min LONG_MAX v).

(** [atoi] is [(int) strtol (nptr, NULL, 10)], as in the C library the
    game is built with: the [long] is cut to its low 32 bits. *)
Definition atoi_str (s : string) : Z := wrap_int (strtol_str s).

Definition atoi (a : option string) : Res Z :=
  match a with
  | Some s => Ok (atoi_str s)
  | None => Crash
  end.

(** ** The XML tree (xml.h over libxml2) *)

Inductive xmlElementType : Set :=
  | XML_ELEMENT_NODE
  | XML_TEXT_NODE
  | XML_COMMENT_NODE.

(** A node with the fields the diff code reads.  [node_children] is the
    chain reached from [xmlChildrenNode] through [next]. *)
Inductive xmlNode : Type :=
  XmlNode {
      node_type : xmlElementType;
      node_name : string;
      node_properties : list (string * string);
      node_content : option string;
      node_children : list xmlNode
    }.

(** An [xmlNodePtr] is the node it points to followed by its [next]
    siblings; NULL is the empty chain. *)
Definition xmlNodePtr : Type := list xmlNode.

(** An [xmlDocPtr]: NULL, or the chain of the document's children (the
    root element first). *)
Definition xmlDocPtr : Type := option (list xmlNode).

Definition is_element (t : xmlElementType) : bool :=
  match t with XML_ELEMENT_NODE => true | _ => false end.

(** Modelled from the spec: the node/attribute-reading interface of xml.h,
    which is not among the sources.  [xml_isNode(n,s)]: [n] is an element
    named [s]. *)
Definition xml_isNode (n : xmlNode) (s : string) : bool :=
  is_element (node_type n) && String.eqb (node_name n) s.

Fixpoint xmlGetProp (props : list (string * string)) (s : string)
  : option string :=
  match props with
  | [] => None
  | (k, v) :: rest => if String.eqb k s then Some v else xmlGetProp rest s
  end.

(** Modelled from the spec: [xmlr_attr(n,s,a)] stores in [a] a fresh copy
    of attribute [s] of [n], or NULL when [n] has none. *)
Definition xmlr_attr (n : xmlNode) (s : string) : option string :=
  xmlGetProp (node_properties n) s.

(** Modelled from the spec: [xml_get(n)] is the text content of [n], the
    content of its first child, or NULL when [n] has no child. *)
Definition xml_get (n : xmlNode) : option string :=
  match node_children n with
  | [] => None
  | c :: _ => node_content c
  end.

(** Modelled from the spec: the writer macros of xml.h.
    [xmlw_elem(w,name,text)] writes an element holding one text node. *)
Definition xml_text (s : option string) : xmlNode :=
  XmlNode XML_TEXT_NODE "text" [] s [].

Definition xmlw_elem (n : string) (text : option string) : xmlNode :=
  XmlNode XML_ELEMENT_NODE n [] None [xml_text text].

(** [xmlw_startElem] ... [xmlw_endElem] around the elements [body]. *)
Definition xmlw_element (n : string) (body : list xmlNode) : xmlNode :=
  XmlNode XML_ELEMENT_NODE n [] None body.

(** ** Hunks and diffs *)

Inductive UniHunkTargetType_t : Set :=
  | HUNK_TARGET_NONE
  | HUNK_TARGET_SYSTEM.

Record UniHunkTarget_t : Type := {
  target_type : UniHunkTargetType_t;
  target_name : option string
}.

Inductive UniHunkType_t : Set :=
  | HUNK_TYPE_NONE
  | HUNK_TYPE_PLANET_ADD
  | HUNK_TYPE_PLANET_REMOVE
  | HUNK_TYPE_FLEET_ADD
  | HUNK_TYPE_FLEET_REMOVE.

(** Modelled from the spec: a fleet definition (declared in the pilot
    module, not among the sources) is referred to by its name. *)
Definition Fleet : Type := string.

(** The union [u] of a hunk overlays [char *name] and the [Fleet *fleet]
    of [SystemFleet fleet]; the [int chance] lies after it.  [uptr] is what
    the shared pointer slot holds. *)
Inductive uptr : Type :=
  | UNull
  | UString (s : string)
  | UFleet (f : Fleet).

Record SystemFleet : Type := {
  fleet : uptr;
  chance : Z
}.

Record UniHunk_u : Type := {
  u_slot : uptr;
  u_chance : Z
}.

(** The two views of the union. *)
Definition u_name (u : UniHunk_u) : uptr := u_slot u.
Definition u_fleet (u : UniHunk_u) : SystemFleet :=
  {| fleet := u_slot u; chance := u_chance u |}.

Record UniHunk_t : Type := {
  target : UniHunkTarget_t;
  type : UniHunkType_t;
  u : UniHunk_u
}.

Definition CHUNK_SIZE : Z := 32.

(** [napplied] and [nfailed] are the lengths of the two sequences. *)
Record UniDiff_t : Type := {
  name : option string;
  applied : list UniHunk_t;
  mapplied : Z;
  failed : list UniHunk_t;
  mfailed : Z
}.

Definition napplied (d : UniDiff_t) : Z := Z.of_nat (length (applied d)).
Definition nfailed (d : UniDiff_t) : Z := Z.of_nat (length (failed d)).

(** What [memset(.., 0, ..)] leaves. *)
Definition UniHunk_zero : UniHunk_t :=
  {| target := {| target_type := HUNK_TARGET_NONE; target_name := None |};
     type := HUNK_TYPE_NONE;
     u := {| u_slot := UNull; u_chance := 0 |} |}.

Definition UniDiff_zero : UniDiff_t :=
  {| name := None; applied := []; mapplied := 0; failed := []; mfailed := 0 |}.

#[global] Instance xmlElementType_eq_dec : EqDecision xmlElementType.
Proof. solve_decision. Defined.
#[global] Instance UniHunkTargetType_eq_dec : EqDecision UniHunkTargetType_t.
Proof. solve_decision. Defined.
#[global] Instance UniHunkType_eq_dec : EqDecision UniHunkType_t.
Proof. solve_decision. Defined.
#[global] Instance uptr_eq_dec : EqDecision uptr.
Proof. solve_decision. Defined.
#[global] Instance UniHunkTarget_eq_dec : EqDecision UniHunkTarget_t.
Proof. solve_decision. Defined.
#[global] Instance UniHunk_u_eq_dec : EqDecision UniHunk_u.
Proof. solve_decision. Defined.
#[global] Instance UniHunk_eq_dec : EqDecision UniHunk_t.
Proof. solve_decision. Defined.

(** ** The world model (space.h) *)

(** The functions of space.h the diff code calls; space.c is not among the
    sources, so they are parameters of the development.  [StarSystem] is
    what a non-NULL [StarSystem*] designates; every mutator returns the C
    [int] (negative on failure) and the universe it leaves. *)
Class Space : Type := {
  Universe : Type;
  StarSystem : Type;
  system_get : option string -> Universe -> option StarSystem;
  system_addPlanet : option StarSystem -> uptr -> Universe -> Z * Universe;
  system_rmPlanet : option StarSystem -> uptr -> Universe -> Z * Universe;
  system_addFleet : option StarSystem -> SystemFleet -> Universe -> Z * Universe;
  system_rmFleet : option StarSystem -> SystemFleet -> Universe -> Z * Universe;
  fleet_get : option string -> uptr
}.

(** ** Observable effects *)

Inductive LogMsg : Type :=
  | Err_missing_root
  | Err_no_elements
  | Warn_not_found (n : option string)
  | Warn_system_without_name (diffname : option string)
  | Warn_unknown_hunk_type (t : UniHunkType_t)
  | Warn_unknown_Hunk_type (t : UniHunkType_t)
  | Debug_failed_hunks (diffname : option string) (n : Z)
  | Debug_failed_hunk (h : UniHunk_t).

Inductive Event : Type :=
  | EvReadFile            (* pack_readfile: [buf] is allocated *)
  | EvParseMemory         (* xmlParseMemory: [doc] is allocated *)
  | EvFreeDoc             (* xmlFreeDoc(doc) *)
  | EvFreeBuf             (* free(buf) *)
  | EvERR (m : LogMsg)
  | EvWARN (m : LogMsg)
  | EvDEBUG (m : LogMsg)
  | EvSpace (h : UniHunk_t) (r : Z).  (* a mutator of space.h ran for [h] *)

Section Unidiff.

Context `{SP : Space}.

(** ** The diff stack *)

(** [diff_stack] is NULL ([None]) until the first diff is created;
    [diff_nstack] is the length of the live prefix, which is all the list
    holds. *)
Record State : Type := {
  diff_stack : option (list UniDiff_t);
  diff_mstack : Z;
  universe : Universe;
  trace : list Event
}.

Definition stack (st : State) : list UniDiff_t :=
  match diff_stack st with
  | Some l => l
  | None => []
  end.

Definition diff_nstack (st : State) : Z := Z.of_nat (length (stack st)).

Definition set_stack (l : list UniDiff_t) (st : State) : State :=
  {| diff_stack := Some l; diff_mstack := diff_mstack st;
     universe := universe st; trace := trace st |}.

Definition set_universe (w : Universe) (st : State) : State :=
  {| diff_stack := diff_stack st; diff_mstack := diff_mstack st;
     universe := w; trace := trace st |}.

Definition emit (e : Event) (st : State) : State :=
  {| diff_stack := diff_stack st; diff_mstack := diff_mstack st;
     universe := universe st; trace := trace st ++ [e] |}.

(** ** Computations: state passing with a crash outcome *)

Definition M (A : Type) : Type := State -> Res (A * State).

Definition ret {A : Type} (a : A) : M A := fun st => Ok (a, st).

Definition bind {A B : Type} (m : M A) (k : A -> M B) : M B :=
  fun st =>
    match m st with
    | Ok (a, st') => k a st'
    | Crash => Crash
    end.

Definition lift {A : Type} (r : Res A) : M A :=
  fun st =>
    match r with
    | Ok a => Ok (a, st)
    | Crash => Crash
    end.

Definition log (e : Event) : M unit := fun st => Ok (tt, emit e st).

(** Modelled from the spec: the macros [ERR], [WARN] and [DEBUG] of log.h,
    which is not among the sources, write one diagnostic line and return. *)

Definition ERR (m : LogMsg) : M unit := log (EvERR m).
Definition WARN (m : LogMsg) : M unit := log (EvWARN m).
Definition DEBUG (m : LogMsg) : M unit := log (EvDEBUG m).

End Unidiff.

Declare Scope diff_scope.
Delimit Scope diff_scope with diff.
Notation "x <- c1 ;; c2" := (bind c1 (fun x => c2))
  (at level 100, c1 at next level, right associativity) : diff_scope.
Notation "c1 ;; c2" := (bind c1 (fun _ => c2))
  (at level 100, right associativity) : diff_scope.
Local Open Scope diff_scope.

Definition Res_bind {A B : Type} (r : Res A) (k : A -> Res B) : Res B :=
  match r with
  | Ok a => k a
  | Crash => Crash
  end.

Notation "x <~ c1 ;; c2" := (Res_bind c1 (fun x => c2))
  (at level 100, c1 at next level, right associativity) : diff_scope.

(** ** The functions of unidiff.c *)

Section Functions.

Context `{SP : Space}.

(** A [UniDiff_t*] into [diff_stack] is the index of its element. *)
Definition UniDiff_ptr : Type := option nat.

(** [diff_get]: linear scan from index [i]; [strcmp] dereferences both the
    stored name and the argument. *)
Fixpoint diff_get_from (l : list UniDiff_t) (i : nat) (n : option string)
  : Res UniDiff_ptr :=
  match l with
  | [] => Ok None
  | d :: rest =>
      c <~ strcmp (name d) n ;;
      if c =? 0 then Ok (Some i) else diff_get_from rest (S i) n
  end.

Definition diff_get (n : option string) : M UniDiff_ptr :=
  fun st => lift (diff_get_from (stack st) 0 n) st.

Definition diff_isApplied (n : option string) : M Z :=
  p <- diff_get n ;;
  match p with
  | Some _ => ret 1
  | None => ret 0
  end.

(** A call into space.h for [hunk]: the universe is replaced by the one
    the mutator leaves and the call is recorded with its result. *)
Definition space_call (hunk : UniHunk_t) (f : Universe -> Z * Universe)
  : M Z :=
  fun st =>
    let (r, w) := f (universe st) in
    Ok (r, emit (EvSpace hunk r) (set_universe w st)).

(** [diff_patchHunk]: dispatch on the type of the hunk. *)
Definition diff_patchHunk (hunk : UniHunk_t) : M Z :=
  fun st =>
    let sys := system_get (target_name (target hunk)) (universe st) in
    match type hunk with
    | HUNK_TYPE_PLANET_ADD =>
        space_call hunk (system_addPlanet sys (u_name (u hunk))) st
    | HUNK_TYPE_PLANET_REMOVE =>
        space_call hunk (system_rmPlanet sys (u_name (u hunk))) st
    | HUNK_TYPE_FLEET_ADD =>
        space_call hunk (system_addFleet sys (u_fleet (u hunk))) st
    | HUNK_TYPE_FLEET_REMOVE =>
        space_call hunk (system_rmFleet sys (u_fleet (u hunk))) st
    | HUNK_TYPE_NONE =>
        (WARN (Warn_unknown_hunk_type (type hunk)) ;; ret (-1)) st
    end.

(** [diff->nfailed++], growth of the array by [CHUNK_SIZE] when full, then
    the [memcpy] of the hunk into the last slot. *)
Definition hunkFailed (d : UniDiff_t) (hunk : UniHunk_t) : UniDiff_t :=
  let n := nfailed d + 1 in
  {| name := name d;
     applied := applied d;
     mapplied := mapplied d;
     failed := failed d ++ [hunk];
     mfailed := if mfailed d <? n then mfailed d + CHUNK_SIZE else mfailed d |}.

Definition hunkSuccess (d : UniDiff_t) (hunk : UniHunk_t) : UniDiff_t :=
  let n := napplied d + 1 in
  {| name := name d;
     applied := applied d ++ [hunk];
     mapplied := if mapplied d <? n then mapplied d + CHUNK_SIZE else mapplied d;
     failed := failed d;
     mfailed := mfailed d |}.

(** An update through a [UniDiff_t*]; a pointer outside the live stack is
    a crash. *)
Definition update_diff (i : nat) (f : UniDiff_t -> UniDiff_t) : M unit :=
  fun st =>
    match stack st !! i with
    | Some d => Ok (tt, set_stack (<[i := f d]> (stack st)) st)
    | None => Crash
    end.

Definition read_diff (i : nat) : M UniDiff_t :=
  fun st =>
    match stack st !! i with
    | Some d => Ok (d, st)
    | None => Crash
    end.

Definition diff_hunkFailed (diff : UniDiff_ptr) (hunk : UniHunk_t) : M unit :=
  match diff with
  | None => ret tt
  | Some i => update_diff i (fun d => hunkFailed d hunk)
  end.

Definition diff_hunkSuccess (diff : UniDiff_ptr) (hunk : UniHunk_t) : M unit :=
  match diff with
  | None => ret tt
  | Some i => update_diff i (fun d => hunkSuccess d hunk)
  end.

(** [diff_newDiff]: first use allocates [CHUNK_SIZE] slots; later uses
    take the next slot and grow the array when it is full.  The slot is
    returned as it is; its caller clears it at once, and the embedding
    stores the cleared record from the start. *)
Definition diff_newDiff : M nat :=
  fun st =>
    match diff_stack st with
    | None =>
        Ok (0%nat,
            {| diff_stack := Some [UniDiff_zero]; diff_mstack := CHUNK_SIZE;
               universe := universe st; trace := trace st |})
    | Some l =>
        let n := Z.of_nat (length l) + 1 in
        Ok (length l,
            {| diff_stack := Some (l ++ [UniDiff_zero]);
               diff_mstack :=
                 if diff_mstack st <? n then diff_mstack st + CHUNK_SIZE
                 else diff_mstack st;
               universe := universe st; trace := trace st |})
    end.

(** The [do { ... } while (xml_nextNode(n))] idiom: the body runs on every
    node of the chain in turn.  On a NULL first node the body runs once
    with every [xml_isNode] test false, and does nothing. *)
Fixpoint xml_each {A : Type} (body : xmlNode -> A -> M A)
  (n : xmlNodePtr) (a : A) : M A :=
  match n with
  | [] => ret a
  | x :: rest => a' <- body x a ;; xml_each body rest a'
  end.

Definition str_slot (a : option string) : uptr :=
  match a with
  | Some s => UString s
  | None => UNull
  end.

Definition with_type (t : UniHunkType_t) (h : UniHunk_t) : UniHunk_t :=
  {| target := target h; type := t; u := u h |}.

(** The type read from the text of a "planet" or "fleet" element: only
    "add" and "remove" assign [hunk.type]. *)
Definition read_type (add remove : UniHunkType_t) (buf : option string)
  (h : UniHunk_t) : Res UniHunk_t :=
  c <~ strcmp buf (Some "add") ;;
  if c =? 0 then Ok (with_type add h)
  else
    c' <~ strcmp buf (Some "remove") ;;
    if c' =? 0 then Ok (with_type remove h) else Ok h.

(** The assignments of the "planet" branch to the local [hunk], whose
    previous value is [hunk]. *)
Definition planet_hunk (cur : xmlNode) (base hunk : UniHunk_t)
  : Res UniHunk_t :=
  tn <~ strdup (target_name (target base)) ;;
  let h :=
    {| target := {| target_type := target_type (target base);
                    target_name := tn |};
       type := type hunk;
       u := {| u_slot := str_slot (xmlr_attr cur "name");
               u_chance := u_chance (u hunk) |} |} in
  read_type HUNK_TYPE_PLANET_ADD HUNK_TYPE_PLANET_REMOVE (xml_get cur) h.

(** The assignments of the "fleet" branch. *)
Definition fleet_hunk (cur : xmlNode) (base hunk : UniHunk_t)
  : Res UniHunk_t :=
  tn <~ strdup (target_name (target base)) ;;
  let f := fleet_get (xmlr_attr cur "name") in
  c <~ atoi (xmlr_attr cur "chance") ;;
  let h :=
    {| target := {| target_type := target_type (target base);
                    target_name := tn |};
       type := type hunk;
       u := {| u_slot := f; u_chance := c |} |} in
  read_type HUNK_TYPE_FLEET_ADD HUNK_TYPE_FLEET_REMOVE (xml_get cur) h.

(** [if (diff_patchHunk(&hunk) < 0) diff_hunkFailed(diff,&hunk); else
    diff_hunkSuccess(diff,&hunk);], the tail of both branches. *)
Definition patch_and_file (diff : UniDiff_ptr) (hunk : UniHunk_t) : M unit :=
  r <- diff_patchHunk hunk ;;
  if r <? 0 then diff_hunkFailed diff hunk else diff_hunkSuccess diff hunk.

(** The body of the inner loop of [diff_patch]; it returns the value the
    local [hunk] has afterwards. *)
Definition diff_patch_change (diff : UniDiff_ptr) (base : UniHunk_t)
  (cur : xmlNode) (hunk : UniHunk_t) : M UniHunk_t :=
  if xml_isNode cur "planet" then
    h <- lift (planet_hunk cur base hunk) ;;
    patch_and_file diff h ;;
    ret h
  else if xml_isNode cur "fleet" then
    h <- lift (fleet_hunk cur base hunk) ;;
    patch_and_file diff h ;;
    ret h
  else ret hunk.

Definition system_base (node : xmlNode) : UniHunk_t :=
  {| target := {| target_type := HUNK_TARGET_SYSTEM;
                  target_name := xmlr_attr node "name" |};
     type := HUNK_TYPE_NONE;
     u := {| u_slot := UNull; u_chance := 0 |} |}.

(** The body of the outer loop of [diff_patch]. *)
Definition diff_patch_system (diff : nat) (node : xmlNode)
  (hunk : UniHunk_t) : M UniHunk_t :=
  if xml_isNode node "system" then
    let base := system_base node in
    match target_name (target base) with
    | None =>
        d <- read_diff diff ;;
        WARN (Warn_system_without_name (name d))
    | Some _ => ret tt
    end ;;
    xml_each (diff_patch_change (Some diff) base) (node_children node) hunk
  else ret hunk.

Definition crash {A : Type} : M A := fun _ => Crash.

(** The DEBUG line of one failed hunk.  The lines of the two fleet types
    read [fail->u.fleet.fleet->name]: a NULL pointer there ([fleet_get]
    found no fleet) is dereferenced, and so is a planet name left in the
    union under a stale fleet type, which is read as a fleet definition;
    both are a crash.  The other lines hand their arguments to the format
    only.  DEBUG is taken to evaluate its arguments, as the build with
    debugging does; log.h is not among the sources. *)
Definition debug_hunk (fail : UniHunk_t) : M unit :=
  match type fail with
  | HUNK_TYPE_FLEET_ADD | HUNK_TYPE_FLEET_REMOVE =>
      match fleet (u_fleet (u fail)) with
      | UFleet _ => DEBUG (Debug_failed_hunk fail)
      | _ => crash
      end
  | _ => DEBUG (Debug_failed_hunk fail)
  end.

Fixpoint debug_failed (l : list UniHunk_t) : M unit :=
  match l with
  | [] => ret tt
  | fail :: rest => debug_hunk fail ;; debug_failed rest
  end.

(** [diff_patch]: [garbage] is the indeterminate value the local [hunk]
    has before its first assignment. *)
Definition diff_patch (parent : xmlNode) (garbage : UniHunk_t) : M Z :=
  diff <- diff_newDiff ;;
  update_diff diff (fun _ => UniDiff_zero) ;;
  update_diff diff (fun d =>
    {| name := xmlr_attr parent "name"; applied := applied d;
       mapplied := mapplied d; failed := failed d; mfailed := mfailed d |}) ;;
  xml_each (diff_patch_system diff) (node_children parent) garbage ;;
  d <- read_diff diff ;;
  (if 0 <? nfailed d then
     DEBUG (Debug_failed_hunks (name d) (nfailed d)) ;;
     debug_failed (failed d)
   else ret tt) ;;
  ret 0.

(** The search loop of [diff_apply], entered on a non-NULL node. *)
Fixpoint diff_apply_search (node : xmlNodePtr) (n : option string)
  (garbage : UniHunk_t) : M Z :=
  match node with
  | [] =>
      log EvFreeDoc ;;
      log EvFreeBuf ;;
      WARN (Warn_not_found n) ;;
      ret (-1)
  | x :: rest =>
      if xml_isNode x "unidiff" then
        c <- lift (strcmp (xmlr_attr x "name") n) ;;
        if c =? 0 then
          diff_patch x garbage ;;
          log EvFreeDoc ;;
          log EvFreeBuf ;;
          ret 0
        else diff_apply_search rest n garbage
      else diff_apply_search rest n garbage
  end.

(** [diff_apply]: [data] is what [xmlParseMemory] returns for the packed
    file dat/unidiff.xml. *)
Definition diff_apply (data : xmlDocPtr) (n : option string)
  (garbage : UniHunk_t) : M Z :=
  r <- diff_isApplied n ;;
  if negb (r =? 0) then ret 0
  else
    log EvReadFile ;;
    log EvParseMemory ;;
    match data with
    | None => crash
    | Some [] => crash
    | Some (root :: _) =>
        c <- lift (strcmp (Some (node_name root)) (Some "unidiffs")) ;;
        if negb (c =? 0) then
          ERR Err_missing_root ;;
          ret 0
        else
          match node_children root with
          | [] =>
              ERR Err_no_elements ;;
              ret 0
          | node => diff_apply_search node n garbage
          end
    end.

(** The inversion switch of [diff_removeDiff]; [None] is its default
    case. *)
Definition inverted_type (t : UniHunkType_t) : option UniHunkType_t :=
  match t with
  | HUNK_TYPE_PLANET_ADD => Some HUNK_TYPE_PLANET_REMOVE
  | HUNK_TYPE_PLANET_REMOVE => Some HUNK_TYPE_PLANET_ADD
  | HUNK_TYPE_FLEET_ADD => Some HUNK_TYPE_FLEET_REMOVE
  | HUNK_TYPE_FLEET_REMOVE => Some HUNK_TYPE_FLEET_ADD
  | HUNK_TYPE_NONE => None
  end.

(** The loop of [diff_removeDiff] over [diff->applied], index 0 upward.
    [diff_patchHunk] leaves the stack alone, so the array read at each
    index is the one found at loop entry. *)
Fixpoint diff_removeDiff_loop (hunks : list UniHunk_t) : M unit :=
  match hunks with
  | [] => ret tt
  | hunk :: rest =>
      match inverted_type (type hunk) with
      | Some t =>
          diff_patchHunk (with_type t hunk) ;;
          diff_removeDiff_loop rest
      | None =>
          WARN (Warn_unknown_Hunk_type (type hunk)) ;;
          diff_removeDiff_loop rest
      end
  end.

(** [diff_cleanup] frees what the diff owns and clears it. *)
Definition diff_cleanup (diff : nat) : M unit :=
  update_diff diff (fun _ => UniDiff_zero).

(** [diff_nstack--] and the [memmove] that closes the gap. *)
Definition stack_remove (diff : nat) : M unit :=
  fun st => Ok (tt, set_stack (delete diff (stack st)) st).

Definition diff_removeDiff (diff : nat) : M Z :=
  d <- read_diff diff ;;
  diff_removeDiff_loop (applied d) ;;
  diff_cleanup diff ;;
  stack_remove diff ;;
  ret 0.

Definition diff_remove (n : option string) : M unit :=
  diff <- diff_get n ;;
  match diff with
  | None => ret tt
  | Some i => diff_removeDiff i ;; ret tt
  end.

(** [while (diff_nstack > 0) diff_removeDiff(&diff_stack[diff_nstack-1])]
    with a bound on the number of rounds. *)
Fixpoint diff_clear_loop (rounds : nat) : M unit :=
  fun st =>
    match rounds with
    | O => Ok (tt, st)
    | S k =>
        if 0 <? diff_nstack st then
          (diff_removeDiff (Nat.pred (length (stack st))) ;;
           diff_clear_loop k) st
        else Ok (tt, st)
    end.

(** Every round lowers [diff_nstack] by one, so its value at entry bounds
    the rounds ([diff_clear_empties] below: the loop ends on its test). *)
Definition diff_clear : M unit :=
  fun st => diff_clear_loop (length (stack st)) st.

(** [diff_save]: what the call appends to the elements [writer] holds. *)
Definition diff_save (writer : list xmlNode) (st : State)
  : Z * list xmlNode :=
  (0, writer ++
      [xmlw_element "diffs"
         ((fun diff => xmlw_elem "diff" (name diff)) <$> stack st)]).

Definition diff_load_diff (data : xmlDocPtr) (garbage : UniHunk_t)
  (cur : xmlNode) (_ : unit) : M unit :=
  if xml_isNode cur "diff" then
    diff_apply data (xml_get cur) garbage ;;
    ret tt
  else ret tt.

Definition diff_load_diffs (data : xmlDocPtr) (garbage : UniHunk_t)
  (node : xmlNode) (_ : unit) : M unit :=
  if xml_isNode node "diffs" then
    xml_each (diff_load_diff data garbage) (node_children node) tt
  else ret tt.

Definition diff_load (data : xmlDocPtr) (parent : xmlNode)
  (garbage : UniHunk_t) : M Z :=
  diff_clear ;;
  xml_each (diff_load_diffs data garbage) (node_children parent) tt ;;
  ret 0.

End Functions.

(** ** A world model after the specification *)

Module SpecSpace.

(** Modelled from the spec: the universe that space.c keeps, which is not
    among the sources.  It records the systems that exist, which planet
    lies in which system, and which fleet (with which spawn chance) may
    appear in which system.  The planet set of system [s] is
    [{ p | (s, p) ∈ planets }], and likewise its fleet set. *)
Record World : Type := {
  systems : gset string;
  planets : gset (string * string);
  fleets : gset (string * (string * Z))
}.

Definition planets_of (w : World) (s : string) : gset string :=
  set_map snd (filter (fun sp => sp.1 = s) (planets w)).

Definition fleets_of (w : World) (s : string) : gset (string * Z) :=
  set_map snd (filter (fun sf => sf.1 = s) (fleets w)).

Section Model.

(** The fleets that are defined at all (the stack [fleet_get] searches). *)
Variable fleet_stack : gset string.

Definition get (n : option string) (w : World) : option string :=
  match n with
  | Some s => if decide (s ∈ systems w) then Some s else None
  | None => None
  end.

(** Adding fails when the system cannot be found or no planet is named. *)
Definition addPlanet (sys : option string) (p : uptr) (w : World)
  : Z * World :=
  match sys, p with
  | Some s, UString n =>
      (0, {| systems := systems w;
             planets := planets w ∪ {[(s, n)]};
             fleets := fleets w |})
  | _, _ => (-1, w)
  end.

(** Removing fails when the system cannot be found or the planet is
    already absent from it. *)
Definition rmPlanet (sys : option string) (p : uptr) (w : World)
  : Z * World :=
  match sys, p with
  | Some s, UString n =>
      if decide ((s, n) ∈ planets w) then
        (0, {| systems := systems w;
               planets := planets w ∖ {[(s, n)]};
               fleets := fleets w |})
      else (-1, w)
  | _, _ => (-1, w)
  end.

Definition addFleet (sys : option string) (f : SystemFleet) (w : World)
  : Z * World :=
  match sys, fleet f with
  | Some s, UFleet n =>
      (0, {| systems := systems w;
             planets := planets w;
             fleets := fleets w ∪ {[(s, (n, chance f))]} |})
  | _, _ => (-1, w)
  end.

Definition rmFleet (sys : option string) (f : SystemFleet) (w : World)
  : Z * World :=
  match sys, fleet f with
  | Some s, UFleet n =>
      if decide ((s, (n, chance f)) ∈ fleets w) then
        (0, {| systems := systems w;
               planets := planets w;
               fleets := fleets w ∖ {[(s, (n, chance f))]} |})
      else (-1, w)
  | _, _ => (-1, w)
  end.

Definition get_fleet (n : option string) : uptr :=
  match n with
  | Some s => if decide (s ∈ fleet_stack) then UFleet s else UNull
  | None => UNull
  end.

(** Modelled from the spec: the world-mutation interface ([system_get],
    [system_addPlanet], [system_rmPlanet], [system_addFleet],
    [system_rmFleet]) and [fleet_get] live in space.c, which is not among
    the sources.  A mutator fails when its target system or its item cannot
    be found, and a removal also when the item is already absent; a system
    holds a planet set and a fleet set. *)
Definition space : Space :=
  {| Universe := World;
     StarSystem := string;
     system_get := get;
     system_addPlanet := addPlanet;
     system_rmPlanet := rmPlanet;
     system_addFleet := addFleet;
     system_rmFleet := rmFleet;
     fleet_get := get_fleet |}.

End Model.

(** An item of the world: a planet in a system, or a fleet presence in
    a system. *)
Definition Item : Type := (string * string + string * (string * Z))%type.

(** The item a hunk names. *)
Definition hunk_item (h : UniHunk_t) : option Item :=
  match target_name (target h), type h, u_slot (u h) with
  | Some s, (HUNK_TYPE_PLANET_ADD | HUNK_TYPE_PLANET_REMOVE), UString n =>
      Some (inl (s, n))
  | Some s, (HUNK_TYPE_FLEET_ADD | HUNK_TYPE_FLEET_REMOVE), UFleet n =>
      Some (inr (s, (n, u_chance (u h))))
  | _, _, _ => None
  end.

Definition holds (w : World) (i : Item) : Prop :=
  match i with
  | inl sp => sp ∈ planets w
  | inr sf => sf ∈ fleets w
  end.

Definition is_add (h : UniHunk_t) : bool :=
  match type h with
  | HUNK_TYPE_PLANET_ADD | HUNK_TYPE_FLEET_ADD => true
  | _ => false
  end.

(** No two hunks name the same item, and the items that are added are
    not there yet. *)
Definition separate (hs : list UniHunk_t) (w : World) : Prop :=
  NoDup (hunk_item <$> hs) /\
  Forall (fun h => forall i, hunk_item h = Some i ->
                             is_add h = true -> ~ holds w i) hs.

(** Putting an item into the world ([act true]) or taking it out
    ([act false]). *)
Definition act (add : bool) (i : Item) (w : World) : World :=
  match i with
  | inl sp =>
      {| systems := systems w;
         planets := if add then planets w ∪ {[sp]} else planets w ∖ {[sp]};
         fleets := fleets w |}
  | inr sf =>
      {| systems := systems w;
         planets := planets w;
         fleets := if add then fleets w ∪ {[sf]} else fleets w ∖ {[sf]} |}
  end.

(** What an accepted hunk does to the world, and what its inverse does. *)
Definition effect (w : World) (h : UniHunk_t) : World :=
  match hunk_item h with
  | Some i => act (is_add h) i w
  | None => w
  end.

Definition undo (w : World) (h : UniHunk_t) : World :=
  match hunk_item h with
  | Some i => act (negb (is_add h)) i w
  | None => w
  end.

End SpecSpace.

(** ** Reading a definition apart from applying it

    The parse of a definition does not depend on the universe, so the
    hunks a "unidiff" element gives rise to can be read off beforehand.
    The functions below do that; the lemmas of the second part show that
    the C code files exactly these hunks, in this order. *)

Section Reading.

Context `{SP : Space}.

(** What [diff_patchHunk] returns and the universe it leaves. *)
Definition patch_universe (hunk : UniHunk_t) (w : Universe) : Z * Universe :=
  let sys := system_get (target_name (target hunk)) w in
  match type hunk with
  | HUNK_TYPE_PLANET_ADD => system_addPlanet sys (u_name (u hunk)) w
  | HUNK_TYPE_PLANET_REMOVE => system_rmPlanet sys (u_name (u hunk)) w
  | HUNK_TYPE_FLEET_ADD => system_addFleet sys (u_fleet (u hunk)) w
  | HUNK_TYPE_FLEET_REMOVE => system_rmFleet sys (u_fleet (u hunk)) w
  | HUNK_TYPE_NONE => (-1, w)
  end.

(** What [diff_patchHunk] appends to the trace. *)
Definition patch_event (hunk : UniHunk_t) (w : Universe) : Event :=
  match type hunk with
  | HUNK_TYPE_NONE => EvWARN (Warn_unknown_hunk_type HUNK_TYPE_NONE)
  | _ => EvSpace hunk (fst (patch_universe hunk w))
  end.

(** The state [diff_patchHunk] leaves. *)
Definition after_patch (h : UniHunk_t) (st : State) : State :=
  emit (patch_event h (universe st))
    (set_universe (snd (patch_universe h (universe st))) st).

(** Filing one hunk in a diff record, and a sequence of them. *)
Definition file_hunk (dw : UniDiff_t * Universe) (h : UniHunk_t)
  : UniDiff_t * Universe :=
  let (r, w) := patch_universe h (snd dw) in
  (if r <? 0 then hunkFailed (fst dw) h else hunkSuccess (fst dw) h, w).

Definition file_hunks (hs : list UniHunk_t) (dw : UniDiff_t * Universe)
  : UniDiff_t * Universe :=
  fold_left file_hunk hs dw.

(** The universe a sequence of hunks leaves when [diff_patchHunk] runs on
    them in order. *)
Definition patch_all (hs : list UniHunk_t) (w : Universe) : Universe :=
  fold_left (fun w h => snd (patch_universe h w)) hs w.

(** The hunks of a sequence that [diff_patchHunk] accepts (result not
    negative) and those it rejects, when they are run in order from [w]. *)
Fixpoint accepted (hs : list UniHunk_t) (w : Universe) : list UniHunk_t :=
  match hs with
  | [] => []
  | h :: rest =>
      let rw := patch_universe h w in
      if fst rw <? 0 then accepted rest (snd rw)
      else h :: accepted rest (snd rw)
  end.

Fixpoint rejected (hs : list UniHunk_t) (w : Universe) : list UniHunk_t :=
  match hs with
  | [] => []
  | h :: rest =>
      let rw := patch_universe h w in
      if fst rw <? 0 then h :: rejected rest (snd rw)
      else rejected rest (snd rw)
  end.

(** The hunk a node of the inner loop gives rise to, if any. *)
Definition change_hunk (base : UniHunk_t) (cur : xmlNode)
  (hunk : UniHunk_t) : Res (option UniHunk_t) :=
  if xml_isNode cur "planet" then
    h <~ planet_hunk cur base hunk ;; Ok (Some h)
  else if xml_isNode cur "fleet" then
    h <~ fleet_hunk cur base hunk ;; Ok (Some h)
  else Ok None.

(** The hunks of a chain of the inner loop, with the last value of the
    local [hunk]. *)
Fixpoint changes_hunks (base : UniHunk_t) (l : xmlNodePtr)
  (hunk : UniHunk_t) : Res (list UniHunk_t * UniHunk_t) :=
  match l with
  | [] => Ok ([], hunk)
  | cur :: rest =>
      o <~ change_hunk base cur hunk ;;
      match o with
      | Some h =>
          p <~ changes_hunks base rest h ;;
          Ok (h :: fst p, snd p)
      | None => changes_hunks base rest hunk
      end
  end.

(** What the outer loop does, in order: a warning or the filing of a
    hunk. *)
Inductive Step : Type :=
  | SWarn (m : LogMsg)
  | SHunk (h : UniHunk_t).

Definition step_hunk (s : Step) : option UniHunk_t :=
  match s with
  | SHunk h => Some h
  | SWarn _ => None
  end.

Fixpoint systems_steps (dn : option string) (l : xmlNodePtr)
  (hunk : UniHunk_t) : Res (list Step * UniHunk_t) :=
  match l with
  | [] => Ok ([], hunk)
  | node :: rest =>
      if xml_isNode node "system" then
        let base := system_base node in
        let warn :=
          match target_name (target base) with
          | None => [SWarn (Warn_system_without_name dn)]
          | Some _ => []
          end in
        p <~ changes_hunks base (node_children node) hunk ;;
        q <~ systems_steps dn rest (snd p) ;;
        Ok (warn ++ (SHunk <$> fst p) ++ fst q, snd q)
      else systems_steps dn rest hunk
  end.

Definition unidiff_steps (parent : xmlNode) (garbage : UniHunk_t)
  : Res (list Step) :=
  p <~ systems_steps (xmlr_attr parent "name") (node_children parent) garbage ;;
  Ok (fst p).

(** The hunks of a "unidiff" element, in document order. *)
Definition unidiff_hunks (parent : xmlNode) (garbage : UniHunk_t)
  : Res (list UniHunk_t) :=
  l <~ unidiff_steps parent garbage ;;
  Ok (omap step_hunk l).

Definition run_step (diff : nat) (s : Step) : M unit :=
  match s with
  | SWarn m => WARN m
  | SHunk h => patch_and_file (Some diff) h
  end.

Fixpoint run_steps (diff : nat) (l : list Step) : M unit :=
  match l with
  | [] => ret tt
  | s :: rest => run_step diff s ;; run_steps diff rest
  end.

(** The element the search loop of [diff_apply] stops at. *)
Fixpoint find_unidiff (node : xmlNodePtr) (n : option string)
  : Res (option xmlNode) :=
  match node with
  | [] => Ok None
  | x :: rest =>
      if xml_isNode x "unidiff" then
        c <~ strcmp (xmlr_attr x "name") n ;;
        if c =? 0 then Ok (Some x) else find_unidiff rest n
      else find_unidiff rest n
  end.

Inductive Lookup : Type :=
  | MissingRoot
  | NoElements
  | NotFound
  | Found (x : xmlNode).

(** The outcome of the tests [diff_apply] makes on the document. *)
Definition lookup_unidiff (data : xmlDocPtr) (n : option string)
  : Res Lookup :=
  match data with
  | Some (root :: _) =>
      if String.eqb (node_name root) "unidiffs" then
        match node_children root with
        | [] => Ok NoElements
        | node =>
            o <~ find_unidiff node n ;;
            Ok (match o with Some x => Found x | None => NotFound end)
        end
      else Ok MissingRoot
  | _ => Crash
  end.

(** Whether the DEBUG line of a failed hunk dereferences no NULL or
    foreign pointer: a hunk of a fleet type must hold a fleet
    definition. *)
Definition debug_ok (fail : UniHunk_t) : bool :=
  match type fail with
  | HUNK_TYPE_FLEET_ADD | HUNK_TYPE_FLEET_REMOVE =>
      match fleet (u_fleet (u fail)) with
      | UFleet _ => true
      | _ => false
      end
  | _ => true
  end.

(** Whether [diff_apply] pushes a diff for a name that is not active
    ([applies]), or returns without one ([skips]); neither holds when the
    reading of the document dereferences NULL.  [applies] asks that every
    hunk of the definition can be logged, so that the DEBUG loop of
    [diff_patch] dereferences no NULL pointer whichever hunks the universe
    rejects. *)
Definition applies (data : xmlDocPtr) (garbage : UniHunk_t)
  (n : option string) : bool :=
  match lookup_unidiff data n with
  | Ok (Found x) =>
      match unidiff_steps x garbage with
      | Ok steps => forallb debug_ok (omap step_hunk steps)
      | Crash => false
      end
  | _ => false
  end.

Definition skips (data : xmlDocPtr) (n : option string) : bool :=
  match lookup_unidiff data n with
  | Ok MissingRoot | Ok NoElements | Ok NotFound => true
  | _ => false
  end.

(** A record as [diff_patch] initialises it. *)
Definition fresh_diff (n : option string) : UniDiff_t :=
  {| name := n; applied := []; mapplied := 0; failed := []; mfailed := 0 |}.

(** ** Invariants of the stack and reachable states *)

Definition hunk_invertible (h : UniHunk_t) : Prop :=
  type h <> HUNK_TYPE_NONE.

Definition diff_ok (d : UniDiff_t) : Prop :=
  is_Some (name d) /\ Forall hunk_invertible (applied d).

Definition stack_ok (st : State) : Prop :=
  Forall diff_ok (stack st) /\ NoDup (name <$> stack st).

Definition initial (w : Universe) : State :=
  {| diff_stack := None; diff_mstack := 0; universe := w; trace := [] |}.

(** The states the public functions lead to from an empty stack; between
    two calls the game may change the universe. *)
Inductive reachable : State -> Prop :=
  | reach_initial w : reachable (initial w)
  | reach_universe st w :
      reachable st -> reachable (set_universe w st)
  | reach_apply data n garbage st r st' :
      reachable st ->
      diff_apply data n garbage st = Ok (r, st') ->
      reachable st'
  | reach_remove n st st' :
      reachable st ->
      diff_remove n st = Ok (tt, st') ->
      reachable st'
  | reach_clear st st' :
      reachable st ->
      diff_clear st = Ok (tt, st') ->
      reachable st'
  | reach_load data parent garbage st r st' :
      reachable st ->
      diff_load data parent garbage st = Ok (r, st') ->
      reachable st'.

(** ** The words of the specification *)

(** [invert]: PlanetAdd and PlanetRemove are swapped, FleetAdd and
    FleetRemove are swapped, target and payload stay. *)
Definition invert_kind (t : UniHunkType_t) : UniHunkType_t :=
  match t with
  | HUNK_TYPE_PLANET_ADD => HUNK_TYPE_PLANET_REMOVE
  | HUNK_TYPE_PLANET_REMOVE => HUNK_TYPE_PLANET_ADD
  | HUNK_TYPE_FLEET_ADD => HUNK_TYPE_FLEET_REMOVE
  | HUNK_TYPE_FLEET_REMOVE => HUNK_TYPE_FLEET_ADD
  | HUNK_TYPE_NONE => HUNK_TYPE_NONE
  end.

Definition invert (h : UniHunk_t) : UniHunk_t :=
  {| target := target h; type := invert_kind (type h); u := u h |}.

(** The hunks handed to space.h, in the order of the calls. *)
Definition space_hunk (e : Event) : option UniHunk_t :=
  match e with
  | EvSpace h _ => Some h
  | _ => None
  end.

Definition space_calls (evs : list Event) : list UniHunk_t :=
  omap space_hunk evs.

(** Documents and buffers allocated and not yet released. *)
Fixpoint live_docs (evs : list Event) : Z :=
  match evs with
  | [] => 0
  | EvParseMemory :: rest => live_docs rest + 1
  | EvFreeDoc :: rest => live_docs rest - 1
  | _ :: rest => live_docs rest
  end.

Fixpoint live_bufs (evs : list Event) : Z :=
  match evs with
  | [] => 0
  | EvReadFile :: rest => live_bufs rest + 1
  | EvFreeBuf :: rest => live_bufs rest - 1
  | _ :: rest => live_bufs rest
  end.

(** Events other than the allocation and release of the definitions
    document and of its buffer. *)
Definition quiet (e : Event) : Prop :=
  match e with
  | EvReadFile | EvParseMemory | EvFreeDoc | EvFreeBuf => False
  | _ => True
  end.

End Reading.

(** ** Concrete documents and states *)

Module Examples.

Import SpecSpace.

Definition elem (n : string) (props : list (string * string))
  (ch : list xmlNode) : xmlNode :=
  XmlNode XML_ELEMENT_NODE n props None ch.

Definition text (s : string) : xmlNode := xml_text (Some s).

#[export] Instance sp : Space := space {["Pirates"]}.

(** One system, "S", empty. *)
Definition w0 : World :=
  {| systems := {["S"]}; planets := ∅; fleets := ∅ |}.

Definition st0 : State := initial w0.

(** dat/unidiff.xml with four definitions. *)
Definition unidiff_xml : xmlDocPtr :=
  Some
    [elem "unidiffs" []
       [elem "unidiff" [("name", "D")]
          [elem "system" [("name", "S")]
             [elem "planet" [("name", "A")] [text "add"];
              elem "planet" [("name", "A")] [text "remove"]]];
        elem "unidiff" [("name", "E")]
          [elem "system" [("name", "Nowhere")]
             [elem "planet" [("name", "B")] [text "add"]];
           elem "system" [("name", "S")]
             [elem "planet" [("name", "B")] [text "add"]]];
        elem "unidiff" [("name", "F")]
          [elem "system" [("name", "S")]
             [elem "fleet" [("name", "Pirates"); ("chance", "150")]
                [text "add"]]];
        elem "unidiff" [("name", "G")]
          [elem "system" [("name", "S")]
             [elem "planet" [("name", "C")] [text "toggle"]]];
        elem "unidiff" [("name", "H")]
          [elem "system" [("name", "S")]
             [elem "planet" [("name", "P")] [text "add"];
              elem "fleet" [("name", "Pirates"); ("chance", "50")]
                [text "add"]]]]].

(** System "S" holding planet "Q", and a definitions document that adds
    "Q" to "S". *)
Definition w_Q : World :=
  {| systems := {["S"]}; planets := {[("S", "Q")]}; fleets := ∅ |}.

Definition add_Q_xml : xmlDocPtr :=
  Some
    [elem "unidiffs" []
       [elem "unidiff" [("name", "I")]
          [elem "system" [("name", "S")]
             [elem "planet" [("name", "Q")] [text "add"]]]]].

(** A document whose root is not "unidiffs". *)
Definition malformed_xml : xmlDocPtr :=
  Some [elem "universe" [] [elem "unidiff" [("name", "D")] []]].

(** A document whose root has no children. *)
Definition empty_xml : xmlDocPtr := Some [elem "unidiffs" [] []].

Definition state_after {A : Type} (r : Res (A * State)) : State :=
  match r with
  | Ok (_, st) => st
  | Crash => st0
  end.

Definition st_D : State :=
  Eval vm_compute in
    state_after (diff_apply unidiff_xml (Some "D") UniHunk_zero st0).

Definition st_DE : State :=
  Eval vm_compute in
    state_after (diff_apply unidiff_xml (Some "E") UniHunk_zero st_D).

(** The hunks of definition "H". *)
Definition hunks_H : list UniHunk_t :=
  [{| target := {| target_type := HUNK_TARGET_SYSTEM;
                   target_name := Some "S" |};
      type := HUNK_TYPE_PLANET_ADD;
      u := {| u_slot := UString "P"; u_chance := 0 |} |};
   {| target := {| target_type := HUNK_TARGET_SYSTEM;
                   target_name := Some "S" |};
      type := HUNK_TYPE_FLEET_ADD;
      u := {| u_slot := UFleet "Pirates"; u_chance := 50 |} |}].

(** The state after "D" has been applied and removed again. *)
Definition st_D_removed : State :=
  Eval vm_compute in
    state_after (diff_remove (Some "D") st_D).

(** The states after "I" has been applied to [w_Q], and removed again. *)
Definition st0_Q : State := initial w_Q.

Definition st_I : State :=
  Eval vm_compute in
    state_after (diff_apply add_Q_xml (Some "I") UniHunk_zero st0_Q).

Definition st_I_removed : State :=
  Eval vm_compute in
    state_after (diff_remove (Some "I") st_I).

(** The save document [diff_save] produces in [st_DE]. *)
Definition save_xml : xmlNode :=
  Eval vm_compute in elem "save" [] (snd (diff_save [] st_DE)).

Definition hunk_A (t : UniHunkType_t) : UniHunk_t :=
  {| target := {| target_type := HUNK_TARGET_SYSTEM;
                  target_name := Some "S" |};
     type := t;
     u := {| u_slot := UString "A"; u_chance := 0 |} |}.

(** The record definition "D" leaves on the stack. *)
Definition diff_D : UniDiff_t :=
  {| name := Some "D";
     applied := [hunk_A HUNK_TYPE_PLANET_ADD; hunk_A HUNK_TYPE_PLANET_REMOVE];
     mapplied := 32; failed := []; mfailed := 0 |}.

Definition hunk_B (s : string) : UniHunk_t :=
  {| target := {| target_type := HUNK_TARGET_SYSTEM;
                  target_name := Some s |};
     type := HUNK_TYPE_PLANET_ADD;
     u := {| u_slot := UString "B"; u_chance := 0 |} |}.

(** The hunks of definition "E": the first names a system that does not
    exist. *)
Definition hunks_E : list UniHunk_t := [hunk_B "Nowhere"; hunk_B "S"].

Definition hunk_F : UniHunk_t :=
  {| target := {| target_type := HUNK_TARGET_SYSTEM;
                  target_name := Some "S" |};
     type := HUNK_TYPE_FLEET_ADD;
     u := {| u_slot := UFleet "Pirates"; u_chance := 150 |} |}.

(** The record definition "F" leaves on the stack. *)
Definition diff_F : UniDiff_t :=
  {| name := Some "F"; applied := [hunk_F]; mapplied := 32;
     failed := []; mfailed := 0 |}.

Definition fleet_element : xmlNode :=
  elem "fleet" [("name", "Pirates"); ("chance", "150")] [text "add"].

Definition toggle_element : xmlNode :=
  elem "planet" [("name", "C")] [text "toggle"].

End Examples.

(** ** Further definitions: well-formed definitions, capacities, reverting *)

Section Further.

Context `{SP : Space}.

Definition has_value (a : option string) : bool :=
  match a with
  | Some _ => true
  | None => false
  end.

(** A node of the inner loop of [diff_patch] whose reading dereferences
    no NULL pointer: under a system with ([named]) or without a "name"
    attribute, a "planet" needs that name and a text, a "fleet" moreover a
    "chance" attribute; other nodes are passed over. *)
Definition wf_change (named : bool) (cur : xmlNode) : bool :=
  if xml_isNode cur "planet" then named && has_value (xml_get cur)
  else if xml_isNode cur "fleet" then
    named && has_value (xmlr_attr cur "chance") && has_value (xml_get cur)
  else true.

Definition wf_system (node : xmlNode) : bool :=
  if xml_isNode node "system" then
    forallb (wf_change (has_value (xmlr_attr node "name")))
      (node_children node)
  else true.

Definition wf_unidiff (parent : xmlNode) : bool :=
  forallb wf_system (node_children parent).

(** The nodes of the inner loop that give rise to a hunk. *)
Definition is_change (cur : xmlNode) : bool :=
  xml_isNode cur "planet" || xml_isNode cur "fleet".

(** The number of "planet" and "fleet" elements that lie directly under
    the "system" elements of a chain. *)
Fixpoint count_changes (l : xmlNodePtr) : nat :=
  match l with
  | [] => 0
  | node :: rest =>
      (if xml_isNode node "system"
       then length (filter (fun c => is_change c = true) (node_children node))
       else 0) + count_changes rest
  end.

(** [n] elements are in use in an array of [m] allocated ones, and the
    allocation was made in chunks. *)
Definition chunked (n m : Z) : Prop :=
  0 <= n <= m /\ (CHUNK_SIZE | m).

Definition diff_cap_ok (d : UniDiff_t) : Prop :=
  chunked (napplied d) (mapplied d) /\ chunked (nfailed d) (mfailed d).

Definition cap_ok (st : State) : Prop :=
  chunked (diff_nstack st) (diff_mstack st) /\
  Forall diff_cap_ok (stack st).

(** A computation keeps a property of the state on every run that
    returns. *)
Definition preserves {A : Type} (P : State -> Prop) (m : M A) : Prop :=
  forall st a st', P st -> m st = Ok (a, st') -> P st'.

(** The universe the loop of [diff_removeDiff] leaves: the inverse of
    each hunk that has one is run, index 0 first; the others are passed
    over. *)
Fixpoint revert_hunks (hs : list UniHunk_t) (w : Universe) : Universe :=
  match hs with
  | [] => w
  | h :: rest =>
      match inverted_type (type h) with
      | Some t => revert_hunks rest (snd (patch_universe (with_type t h) w))
      | None => revert_hunks rest w
      end
  end.

(** The events that loop appends to the trace. *)
Fixpoint revert_events (hs : list UniHunk_t) (w : Universe) : list Event :=
  match hs with
  | [] => []
  | h :: rest =>
      match inverted_type (type h) with
      | Some t =>
          patch_event (with_type t h) w ::
          revert_events rest (snd (patch_universe (with_type t h) w))
      | None =>
          EvWARN (Warn_unknown_Hunk_type (type h)) :: revert_events rest w
      end
  end.

(** The universe left by reverting the diffs of a stack, last diff
    first. *)
Definition revert_stack (l : list UniDiff_t) (w : Universe) : Universe :=
  foldr (fun d w => revert_hunks (applied d) w) w l.

(** ** Releasing a hunk and a diff *)

(** What is handed to [free]: a string, the pointer slot of a hunk's
    union (so that a fleet definition handed to [free] is told apart from
    a planet name), or one of the two hunk arrays of a diff. *)
Inductive Freed : Type :=
  | FreeString (s : string)
  | FreeSlot (p : uptr)
  | FreeApplied
  | FreeFailed.

(** [diff_cleanupHunk]: the calls to [free] it makes, in order.  The hunk
    is cleared afterwards. *)
Definition diff_cleanupHunk (hunk : UniHunk_t) : list Freed * UniHunk_t :=
  ((match target_name (target hunk) with
    | Some s => [FreeString s]
    | None => []
    end) ++
   (match type hunk with
    | HUNK_TYPE_PLANET_ADD | HUNK_TYPE_PLANET_REMOVE =>
        match u_name (u hunk) with
        | UNull => []
        | p => [FreeSlot p]
        end
    | _ => []
    end),
   UniHunk_zero).

(** The calls to [free] of [diff_cleanup]: the name (NULL is handed to
    [free] too, which ignores it), the applied hunks and their array, the
    failed hunks and their array.  An array is non-NULL once it has been
    allocated, that is, when its capacity is not 0. *)
Definition diff_cleanup_frees (d : UniDiff_t) : list Freed :=
  (match name d with
   | Some s => [FreeString s]
   | None => []
   end) ++
  concat ((fun h => fst (diff_cleanupHunk h)) <$> applied d) ++
  (if mapplied d =? 0 then [] else [FreeApplied]) ++
  concat ((fun h => fst (diff_cleanupHunk h)) <$> failed d) ++
  (if mfailed d =? 0 then [] else [FreeFailed]).

(** The heap blocks the "planet" branch of [diff_patch] leaves in the
    hunk it files: the copy of the target name made by [strdup] and the
    copy of the "name" attribute made by [xmlr_attr]. *)
Definition planet_owned (cur : xmlNode) (base : UniHunk_t) : list Freed :=
  (match target_name (target base) with
   | Some s => [FreeString s]
   | None => []
   end) ++
  (match xmlr_attr cur "name" with
   | Some s => [FreeSlot (UString s)]
   | None => []
   end).

(** The "fleet" branch leaves only the copy of the target name: its two
    attribute copies are freed at once, and the fleet definition belongs
    to the fleet stack. *)
Definition fleet_owned (base : UniHunk_t) : list Freed :=
  match target_name (target base) with
  | Some s => [FreeString s]
  | None => []
  end.

End Further.

(** ** The queue of scripts/queue.lua *)

Module Queue.

(** A Lua error raised by [error(msg)]. *)
Inductive outcome (A : Type) : Type :=
  | Value (a : A)
  | Error (msg : string).
Arguments Value {A} a.
Arguments Error {A} msg.

Section Queue.

(** The values stored; [None] is Lua's nil. *)
Context {V : Type}.

(** The table [Queue.new] returns: the fields [first] and [last] and the
    entries at number keys.  The numbers are counters that move in steps
    of one; Lua's arithmetic is exact on them. *)
Record t : Type := {
  q_first : Z;
  q_last : Z;
  q_slots : gmap Z V
}.

Definition new : t := {| q_first := 0; q_last := -1; q_slots := ∅ |}.

(** [q[k] = val]: an assignment of nil removes the entry. *)
Definition assign (k : Z) (val : option V) (m : gmap Z V) : gmap Z V :=
  match val with
  | Some v => <[k := v]> m
  | None => delete k m
  end.

Definition enqueue (q : t) (val : option V) : t :=
  let l := q_last q + 1 in
  {| q_first := q_first q; q_last := l; q_slots := assign l val (q_slots q) |}.

Definition dequeue (q : t) : outcome (option V * t) :=
  if q_first q <? q_last q then Error "Queue is empty!"
  else
    let val := q_slots q !! q_first q in
    Value (val,
           {| q_first := q_first q + 1; q_last := q_last q;
              q_slots := delete (q_first q) (q_slots q) |}).

Definition isEmpty (q : t) : bool := q_first q <? q_last q.

(** The operations a user of a queue performs. *)
Inductive op : Type :=
  | Enqueue (val : option V)
  | Dequeue.

(** A dequeue that raises its error leaves the queue as it is. *)
Definition step (q : t) (o : op) : t :=
  match o with
  | Enqueue val => enqueue q val
  | Dequeue =>
      match dequeue q with
      | Value (_, q') => q'
      | Error _ => q
      end
  end.

Definition run (q : t) (ops : list op) : t := fold_left step ops q.

(** The number of entries between [first] and [last]. *)
Definition held (q : t) : Z := q_last q - q_first q + 1.

End Queue.

Arguments t V : clear implicits.

End Queue.

(** ** More concrete documents and states *)

Module Examples2.

Import SpecSpace.
Import Examples.

(** A definition without any element, one with a planet lacking its text
    and one with a system lacking its name. *)
Definition odd_xml : xmlDocPtr :=
  Some
    [elem "unidiffs" []
       [elem "unidiff" [("name", "Empty")] [];
        elem "unidiff" [("name", "NoText")]
          [elem "system" [("name", "S")]
             [elem "planet" [("name", "A")] []]];
        elem "unidiff" [("name", "NoName")]
          [elem "system" [] [elem "planet" [("name", "A")] [text "add"]]]]].

Definition unidiff_NoText : xmlNode :=
  elem "unidiff" [("name", "NoText")]
    [elem "system" [("name", "S")] [elem "planet" [("name", "A")] []]].

Definition unidiff_H : xmlNode :=
  elem "unidiff" [("name", "H")]
    [elem "system" [("name", "S")]
       [elem "planet" [("name", "P")] [text "add"];
        elem "fleet" [("name", "Pirates"); ("chance", "50")] [text "add"]]].

Definition unidiff_Empty : xmlNode :=
  elem "unidiff" [("name", "Empty")] [].

(** A save document without a "diffs" element. *)
Definition save_without_diffs : xmlNode :=
  elem "save" [] [elem "player" [] []].

(** A fleet element whose text is neither "add" nor "remove". *)
Definition odd_fleet_element : xmlNode :=
  elem "fleet" [("name", "Pirates"); ("chance", "50")] [text "toggle"].

Definition planet_element : xmlNode :=
  elem "planet" [("name", "A")] [text "add"].

Definition base_S : UniHunk_t :=
  system_base (elem "system" [("name", "S")] []).

(** A definition with a planet for the system "S" and a fleet that is
    not defined, on a system that does not exist. *)
Definition unidiff_J : xmlNode :=
  elem "unidiff" [("name", "J")]
    [elem "system" [("name", "S")]
       [elem "planet" [("name", "P")] [text "add"]];
     elem "system" [("name", "Nowhere")]
       [elem "fleet" [("name", "Ghost"); ("chance", "50")] [text "add"]]].

Definition ghost_xml : xmlDocPtr := Some [elem "unidiffs" [] [unidiff_J]].

Definition hunk_Ghost : UniHunk_t :=
  {| target := {| target_type := HUNK_TARGET_SYSTEM;
                  target_name := Some "Nowhere" |};
     type := HUNK_TYPE_FLEET_ADD;
     u := {| u_slot := UNull; u_chance := 50 |} |}.

Definition hunk_P : UniHunk_t :=
  {| target := {| target_type := HUNK_TARGET_SYSTEM;
                  target_name := Some "S" |};
     type := HUNK_TYPE_PLANET_ADD;
     u := {| u_slot := UString "P"; u_chance := 0 |} |}.

Definition hunks_J : list UniHunk_t := [hunk_P; hunk_Ghost].

(** A definitions document in which "D" has become a fleet that is not
    defined, on a system that does not exist. *)
Definition redefined_xml : xmlDocPtr :=
  Some
    [elem "unidiffs" []
       [elem "unidiff" [("name", "D")]
          [elem "system" [("name", "Nowhere")]
             [elem "fleet" [("name", "Ghost"); ("chance", "50")]
                [text "add"]]]]].

End Examples2.

(** * Properties *)

(** ** libc *)

Lemma String_compare_refl (s : string) : String.compare s s = Eq.
Proof.
  induction s as [|c s IH]; simpl; [reflexivity|].
  assert (Hc : Ascii.compare c c = Eq).
  { unfold Ascii.compare. apply N.compare_refl. }
  rewrite Hc. exact IH.
Qed.

Lemma strcmp_same (s : string) : strcmp (Some s) (Some s) = Ok 0.
Proof. unfold strcmp. rewrite String_compare_refl. reflexivity. Qed.

Lemma strcmp_Ok (a b : option string) (c : Z) :
  strcmp a b = Ok c ->
  exists x y, a = Some x /\ b = Some y /\ (c = 0 <-> x = y).
Proof.
  destruct a as [x|], b as [y|]; simpl; try discriminate.
  intros [= <-]. exists x, y. split; [reflexivity|]. split; [reflexivity|].
  destruct (String.compare x y) eqn:E.
  - apply String.compare_eq_iff in E. tauto.
  - split; [discriminate|]. intros ->. rewrite String_compare_refl in E.
    discriminate.
  - split; [discriminate|]. intros ->. rewrite String_compare_refl in E.
    discriminate.
Qed.

Lemma strcmp_diff (x y : string) :
  x <> y -> exists c, strcmp (Some x) (Some y) = Ok c /\ (c =? 0) = false.
Proof.
  intros Hne. destruct (strcmp (Some x) (Some y)) as [c|] eqn:E;
    [|discriminate].
  exists c. split; [reflexivity|].
  apply strcmp_Ok in E as (x' & y' & [= <-] & [= <-] & Hc).
  apply Z.eqb_neq. tauto.
Qed.

Lemma wrap_int_range (z : Z) : INT_MIN <= wrap_int z <= INT_MAX.
Proof.
  unfold wrap_int, INT_MIN, INT_MAX.
  pose proof (Z.mod_pos_bound (z + 2 ^ 31) (2 ^ 32) ltac:(lia)). lia.
Qed.

Lemma wrap_int_id (z : Z) : INT_MIN <= z <= INT_MAX -> wrap_int z = z.
Proof.
  unfold wrap_int, INT_MIN, INT_MAX. intros H.
  rewrite Z.mod_small; lia.
Qed.

Lemma atoi_str_range (s : string) : INT_MIN <= atoi_str s <= INT_MAX.
Proof.
  unfold atoi_str. apply wrap_int_range.
Qed.

(** ** The monad *)

Section Monad.

Context `{SP : Space}.

Lemma bind_Ok {A B : Type} (m : M A) (k : A -> M B) st b st' :
  bind m k st = Ok (b, st') <->
  exists a st1, m st = Ok (a, st1) /\ k a st1 = Ok (b, st').
Proof.
  unfold bind. split.
  - destruct (m st) as [[a st1]|]; [|discriminate]. eauto.
  - intros (a & st1 & -> & H). exact H.
Qed.

Lemma bind_run {A B : Type} (m : M A) (k : A -> M B) st a st1 :
  m st = Ok (a, st1) -> bind m k st = k a st1.
Proof. unfold bind. intros ->. reflexivity. Qed.

Lemma bind_crash {A B : Type} (m : M A) (k : A -> M B) st :
  m st = Crash -> bind m k st = Crash.
Proof. unfold bind. intros ->. reflexivity. Qed.

Lemma bind_assoc {A B C : Type} (m : M A) (k : A -> M B) (k' : B -> M C) st :
  bind (bind m k) k' st = bind m (fun a => bind (k a) k') st.
Proof. unfold bind. destruct (m st) as [[a st1]|]; reflexivity. Qed.

End Monad.

(** ** Effects of the building blocks *)

Section Blocks.

Context `{SP : Space}.

Lemma diff_get_from_None (l : list UniDiff_t) (i : nat) (n : option string) :
  diff_get_from l i n = Ok None -> n ∉ name <$> l.
Proof.
  revert i. induction l as [|d l IH]; intros i H; simpl in *.
  - apply not_elem_of_nil.
  - unfold Res_bind in H. destruct (strcmp (name d) n) as [c|] eqn:E;
      [|discriminate].
    destruct (c =? 0) eqn:Ec; [discriminate|].
    apply strcmp_Ok in E as (x & y & Hx & Hy & Hc).
    apply Z.eqb_neq in Ec.
    rewrite not_elem_of_cons. split; [|eauto].
    rewrite Hx, Hy. intros [= ->]. tauto.
Qed.

Lemma diff_get_from_Some (l : list UniDiff_t) (i j : nat) (n : option string) :
  diff_get_from l i n = Ok (Some j) ->
  exists d, (i <= j)%nat /\ l !! (j - i)%nat = Some d /\ name d = n /\
            is_Some n.
Proof.
  revert i. induction l as [|d l IH]; intros i H; simpl in *.
  - discriminate.
  - unfold Res_bind in H. destruct (strcmp (name d) n) as [c|] eqn:E;
      [|discriminate].
    apply strcmp_Ok in E as (x & y & Hx & Hy & Hc).
    destruct (c =? 0) eqn:Ec.
    + injection H as <-. apply Z.eqb_eq in Ec. exists d.
      rewrite Nat.sub_diag. simpl. repeat split; [lia| |by eauto].
      rewrite Hx, Hy. f_equal. tauto.
    + apply IH in H as (d' & Hle & Hl & Hn & Hs). exists d'.
      replace (j - i)%nat with (S (j - S i)) by lia. simpl.
      repeat split; [lia|done..].
Qed.

(** In a stack with distinct, non-NULL names the scan finds each diff at
    its own index. *)
Lemma diff_get_from_lookup (l : list UniDiff_t) (i k : nat) (d : UniDiff_t) :
  Forall (fun d => is_Some (name d)) l ->
  NoDup (name <$> l) ->
  l !! k = Some d ->
  diff_get_from l i (name d) = Ok (Some (i + k)%nat).
Proof.
  revert i k. induction l as [|e l IH]; intros i k Hs Hnd Hk; [done|].
  apply Forall_cons in Hs as [[s Hs] Hsl].
  simpl in Hnd. apply NoDup_cons in Hnd as [Hni Hnd].
  destruct k as [|k]; simpl in *.
  - injection Hk as ->. rewrite Hs, strcmp_same. simpl. do 2 f_equal. lia.
  - assert (Hne : name e <> name d).
    { intros Heq. apply Hni. rewrite Heq. apply list_elem_of_fmap.
      exists d. split; [done|]. eapply list_elem_of_lookup_2. exact Hk. }
    destruct (name d) as [t|] eqn:Hd.
    2:{ eapply Forall_lookup_1 in Hsl; [|exact Hk]. rewrite Hd in Hsl.
        by destruct Hsl. }
    rewrite Hs in *.
    destruct (strcmp_diff s t) as (c & -> & Hc); [congruence|].
    simpl. rewrite Hc. rewrite (IH (S i) k); try done.
    do 2 f_equal. lia.
Qed.

Lemma diff_get_state (n : option string) st p st' :
  diff_get n st = Ok (p, st') -> st' = st.
Proof.
  unfold diff_get, lift.
  destruct (diff_get_from (stack st) 0 n); [|discriminate]. congruence.
Qed.

Lemma diff_isApplied_state (n : option string) st r st' :
  diff_isApplied n st = Ok (r, st') -> st' = st /\ (r = 0 \/ r = 1).
Proof.
  unfold diff_isApplied. intros H. apply bind_Ok in H as (p & st1 & Hg & H).
  apply diff_get_state in Hg as ->.
  destruct p; unfold ret in H; injection H as <- <-; auto.
Qed.

Lemma diff_isApplied_0 (n : option string) st :
  diff_isApplied n st = Ok (0, st) <-> diff_get_from (stack st) 0 n = Ok None.
Proof.
  unfold diff_isApplied, diff_get, bind, lift, ret.
  destruct (diff_get_from (stack st) 0 n) as [[j|]|]; split; intros H;
    try discriminate; try reflexivity; try congruence.
Qed.

Lemma diff_isApplied_1 (n : option string) st :
  diff_isApplied n st = Ok (1, st) <->
  exists j, diff_get_from (stack st) 0 n = Ok (Some j).
Proof.
  unfold diff_isApplied, diff_get, bind, lift, ret.
  destruct (diff_get_from (stack st) 0 n) as [[j|]|]; split; intros H;
    try discriminate; try reflexivity; eauto; try (destruct H; congruence).
Qed.

(** [diff_patchHunk] never crashes; it changes the universe and the
    trace only. *)
Lemma diff_patchHunk_run (h : UniHunk_t) (st : State) :
  diff_patchHunk h st =
  Ok (fst (patch_universe h (universe st)), after_patch h st).
Proof.
  unfold diff_patchHunk, after_patch, patch_universe, patch_event, space_call.
  destruct st as [ds ms w tr]; simpl.
  destruct (type h) eqn:Et; simpl; unfold patch_universe; rewrite ?Et;
    try match goal with
        | |- context [let (_, _) := ?x in _] => destruct x
        end; reflexivity.
Qed.

End Blocks.

Section Filing.

Context `{SP : Space}.

Lemma bind_ext {A B : Type} (m : M A) (k k' : A -> M B) st :
  (forall a st1, k a st1 = k' a st1) -> bind m k st = bind m k' st.
Proof.
  intros H. unfold bind. destruct (m st) as [[a st1]|]; [apply H|reflexivity].
Qed.

Lemma file_hunk_name dw h : name (fst (file_hunk dw h)) = name (fst dw).
Proof.
  unfold file_hunk. destruct (patch_universe h (snd dw)) as [r w].
  destruct (r <? 0); reflexivity.
Qed.

Lemma file_hunks_name hs dw : name (fst (file_hunks hs dw)) = name (fst dw).
Proof.
  revert dw. induction hs as [|h hs IH]; intros dw; [reflexivity|].
  unfold file_hunks in *. simpl. rewrite IH. apply file_hunk_name.
Qed.

Lemma file_hunks_app hs1 hs2 dw :
  file_hunks (hs1 ++ hs2) dw = file_hunks hs2 (file_hunks hs1 dw).
Proof. unfold file_hunks. apply fold_left_app. Qed.

Lemma live_docs_app (a b : list Event) :
  live_docs (a ++ b) = live_docs a + live_docs b.
Proof.
  induction a as [|e a IH]; simpl; [lia|]. destruct e; lia.
Qed.

Lemma live_bufs_app (a b : list Event) :
  live_bufs (a ++ b) = live_bufs a + live_bufs b.
Proof.
  induction a as [|e a IH]; simpl; [lia|]. destruct e; lia.
Qed.

Lemma quiet_live (evs : list Event) :
  Forall quiet evs -> live_docs evs = 0 /\ live_bufs evs = 0.
Proof.
  induction 1 as [|e evs He _ [IH1 IH2]]; [done|].
  destruct e; simpl in *; try done.
Qed.

Lemma patch_and_file_run (i : nat) (h : UniHunk_t) (st : State) d :
  stack st !! i = Some d ->
  patch_and_file (Some i) h st =
  Ok (tt, set_stack (<[i := fst (file_hunk (d, universe st) h)]> (stack st))
            (after_patch h st)).
Proof.
  intros Hd. unfold patch_and_file.
  rewrite (bind_run _ _ _ _ _ (diff_patchHunk_run h st)).
  unfold file_hunk. simpl.
  destruct (patch_universe h (universe st)) as [r w] eqn:E. simpl.
  destruct (r <? 0); simpl; unfold update_diff;
    change (stack (after_patch h st)) with (stack st); rewrite Hd;
    reflexivity.
Qed.

Lemma run_steps_app (i : nat) (a b : list Step) (st : State) :
  run_steps i (a ++ b) st = bind (run_steps i a) (fun _ => run_steps i b) st.
Proof.
  revert st. induction a as [|s a IH]; intros st; simpl.
  - reflexivity.
  - rewrite bind_assoc. apply bind_ext. intros _ st1. apply IH.
Qed.

(** Running the steps of a definition files its hunks, in order, in the
    record the pointer designates; nothing else of the stack changes. *)
Lemma run_steps_spec (i : nat) (steps : list Step) (st : State) d :
  stack st !! i = Some d ->
  exists st',
    run_steps i steps st = Ok (tt, st') /\
    stack st' =
      <[i := fst (file_hunks (omap step_hunk steps) (d, universe st))]>
        (stack st) /\
    universe st' =
      snd (file_hunks (omap step_hunk steps) (d, universe st)) /\
    diff_mstack st' = diff_mstack st /\
    exists evs, trace st' = trace st ++ evs /\ Forall quiet evs.
Proof.
  revert st d. induction steps as [|s steps IH]; intros st d Hd.
  - exists st. simpl. split; [reflexivity|]. split.
    { symmetry. apply list_insert_id. exact Hd. }
    split; [reflexivity|]. split; [reflexivity|]. exists [].
    by rewrite app_nil_r.
  - destruct s as [m|h]; simpl.
    + destruct (IH (emit (EvWARN m) st) d Hd)
        as (st' & Hrun & Hst & Hu & Hm & evs & Htr & Hq).
      exists st'. split; [exact Hrun|]. split; [exact Hst|].
      split; [exact Hu|]. split; [exact Hm|].
      exists (EvWARN m :: evs). split.
      * rewrite Htr. simpl. by rewrite <- app_assoc.
      * by constructor.
    + rewrite (bind_run _ _ _ _ _ (patch_and_file_run i h st d Hd)).
      set (d1 := fst (file_hunk (d, universe st) h)).
      set (st1 := set_stack _ _).
      assert (Hlt : (i < length (stack st))%nat)
        by (eapply lookup_lt_Some; exact Hd).
      assert (Hd1 : stack st1 !! i = Some d1).
      { subst st1. simpl. by apply list_lookup_insert_eq. }
      destruct (IH st1 d1 Hd1)
        as (st' & Hrun & Hst & Hu & Hm & evs & Htr & Hq).
      assert (Hdw : (d1, universe st1) = file_hunk (d, universe st) h).
      { subst d1 st1. simpl. unfold file_hunk. simpl.
        destruct (patch_universe h (universe st)); reflexivity. }
      rewrite Hdw in Hst, Hu.
      exists st'. split; [exact Hrun|]. split.
      { rewrite Hst. subst st1. simpl. apply list_insert_insert_eq. }
      split; [exact Hu|]. split; [exact Hm|].
      exists (patch_event h (universe st) :: evs). split.
      * rewrite Htr. subst st1. simpl. by rewrite <- app_assoc.
      * constructor; [|done]. unfold patch_event. by destruct (type h).
Qed.

Lemma file_hunks_spec (hs : list UniHunk_t) (d : UniDiff_t) (w : Universe) :
  applied (fst (file_hunks hs (d, w))) = applied d ++ accepted hs w /\
  failed (fst (file_hunks hs (d, w))) = failed d ++ rejected hs w /\
  snd (file_hunks hs (d, w)) = patch_all hs w.
Proof.
  revert d w. induction hs as [|h hs IH]; intros d w.
  - simpl. by rewrite !app_nil_r.
  - unfold file_hunks, patch_all in *. simpl.
    unfold file_hunk at 2 4 6. simpl.
    destruct (patch_universe h w) as [r w'] eqn:E. simpl.
    destruct (r <? 0);
      match goal with
      | |- context [fold_left file_hunk hs (?d', w')] =>
          destruct (IH d' w') as (Ha & Hf & Hw)
      end; rewrite Ha, Hf, Hw; simpl; rewrite <- ?app_assoc; done.
Qed.

End Filing.

(** ** The loops of [diff_patch] file the hunks read beforehand *)

Section Exactness.

Context `{SP : Space}.

Lemma stack_set_stack (l : list UniDiff_t) (st : State) :
  stack (set_stack l st) = l.
Proof. reflexivity. Qed.

Lemma run_steps_app_bind {A : Type} (i : nat) (a b : list Step)
  (k : unit -> M A) (st : State) :
  bind (run_steps i (a ++ b)) k st =
  bind (run_steps i a) (fun _ => bind (run_steps i b) k) st.
Proof.
  unfold bind at 1. rewrite run_steps_app. unfold bind.
  destruct (run_steps i a st) as [[[] st1]|]; reflexivity.
Qed.

Lemma run_steps_keeps (i : nat) (steps : list Step) (st st' : State) d :
  stack st !! i = Some d ->
  run_steps i steps st = Ok (tt, st') ->
  exists d', stack st' !! i = Some d' /\ name d' = name d.
Proof.
  intros Hd Hrun.
  destruct (run_steps_spec i steps st d Hd) as (st2 & Hrun2 & Hst & _).
  rewrite Hrun in Hrun2. injection Hrun2 as <-.
  eexists. split.
  - rewrite Hst. apply list_lookup_insert_eq. eapply lookup_lt_Some, Hd.
  - apply file_hunks_name.
Qed.

Lemma diff_patch_change_run (i : nat) (base : UniHunk_t) (cur : xmlNode)
  (hunk : UniHunk_t) (st : State) d :
  stack st !! i = Some d ->
  diff_patch_change (Some i) base cur hunk st =
  match change_hunk base cur hunk with
  | Ok (Some h) =>
      Ok (h, set_stack
               (<[i := fst (file_hunk (d, universe st) h)]> (stack st))
               (after_patch h st))
  | Ok None => Ok (hunk, st)
  | Crash => Crash
  end.
Proof.
  intros Hd. unfold diff_patch_change, change_hunk.
  destruct (xml_isNode cur "planet");
    [|destruct (xml_isNode cur "fleet"); [|reflexivity]].
  all: match goal with
       | |- context [lift ?r] => destruct r as [h|] eqn:Eh
       end; simpl; [|reflexivity].
  all: unfold bind at 1; simpl;
    rewrite (bind_run _ _ _ _ _ (patch_and_file_run i h st d Hd));
    reflexivity.
Qed.

Lemma inner_exact (i : nat) (base : UniHunk_t) (l : xmlNodePtr) :
  forall (hunk : UniHunk_t) (st : State),
    is_Some (stack st !! i) ->
    xml_each (diff_patch_change (Some i) base) l hunk st =
    match changes_hunks base l hunk with
    | Ok (hs, h) => bind (run_steps i (SHunk <$> hs)) (fun _ => ret h) st
    | Crash => Crash
    end.
Proof.
  induction l as [|cur rest IH]; intros hunk st [d Hd]; simpl.
  - reflexivity.
  - unfold bind at 1. rewrite (diff_patch_change_run i base cur hunk st d Hd).
    destruct (change_hunk base cur hunk) as [[h|]|]; simpl.
    + set (st1 := set_stack _ _).
      assert (Hd1 : is_Some (stack st1 !! i)).
      { subst st1. rewrite stack_set_stack. apply lookup_lt_is_Some.
        rewrite length_insert. eapply lookup_lt_Some, Hd. }
      rewrite (IH h st1 Hd1).
      destruct (changes_hunks base rest h) as [[hs h']|]; simpl;
        [|reflexivity].
      rewrite bind_assoc.
      rewrite (bind_run _ _ _ _ _ (patch_and_file_run i h st d Hd)).
      reflexivity.
    + apply IH. eauto.
    + reflexivity.
Qed.

Lemma outer_exact (i : nat) (dn : option string) (l : xmlNodePtr) :
  forall (hunk : UniHunk_t) (st : State) d,
    stack st !! i = Some d ->
    name d = dn ->
    xml_each (diff_patch_system i) l hunk st =
    match systems_steps dn l hunk with
    | Ok (ss, h) => bind (run_steps i ss) (fun _ => ret h) st
    | Crash => Crash
    end.
Proof.
  induction l as [|node rest IH]; intros hunk st d Hd Hn; simpl.
  - reflexivity.
  - unfold diff_patch_system at 1.
    destruct (xml_isNode node "system"); simpl.
    2:{ unfold bind at 1, ret at 1. eapply IH; eauto. }
    set (base := system_base node).
    set (warn := match xmlr_attr node "name" with
                 | Some _ => []
                 | None => [SWarn (Warn_system_without_name dn)]
                 end).
    assert (Hw : exists st0,
               (match xmlr_attr node "name" with
                | Some _ => ret tt
                | None => bind (read_diff i)
                            (fun d => WARN (Warn_system_without_name (name d)))
                end) st = Ok (tt, st0) /\
               run_steps i warn st = Ok (tt, st0) /\
               stack st0 = stack st).
    { subst warn. destruct (xmlr_attr node "name").
      - exists st. done.
      - exists (emit (EvWARN (Warn_system_without_name dn)) st).
        unfold read_diff, bind. rewrite Hd, Hn. done. }
    destruct Hw as (st0 & Hw1 & Hw2 & Hs0).
    rewrite bind_assoc. rewrite (bind_run _ _ _ _ _ Hw1).
    assert (Hd0 : stack st0 !! i = Some d) by (rewrite Hs0; exact Hd).
    unfold bind at 1. rewrite (inner_exact i base _ hunk st0); [|eauto].
    destruct (changes_hunks base (node_children node) hunk)
      as [[hs h1]|] eqn:Ec; simpl; [|reflexivity].
    destruct (run_steps_spec i (SHunk <$> hs) st0 d Hd0)
      as (st1 & Hrun1 & _).
    destruct (run_steps_keeps i _ st0 st1 d Hd0 Hrun1) as (d1 & Hd1 & Hn1).
    rewrite (bind_run _ _ _ _ _ Hrun1). unfold ret at 1.
    rewrite (IH h1 st1 d1 Hd1); [|congruence].
    destruct (systems_steps dn rest h1) as [[ss h2]|]; simpl; [|reflexivity].
    rewrite run_steps_app_bind, (bind_run _ _ _ _ _ Hw2).
    rewrite run_steps_app_bind, (bind_run _ _ _ _ _ Hrun1).
    reflexivity.
Qed.

End Exactness.

(** ** [diff_patch] and [diff_apply] in terms of the hunks read *)

Section Apply.

Context `{SP : Space}.

Lemma insert_last (l : list UniDiff_t) (x y : UniDiff_t) :
  <[length l := y]> (l ++ [x]) = l ++ [y].
Proof.
  replace (length l) with (length l + 0)%nat by lia.
  rewrite insert_app_r. reflexivity.
Qed.

Lemma lookup_last (l : list UniDiff_t) (x : UniDiff_t) :
  (l ++ [x]) !! length l = Some x.
Proof. apply list_lookup_middle. reflexivity. Qed.

Lemma diff_newDiff_run (st : State) :
  exists st0,
    diff_newDiff st = Ok (length (stack st), st0) /\
    stack st0 = stack st ++ [UniDiff_zero] /\
    universe st0 = universe st /\
    trace st0 = trace st.
Proof.
  unfold diff_newDiff, stack. destruct (diff_stack st) as [l|];
    eexists; split; try reflexivity; simpl; done.
Qed.

Lemma update_diff_run (i : nat) (f : UniDiff_t -> UniDiff_t) (st : State) d :
  stack st !! i = Some d ->
  update_diff i f st = Ok (tt, set_stack (<[i := f d]> (stack st)) st).
Proof. intros H. unfold update_diff. rewrite H. reflexivity. Qed.

Lemma debug_hunk_run (h : UniHunk_t) (st : State) :
  debug_hunk h st =
  if debug_ok h then Ok (tt, emit (EvDEBUG (Debug_failed_hunk h)) st)
  else Crash.
Proof.
  unfold debug_hunk, debug_ok.
  destruct (type h); try reflexivity;
    destruct (fleet (u_fleet (u h))); reflexivity.
Qed.

(** The DEBUG loop prints every failed hunk when each can be printed, and
    dereferences NULL otherwise. *)
Lemma debug_failed_run (l : list UniHunk_t) (st : State) :
  forallb debug_ok l = true ->
  exists st',
    debug_failed l st = Ok (tt, st') /\
    stack st' = stack st /\
    universe st' = universe st /\
    exists evs, trace st' = trace st ++ evs /\ Forall quiet evs.
Proof.
  revert st. induction l as [|h l IH]; intros st Hok; simpl.
  - exists st. repeat split; try done. exists []. by rewrite app_nil_r.
  - simpl in Hok. apply andb_prop in Hok as [Hh Hl].
    destruct (IH (emit (EvDEBUG (Debug_failed_hunk h)) st) Hl)
      as (st' & Hrun & Hs & Hu & evs & Htr & Hq).
    exists st'. split.
    { unfold bind. rewrite debug_hunk_run, Hh. exact Hrun. }
    split; [exact Hs|]. split; [exact Hu|].
    exists (EvDEBUG (Debug_failed_hunk h) :: evs). split.
    + rewrite Htr. simpl. by rewrite <- app_assoc.
    + by constructor.
Qed.

Lemma debug_failed_stops (l : list UniHunk_t) (st : State) :
  forallb debug_ok l = false -> debug_failed l st = Crash.
Proof.
  revert st. induction l as [|h l IH]; intros st Hok; simpl in *;
    [discriminate|].
  unfold bind. rewrite debug_hunk_run.
  destruct (debug_ok h); [|reflexivity]. by apply IH.
Qed.

(** A definition whose reading dereferences NULL crashes [diff_patch]. *)
Lemma diff_patch_crash (x : xmlNode) (g : UniHunk_t) (st : State) :
  unidiff_steps x g = Crash -> diff_patch x g st = Crash.
Proof.
  intros Hc. unfold diff_patch.
  destruct (diff_newDiff_run st) as (st0 & Hnew & Hs0 & _).
  rewrite (bind_run _ _ _ _ _ Hnew).
  rewrite (bind_run _ _ _ _ _
             (update_diff_run _ _ st0 UniDiff_zero
                ltac:(rewrite Hs0; apply lookup_last))).
  set (st1 := set_stack _ st0).
  assert (Hs1 : stack st1 = stack st ++ [UniDiff_zero]).
  { subst st1. rewrite stack_set_stack, Hs0. apply insert_last. }
  rewrite (bind_run _ _ _ _ _
             (update_diff_run _ _ st1 UniDiff_zero
                ltac:(rewrite Hs1; apply lookup_last))).
  set (st2 := set_stack _ st1).
  assert (Hs2 : stack st2 = stack st ++ [fresh_diff (xmlr_attr x "name")]).
  { subst st2. rewrite stack_set_stack, Hs1. apply insert_last. }
  unfold bind at 1.
  rewrite (outer_exact _ (xmlr_attr x "name") _ g st2
             (fresh_diff (xmlr_attr x "name")));
    [|rewrite Hs2; apply lookup_last|reflexivity].
  unfold unidiff_steps, Res_bind in Hc.
  destruct (systems_steps _ _ g) as [[ss h]|]; [discriminate|reflexivity].
Qed.

(** Otherwise the hunks read are filed, in document order, in one record
    named after the element; what is left of [diff_patch] is its DEBUG
    loop over the failed hunks. *)
Lemma diff_patch_filed (x : xmlNode) (g : UniHunk_t) (st : State) steps
  (P : Res (Z * State) -> Prop) :
  unidiff_steps x g = Ok steps ->
  (forall st3 d,
     d = fst (file_hunks (omap step_hunk steps)
                (fresh_diff (xmlr_attr x "name"), universe st)) ->
     stack st3 = stack st ++ [d] ->
     universe st3 =
       snd (file_hunks (omap step_hunk steps)
              (fresh_diff (xmlr_attr x "name"), universe st)) ->
     (exists evs, trace st3 = trace st ++ evs /\ Forall quiet evs) ->
     P (bind (if 0 <? nfailed d
              then bind (DEBUG (Debug_failed_hunks (name d) (nfailed d)))
                     (fun _ => debug_failed (failed d))
              else ret tt)
          (fun _ => ret 0) st3)) ->
  P (diff_patch x g st).
Proof.
  intros Hsteps HP. unfold diff_patch.
  destruct (diff_newDiff_run st) as (st0 & Hnew & Hs0 & Hu0 & Ht0).
  rewrite (bind_run _ _ _ _ _ Hnew).
  rewrite (bind_run _ _ _ _ _
             (update_diff_run _ _ st0 UniDiff_zero
                ltac:(rewrite Hs0; apply lookup_last))).
  set (st1 := set_stack _ st0).
  assert (Hs1 : stack st1 = stack st ++ [UniDiff_zero]).
  { subst st1. rewrite stack_set_stack, Hs0. apply insert_last. }
  rewrite (bind_run _ _ _ _ _
             (update_diff_run _ _ st1 UniDiff_zero
                ltac:(rewrite Hs1; apply lookup_last))).
  set (st2 := set_stack _ st1).
  set (d0 := fresh_diff (xmlr_attr x "name")) in *.
  assert (Hs2 : stack st2 = stack st ++ [d0]).
  { subst st2. rewrite stack_set_stack, Hs1. apply insert_last. }
  assert (Hd2 : stack st2 !! length (stack st) = Some d0)
    by (rewrite Hs2; apply lookup_last).
  unfold bind at 1.
  rewrite (outer_exact _ (xmlr_attr x "name") _ g st2 d0 Hd2 eq_refl).
  unfold unidiff_steps, Res_bind in Hsteps.
  destruct (systems_steps _ _ g) as [[ss h]|]; [|discriminate].
  injection Hsteps as <-.
  destruct (run_steps_spec _ ss st2 d0 Hd2)
    as (st3 & Hrun & Hs3 & Hu3 & _ & evs & Ht3 & Hq).
  rewrite (bind_run _ _ _ _ _ Hrun). unfold ret at 1.
  assert (Hu2 : universe st2 = universe st) by (subst st2 st1; exact Hu0).
  assert (Ht2 : trace st2 = trace st) by (subst st2 st1; exact Ht0).
  rewrite Hu2 in Hs3, Hu3. rewrite Ht2 in Ht3.
  set (R := file_hunks (omap step_hunk ss) (d0, universe st)) in *.
  assert (Hs3' : stack st3 = stack st ++ [fst R]).
  { rewrite Hs3, Hs2. apply insert_last. }
  assert (Hd3 : stack st3 !! length (stack st) = Some (fst R))
    by (rewrite Hs3'; apply lookup_last).
  unfold read_diff at 1, bind at 1. rewrite Hd3.
  apply (HP st3 (fst R) eq_refl Hs3' Hu3). eauto.
Qed.

(** When every rejected hunk can be printed, [diff_patch] returns 0. *)
Lemma diff_patch_run (x : xmlNode) (g : UniHunk_t) (st : State) steps :
  unidiff_steps x g = Ok steps ->
  forallb debug_ok (rejected (omap step_hunk steps) (universe st)) = true ->
  exists st',
    diff_patch x g st = Ok (0, st') /\
    stack st' =
      stack st ++
      [fst (file_hunks (omap step_hunk steps)
              (fresh_diff (xmlr_attr x "name"), universe st))] /\
    universe st' =
      snd (file_hunks (omap step_hunk steps)
             (fresh_diff (xmlr_attr x "name"), universe st)) /\
    exists evs, trace st' = trace st ++ evs /\ Forall quiet evs.
Proof.
  intros Hsteps Hok. apply (diff_patch_filed x g st steps); [exact Hsteps|].
  intros st3 d -> Hs3 Hu3 (evs & Ht3 & Hq).
  set (R := file_hunks _ _) in *.
  assert (Hf : failed (fst R) =
               rejected (omap step_hunk steps) (universe st)).
  { subst R.
    destruct (file_hunks_spec (omap step_hunk steps)
                (fresh_diff (xmlr_attr x "name")) (universe st))
      as (_ & Hf & _).
    exact Hf. }
  rewrite <- Hf in Hok.
  destruct (0 <? nfailed (fst R)).
  - rewrite bind_assoc. unfold DEBUG at 1, log at 1, bind at 1.
    destruct (debug_failed_run (failed (fst R))
                (emit (EvDEBUG (Debug_failed_hunks (name (fst R))
                                  (nfailed (fst R)))) st3) Hok)
      as (st4 & Hrun4 & Hs4 & Hu4 & evs4 & Ht4 & Hq4).
    rewrite (bind_run _ _ _ _ _ Hrun4). unfold ret.
    exists st4. split; [reflexivity|]. split; [by rewrite Hs4|].
    split; [by rewrite Hu4|].
    exists (evs ++ EvDEBUG (Debug_failed_hunks (name (fst R))
                              (nfailed (fst R))) :: evs4).
    split.
    + rewrite Ht4. simpl. rewrite Ht3. rewrite <- !app_assoc. reflexivity.
    + apply Forall_app. split; [done|]. by constructor.
  - unfold ret, bind. exists st3. split; [reflexivity|].
    split; [exact Hs3|]. split; [exact Hu3|]. eauto.
Qed.

(** When a rejected hunk cannot be printed, the DEBUG loop dereferences
    NULL. *)
Lemma diff_patch_stops (x : xmlNode) (g : UniHunk_t) (st : State) steps :
  unidiff_steps x g = Ok steps ->
  forallb debug_ok (rejected (omap step_hunk steps) (universe st)) = false ->
  diff_patch x g st = Crash.
Proof.
  intros Hsteps Hok. apply (diff_patch_filed x g st steps); [exact Hsteps|].
  intros st3 d -> Hs3 Hu3 _.
  set (R := file_hunks _ _) in *.
  assert (Hf : failed (fst R) =
               rejected (omap step_hunk steps) (universe st)).
  { subst R.
    destruct (file_hunks_spec (omap step_hunk steps)
                (fresh_diff (xmlr_attr x "name")) (universe st))
      as (_ & Hf & _).
    exact Hf. }
  rewrite <- Hf in Hok.
  destruct (0 <? nfailed (fst R)) eqn:Hn.
  - rewrite bind_assoc. unfold DEBUG at 1, log at 1, bind at 1.
    by rewrite (bind_crash _ _ _ (debug_failed_stops (failed (fst R)) _ Hok)).
  - unfold nfailed in Hn. destruct (failed (fst R)); [discriminate|].
    simpl in Hn. apply Z.ltb_ge in Hn. lia.
Qed.

(** A run of [diff_patch] that returns has read the definition and could
    print every rejected hunk. *)
Lemma diff_patch_Ok (x : xmlNode) (g : UniHunk_t) (st st' : State) r :
  diff_patch x g st = Ok (r, st') ->
  exists steps,
    unidiff_steps x g = Ok steps /\
    forallb debug_ok (rejected (omap step_hunk steps) (universe st)) = true /\
    r = 0 /\
    stack st' =
      stack st ++
      [fst (file_hunks (omap step_hunk steps)
              (fresh_diff (xmlr_attr x "name"), universe st))] /\
    universe st' =
      snd (file_hunks (omap step_hunk steps)
             (fresh_diff (xmlr_attr x "name"), universe st)) /\
    exists evs, trace st' = trace st ++ evs /\ Forall quiet evs.
Proof.
  intros Hrun.
  destruct (unidiff_steps x g) as [steps|] eqn:Es.
  2:{ by rewrite (diff_patch_crash x g st Es) in Hrun. }
  destruct (forallb debug_ok
              (rejected (omap step_hunk steps) (universe st))) eqn:Hok.
  2:{ by rewrite (diff_patch_stops x g st steps Es Hok) in Hrun. }
  destruct (diff_patch_run x g st steps Es Hok) as (st1 & Hp & Hrest).
  rewrite Hp in Hrun. injection Hrun as <- <-.
  exists steps. split; [reflexivity|]. split; [exact Hok|].
  split; [reflexivity|]. exact Hrest.
Qed.

Lemma diff_apply_search_exact (node : xmlNodePtr) (n : option string)
  (g : UniHunk_t) (st : State) :
  diff_apply_search node n g st =
  match find_unidiff node n with
  | Ok (Some x) =>
      bind (diff_patch x g)
        (fun _ => bind (log EvFreeDoc)
                    (fun _ => bind (log EvFreeBuf) (fun _ => ret 0))) st
  | Ok None =>
      Ok (-1, emit (EvWARN (Warn_not_found n))
                (emit EvFreeBuf (emit EvFreeDoc st)))
  | Crash => Crash
  end.
Proof.
  induction node as [|x rest IH]; simpl; [reflexivity|].
  destruct (xml_isNode x "unidiff"); [|exact IH].
  unfold bind at 1, lift at 1.
  destruct (strcmp (xmlr_attr x "name") n) as [c|]; simpl; [|reflexivity].
  destruct (c =? 0); [reflexivity|exact IH].
Qed.

Lemma strcmp_eqb (x y : string) :
  exists c, strcmp (Some x) (Some y) = Ok c /\ (c =? 0) = String.eqb x y.
Proof.
  destruct (String.eqb_spec x y) as [->|Hne].
  - exists 0. split; [apply strcmp_same|reflexivity].
  - apply strcmp_diff. exact Hne.
Qed.

(** The five ways [diff_apply] ends without a crash. *)
Lemma diff_apply_exact (data : xmlDocPtr) (n : option string)
  (g : UniHunk_t) (st : State) :
  diff_apply data n g st =
  match diff_get_from (stack st) 0 n with
  | Ok (Some _) => Ok (0, st)
  | Ok None =>
      let st1 := emit EvParseMemory (emit EvReadFile st) in
      match lookup_unidiff data n with
      | Ok MissingRoot => Ok (0, emit (EvERR Err_missing_root) st1)
      | Ok NoElements => Ok (0, emit (EvERR Err_no_elements) st1)
      | Ok NotFound =>
          Ok (-1, emit (EvWARN (Warn_not_found n))
                    (emit EvFreeBuf (emit EvFreeDoc st1)))
      | Ok (Found x) =>
          bind (diff_patch x g)
            (fun _ => bind (log EvFreeDoc)
                        (fun _ => bind (log EvFreeBuf) (fun _ => ret 0))) st1
      | Crash => Crash
      end
  | Crash => Crash
  end.
Proof.
  unfold diff_apply, diff_isApplied, diff_get.
  rewrite bind_assoc. unfold bind at 1, lift at 1.
  destruct (diff_get_from (stack st) 0 n) as [[j|]|]; try reflexivity.
  unfold bind at 1, ret at 1. change (negb (0 =? 0)) with false. cbv iota.
  unfold log at 1, bind at 1. unfold log at 1, bind at 1.
  unfold lookup_unidiff.
  destruct data as [[|root others]|]; try reflexivity.
  destruct (strcmp_eqb (node_name root) "unidiffs") as (c & Hc & Hc0).
  rewrite Hc. unfold lift at 1, bind at 1. rewrite Hc0.
  destruct (String.eqb (node_name root) "unidiffs"); cbv beta iota;
    [|reflexivity].
  change (negb false) with true || change (negb true) with false.
  cbv iota.
  destruct (node_children root) as [|x rest] eqn:Ech; [reflexivity|].
  rewrite diff_apply_search_exact. unfold Res_bind.
  destruct (find_unidiff (x :: rest) n) as [[y|]|]; reflexivity.
Qed.

End Apply.

(** ** Removal *)

Section Removal.

Context `{SP : Space}.

Lemma invert_with_type (h : UniHunk_t) (t : UniHunkType_t) :
  inverted_type (type h) = Some t -> with_type t h = invert h.
Proof.
  unfold with_type, invert. destruct (type h); simpl; intros [= <-];
    reflexivity.
Qed.

Lemma inverted_type_None (h : UniHunk_t) :
  inverted_type (type h) = None <-> ~ hunk_invertible h.
Proof.
  unfold hunk_invertible. destruct (type h); simpl; split; intros H;
    try discriminate; try reflexivity; try tauto; exfalso; apply H; discriminate.
Qed.

(** The loop never crashes and leaves the stack as it is. *)
Lemma diff_removeDiff_loop_total (hs : list UniHunk_t) (st : State) :
  exists st',
    diff_removeDiff_loop hs st = Ok (tt, st') /\
    diff_stack st' = diff_stack st /\
    diff_mstack st' = diff_mstack st.
Proof.
  revert st. induction hs as [|h hs IH]; intros st; simpl.
  - exists st. done.
  - destruct (inverted_type (type h)) as [t|].
    + rewrite (bind_run _ _ _ _ _ (diff_patchHunk_run _ st)).
      destruct (IH (after_patch (with_type t h) st)) as (st' & -> & H1 & H2).
      exists st'. done.
    + unfold WARN, log, bind at 1.
      destruct (IH (emit (EvWARN (Warn_unknown_Hunk_type (type h))) st))
        as (st' & -> & H1 & H2).
      exists st'. done.
Qed.

(** On hunks that were accepted it hands their inverses to space.h, one
    call per hunk, first hunk first. *)
Lemma diff_removeDiff_loop_spec (hs : list UniHunk_t) (st st' : State) :
  Forall hunk_invertible hs ->
  diff_removeDiff_loop hs st = Ok (tt, st') ->
  universe st' = patch_all (invert <$> hs) (universe st) /\
  exists evs,
    trace st' = trace st ++ evs /\
    Forall2 (fun e h => exists r, e = EvSpace (invert h) r) evs hs.
Proof.
  revert st. induction hs as [|h hs IH]; intros st Hinv Hrun; simpl in *.
  - injection Hrun as <-. split; [reflexivity|]. exists [].
    split; [by rewrite app_nil_r|constructor].
  - apply Forall_cons in Hinv as [Hh Hinv].
    destruct (inverted_type (type h)) as [t|] eqn:Et.
    2:{ apply inverted_type_None in Et. contradiction. }
    rewrite (invert_with_type h t Et) in Hrun.
    rewrite (bind_run _ _ _ _ _ (diff_patchHunk_run _ st)) in Hrun.
    destruct (IH _ Hinv Hrun) as (Hu & evs & Htr & Hev).
    split; [exact Hu|].
    exists (patch_event (invert h) (universe st) :: evs). split.
    + rewrite Htr. simpl. by rewrite <- app_assoc.
    + constructor; [|exact Hev].
      unfold patch_event. unfold hunk_invertible in Hh.
      destruct (type h) eqn:Eh; simpl; rewrite ?Eh; simpl; eauto.
      contradiction.
Qed.

Lemma space_calls_Forall2 (evs : list Event) (hs : list UniHunk_t) :
  Forall2 (fun e h => exists r, e = EvSpace (invert h) r) evs hs ->
  space_calls evs = invert <$> hs.
Proof.
  induction 1 as [|e h evs hs [r ->] _ IH]; [reflexivity|].
  unfold space_calls in *. rewrite fmap_cons, <- IH. reflexivity.
Qed.

Lemma delete_insert_same {A : Type} (l : list A) (i : nat) (x : A) :
  delete i (<[i := x]> l) = delete i l.
Proof.
  revert i. induction l as [|y l IH]; intros [|i]; simpl; try reflexivity.
  f_equal. apply IH.
Qed.

Lemma diff_removeDiff_run (i : nat) (st : State) d :
  stack st !! i = Some d ->
  exists st1 st',
    diff_removeDiff_loop (applied d) st = Ok (tt, st1) /\
    diff_removeDiff i st = Ok (0, st') /\
    stack st' = delete i (stack st) /\
    universe st' = universe st1 /\
    trace st' = trace st1.
Proof.
  intros Hd.
  destruct (diff_removeDiff_loop_total (applied d) st) as (st1 & Hl & Hs & _).
  assert (Hd1 : stack st1 !! i = Some d).
  { unfold stack. rewrite Hs. exact Hd. }
  exists st1, (set_stack (delete i (stack st)) st1).
  split; [exact Hl|]. split; [|done].
  unfold diff_removeDiff, read_diff. unfold bind at 1. rewrite Hd.
  rewrite (bind_run _ _ _ _ _ Hl). unfold diff_cleanup.
  rewrite (bind_run _ _ _ _ _ (update_diff_run _ _ st1 d Hd1)).
  unfold stack_remove, bind, ret. rewrite !stack_set_stack.
  rewrite delete_insert_same. unfold stack at 1. rewrite Hs.
  reflexivity.
Qed.

Lemma diff_remove_skip (n : option string) (st : State) :
  diff_get_from (stack st) 0 n = Ok None ->
  diff_remove n st = Ok (tt, st).
Proof.
  intros H. unfold diff_remove, diff_get, bind, lift. rewrite H. reflexivity.
Qed.

Lemma diff_remove_Ok (n : option string) (st st' : State) :
  diff_remove n st = Ok (tt, st') ->
  st' = st \/ exists i, stack st' = delete i (stack st).
Proof.
  unfold diff_remove, diff_get. unfold bind at 1, lift.
  destruct (diff_get_from (stack st) 0 n) as [[j|]|] eqn:Eg; [| |discriminate].
  - apply diff_get_from_Some in Eg as (d & _ & Hd & _).
    rewrite Nat.sub_0_r in Hd.
    destruct (diff_removeDiff_run j st d Hd) as (st1 & st2 & _ & Hr & Hs & _).
    rewrite (bind_run _ _ _ _ _ Hr). unfold ret. intros [= <-]. eauto.
  - unfold ret. intros [= <-]. by left.
Qed.

Lemma diff_clear_loop_run (rounds : nat) (st : State) :
  (length (stack st) <= rounds)%nat ->
  exists st', diff_clear_loop rounds st = Ok (tt, st') /\ stack st' = [].
Proof.
  revert st. induction rounds as [|k IH]; intros st Hle; simpl.
  - exists st. split; [reflexivity|].
    destruct (stack st); [reflexivity|simpl in Hle; lia].
  - unfold diff_nstack. destruct (stack st) as [|d l] eqn:Es.
    + exists st. done.
    + replace (0 <? Z.of_nat (length (d :: l))) with true
        by (symmetry; apply Z.ltb_lt; simpl; lia).
      assert (Hlast : is_Some (stack st !! Nat.pred (length (d :: l)))).
      { apply lookup_lt_is_Some. rewrite Es. simpl. lia. }
      destruct Hlast as [e He].
      destruct (diff_removeDiff_run _ st e He)
        as (st1 & st2 & _ & Hr & Hs & _).
      rewrite (bind_run _ _ _ _ _ Hr).
      apply IH. rewrite Hs, length_delete; [|eauto].
      rewrite Es. simpl in *. lia.
Qed.

(** [diff_clear] ends on its own test: no diff is left. *)
Lemma diff_clear_empties (st : State) :
  exists st', diff_clear st = Ok (tt, st') /\ stack st' = [].
Proof. unfold diff_clear. apply diff_clear_loop_run. lia. Qed.

End Removal.

(** ** The stack invariant *)

Section Invariant.

Context `{SP : Space}.

Lemma find_unidiff_Some (node : xmlNodePtr) (n : option string) x :
  find_unidiff node n = Ok (Some x) ->
  xmlr_attr x "name" = n /\ is_Some n /\ x ∈ node.
Proof.
  induction node as [|y rest IH]; simpl; [discriminate|].
  destruct (xml_isNode y "unidiff").
  - unfold Res_bind. destruct (strcmp (xmlr_attr y "name") n) as [c|] eqn:E;
      [|discriminate].
    destruct (c =? 0) eqn:Ec.
    + intros [= ->]. apply Z.eqb_eq in Ec.
      apply strcmp_Ok in E as (a & b & Ha & Hb & Hc).
      rewrite Ha, Hb. split; [f_equal; tauto|].
      split; [eauto|apply list_elem_of_here].
    + intros H. apply IH in H as (? & ? & ?).
      repeat split; try done. by apply list_elem_of_further.
  - intros H. apply IH in H as (? & ? & ?).
    repeat split; try done. by apply list_elem_of_further.
Qed.

Lemma lookup_unidiff_Found (data : xmlDocPtr) (n : option string) x :
  lookup_unidiff data n = Ok (Found x) ->
  xmlr_attr x "name" = n /\ is_Some n.
Proof.
  unfold lookup_unidiff. destruct data as [[|root others]|]; try discriminate.
  destruct (String.eqb _ _); [|discriminate].
  destruct (node_children root) as [|y rest]; [discriminate|].
  unfold Res_bind.
  destruct (find_unidiff (y :: rest) n) as [[z|]|] eqn:E; try discriminate.
  intros [= ->]. apply find_unidiff_Some in E. tauto.
Qed.

Lemma patch_universe_accepts (h : UniHunk_t) (w : Universe) :
  (fst (patch_universe h w) <? 0) = false -> hunk_invertible h.
Proof.
  unfold patch_universe, hunk_invertible.
  destruct (type h); simpl; try discriminate; intros _; discriminate.
Qed.

Lemma file_hunk_invertible dw h :
  Forall hunk_invertible (applied (fst dw)) ->
  Forall hunk_invertible (applied (fst (file_hunk dw h))).
Proof.
  intros H. unfold file_hunk.
  destruct (patch_universe h (snd dw)) as [r w] eqn:E.
  destruct (r <? 0) eqn:Er; simpl; [exact H|].
  apply Forall_app. split; [exact H|]. constructor; [|constructor].
  apply (patch_universe_accepts h (snd dw)). by rewrite E.
Qed.

Lemma file_hunks_invertible hs dw :
  Forall hunk_invertible (applied (fst dw)) ->
  Forall hunk_invertible (applied (fst (file_hunks hs dw))).
Proof.
  revert dw. induction hs as [|h hs IH]; intros dw H; [exact H|].
  unfold file_hunks in *. simpl. apply IH. by apply file_hunk_invertible.
Qed.

(** A run of [diff_apply] that returns leaves the stack alone or pushes
    the record of the definition it found. *)
Lemma diff_apply_Ok (data : xmlDocPtr) (n : option string) (g : UniHunk_t)
  (st st' : State) (r : Z) :
  diff_apply data n g st = Ok (r, st') ->
  stack st' = stack st \/
  exists x steps,
    diff_get_from (stack st) 0 n = Ok None /\
    lookup_unidiff data n = Ok (Found x) /\
    unidiff_steps x g = Ok steps /\
    r = 0 /\
    stack st' =
      stack st ++
      [fst (file_hunks (omap step_hunk steps) (fresh_diff n, universe st))] /\
    universe st' =
      snd (file_hunks (omap step_hunk steps) (fresh_diff n, universe st)).
Proof.
  rewrite diff_apply_exact.
  destruct (diff_get_from (stack st) 0 n) as [[j|]|] eqn:Eg;
    [| |discriminate].
  { intros [= <- <-]. by left. }
  cbv zeta.
  destruct (lookup_unidiff data n) as [[| | |x]|] eqn:El;
    try discriminate; try (intros [= <- <-]; by left).
  intros H. apply bind_Ok in H as (r' & st1 & H1 & H2).
  unfold log, bind, ret in H2. injection H2 as <- <-.
  apply diff_patch_Ok in H1 as (steps & Es & _ & _ & Hs & Hu & _).
  right. exists x, steps.
  apply lookup_unidiff_Found in El as Hn. destruct Hn as [Hn _].
  rewrite Hn in Hs, Hu. done.
Qed.

Lemma stack_ok_push (st st' : State) d :
  stack_ok st ->
  diff_ok d ->
  name d ∉ name <$> stack st ->
  stack st' = stack st ++ [d] ->
  stack_ok st'.
Proof.
  intros [Hf Hnd] Hd Hnew Hs. unfold stack_ok. rewrite Hs. split.
  - apply Forall_app. split; [exact Hf|]. by constructor.
  - rewrite fmap_app. apply NoDup_app. split; [exact Hnd|]. split.
    + intros y Hy Hin. simpl in Hin. apply list_elem_of_singleton in Hin.
      subst y. contradiction.
    + simpl. apply NoDup_singleton.
Qed.

Lemma stack_ok_delete (st st' : State) (i : nat) :
  stack_ok st -> stack st' = delete i (stack st) -> stack_ok st'.
Proof.
  intros [Hf Hnd] Hs. unfold stack_ok. rewrite Hs. split.
  - by apply Forall_delete.
  - rewrite list_fmap_delete. eapply sublist_NoDup; [exact Hnd|].
    apply sublist_delete.
Qed.

Lemma stack_ok_same (st st' : State) :
  stack_ok st -> stack st' = stack st -> stack_ok st'.
Proof. unfold stack_ok. by intros H ->. Qed.

Lemma diff_apply_stack_ok (data : xmlDocPtr) (n : option string)
  (g : UniHunk_t) (st st' : State) (r : Z) :
  stack_ok st -> diff_apply data n g st = Ok (r, st') -> stack_ok st'.
Proof.
  intros Hok Hrun. apply diff_apply_Ok in Hrun as [Hs|Hpush].
  - by eapply stack_ok_same.
  - destruct Hpush as (x & steps & Hg & Hl & _ & _ & Hs & _).
    eapply stack_ok_push; [exact Hok| | |exact Hs].
    + split.
      * rewrite file_hunks_name. simpl.
        apply lookup_unidiff_Found in Hl. tauto.
      * apply file_hunks_invertible. constructor.
    + rewrite file_hunks_name. simpl. by apply diff_get_from_None in Hg.
Qed.

Lemma xml_each_inv {A : Type} (P : State -> Prop)
  (body : xmlNode -> A -> M A) :
  (forall x a st a' st', P st -> body x a st = Ok (a', st') -> P st') ->
  forall l a st a' st',
    P st -> xml_each body l a st = Ok (a', st') -> P st'.
Proof.
  intros Hbody. induction l as [|x l IH]; intros a st a' st' HP; simpl.
  - unfold ret. by intros [= _ <-].
  - intros H. apply bind_Ok in H as (a1 & st1 & H1 & H2).
    eapply IH; [|exact H2]. eapply Hbody; eauto.
Qed.

Lemma diff_load_stack_ok (data : xmlDocPtr) (parent : xmlNode)
  (g : UniHunk_t) (st st' : State) (r : Z) :
  diff_load data parent g st = Ok (r, st') -> stack_ok st'.
Proof.
  unfold diff_load. intros H.
  apply bind_Ok in H as ([] & st1 & Hc & H).
  apply bind_Ok in H as ([] & st2 & He & H).
  unfold ret in H. injection H as _ <-.
  destruct (diff_clear_empties st) as (st1' & Hc' & Hs1).
  rewrite Hc in Hc'. injection Hc' as <-.
  assert (Hok1 : stack_ok st1).
  { unfold stack_ok. rewrite Hs1. split; constructor. }
  revert He. apply xml_each_inv; [|exact Hok1].
  intros x [] sa [] sb Hsa. unfold diff_load_diffs.
  destruct (xml_isNode x "diffs"); [|unfold ret; by intros [= <-]].
  apply xml_each_inv; [|exact Hsa].
  intros y [] sc [] sd Hsc. unfold diff_load_diff.
  destruct (xml_isNode y "diff"); [|unfold ret; by intros [= <-]].
  intros H. apply bind_Ok in H as (r' & se & Ha & H).
  unfold ret in H. injection H as <-.
  eapply diff_apply_stack_ok; eauto.
Qed.

(** In every reachable state the diffs have distinct non-NULL names and
    hold in [applied] only hunks that have an inverse. *)
Lemma reachable_stack_ok (st : State) : reachable st -> stack_ok st.
Proof.
  induction 1 as [w|st w _ IH|data n g st r st' _ IH Hrun|n st st' _ IH Hrun
                  |st st' _ IH Hrun|data parent g st r st' _ IH Hrun].
  - split; constructor.
  - exact IH.
  - eapply diff_apply_stack_ok; eauto.
  - apply diff_remove_Ok in Hrun as [->|[i Hs]]; [exact IH|].
    eapply stack_ok_delete; eauto.
  - destruct (diff_clear_empties st) as (st1 & Hc & Hs).
    rewrite Hrun in Hc. injection Hc as <-.
    unfold stack_ok. rewrite Hs. split; constructor.
  - eapply diff_load_stack_ok; eauto.
Qed.

End Invariant.

(** ** Idempotence, the error paths and the release of the document *)

Section ErrorPaths.

Context `{SP : Space}.

(** A scan for a name none of the stored names equals ends with NULL. *)
Lemma diff_get_from_absent (l : list UniDiff_t) (i : nat) (s : string) :
  Forall (fun d => is_Some (name d)) l ->
  Some s ∉ name <$> l ->
  diff_get_from l i (Some s) = Ok None.
Proof.
  revert i. induction l as [|d l IH]; intros i Hs Hn; [reflexivity|].
  apply Forall_cons in Hs as [[t Ht] Hs].
  rewrite fmap_cons in Hn. apply not_elem_of_cons in Hn as [Hne Hn].
  simpl. rewrite Ht in *.
  destruct (strcmp_diff t s) as (c & -> & Hc); [congruence|].
  simpl. rewrite Hc. by apply IH.
Qed.

Lemma find_unidiff_absent (node : xmlNodePtr) (n : string) :
  (forall x, x ∈ node -> xml_isNode x "unidiff" = true ->
             exists s, xmlr_attr x "name" = Some s /\ s <> n) ->
  find_unidiff node (Some n) = Ok None.
Proof.
  induction node as [|x rest IH]; intros H; [reflexivity|]. simpl.
  destruct (xml_isNode x "unidiff") eqn:Ex.
  - destruct (H x (list_elem_of_here _ _) Ex) as (s & -> & Hne).
    destruct (strcmp_diff s n Hne) as (c & -> & Hc). simpl. rewrite Hc.
    apply IH. intros y Hy. apply H. by apply list_elem_of_further.
  - apply IH. intros y Hy. apply H. by apply list_elem_of_further.
Qed.

(** On both malformed-document paths [diff_apply] logs an error and
    returns 0 with the document and its buffer still allocated. *)
Lemma diff_apply_malformed (data : xmlDocPtr) (n : option string)
  (g : UniHunk_t) (st : State) root others :
  diff_isApplied n st = Ok (0, st) ->
  data = Some (root :: others) ->
  node_name root <> "unidiffs" \/ node_children root = [] ->
  exists m,
    diff_apply data n g st =
    Ok (0, emit (EvERR m) (emit EvParseMemory (emit EvReadFile st))).
Proof.
  intros Hna -> Hbad. rewrite diff_apply_exact.
  apply diff_isApplied_0 in Hna. rewrite Hna. cbv zeta.
  unfold lookup_unidiff.
  destruct (String.eqb_spec (node_name root) "unidiffs") as [Heq|Hne].
  - destruct Hbad as [Hbad| ->]; [contradiction|]. eauto.
  - eauto.
Qed.

End ErrorPaths.

(** C2: applying a name that is already in the active stack returns 0 and
    leaves the whole state as it was: no second record, the same universe,
    and a trace without a read of the definitions document (the result does
    not depend on [data], which may even be NULL); [diff_isApplied] and
    [diff_nstack], functions of that state, are unchanged. *)
Theorem diff_apply_idempotent `{SP : Space} (data : xmlDocPtr)
  (n : option string) (g : UniHunk_t) (st : State) :
  diff_isApplied n st = Ok (1, st) ->
  diff_apply data n g st = Ok (0, st).
Proof.
  intros H. apply diff_isApplied_1 in H as [j Hj].
  rewrite diff_apply_exact, Hj. reflexivity.
Qed.

Lemma diff_apply_idempotent_witness :
  diff_isApplied (Some "D") Examples.st_D = Ok (1, Examples.st_D) /\
  diff_apply None (Some "D") UniHunk_zero Examples.st_D
  = Ok (0, Examples.st_D).
Proof.
  split; [reflexivity|].
  apply (diff_apply_idempotent None (Some "D") UniHunk_zero Examples.st_D).
  reflexivity.
Defined.

(** C3: on a document whose root is not "unidiffs", or whose root has no
    children, [diff_apply] leaves the stack unchanged but returns 0, the
    value it returns on success, not a failure value. *)
Theorem diff_apply_malformed_returns_0 `{SP : Space} (data : xmlDocPtr)
  (n : option string) (g : UniHunk_t) (st : State) root others :
  diff_isApplied n st = Ok (0, st) ->
  data = Some (root :: others) ->
  node_name root <> "unidiffs" \/ node_children root = [] ->
  exists st',
    diff_apply data n g st = Ok (0, st') /\
    diff_stack st' = diff_stack st /\
    diff_nstack st' = diff_nstack st.
Proof.
  intros Hna Hd Hbad.
  destruct (diff_apply_malformed data n g st root others Hna Hd Hbad)
    as [m Hrun].
  eexists. split; [exact Hrun|]. split; reflexivity.
Qed.

Lemma diff_apply_malformed_returns_0_witness :
  exists st',
    diff_apply Examples.malformed_xml (Some "D") UniHunk_zero Examples.st0
    = Ok (0, st') /\
    diff_stack st' = diff_stack Examples.st0 /\
    diff_nstack st' = diff_nstack Examples.st0.
Proof.
  eapply (diff_apply_malformed_returns_0 Examples.malformed_xml (Some "D")
            UniHunk_zero Examples.st0).
  - reflexivity.
  - reflexivity.
  - left. discriminate.
Defined.

(** C7, as amended: a name that is not active and that no "unidiff"
    element of a well-formed definitions document carries makes
    [diff_apply] return -1 after a warning; the stack and the universe are
    unchanged, and the document and its buffer are released.  (A name
    that is active is answered with 0 before the document is read.) *)
Theorem diff_apply_not_found `{SP : Space} (data : xmlDocPtr) (n : string)
  (g : UniHunk_t) (st : State) root others :
  diff_isApplied (Some n) st = Ok (0, st) ->
  data = Some (root :: others) ->
  node_name root = "unidiffs" ->
  node_children root <> [] ->
  (forall x, x ∈ node_children root -> xml_isNode x "unidiff" = true ->
             exists s, xmlr_attr x "name" = Some s /\ s <> n) ->
  exists st',
    diff_apply data (Some n) g st = Ok (-1, st') /\
    diff_stack st' = diff_stack st /\
    diff_nstack st' = diff_nstack st /\
    universe st' = universe st /\
    trace st' =
      trace st ++
      [EvReadFile; EvParseMemory; EvFreeDoc; EvFreeBuf;
       EvWARN (Warn_not_found (Some n))].
Proof.
  intros Hna -> Hroot Hch Hnone. rewrite diff_apply_exact.
  apply diff_isApplied_0 in Hna. rewrite Hna. cbv zeta.
  unfold lookup_unidiff. rewrite Hroot. simpl String.eqb. cbv iota.
  destruct (node_children root) as [|x rest] eqn:Ech; [contradiction|].
  rewrite (find_unidiff_absent (x :: rest) n Hnone). simpl.
  eexists. split; [reflexivity|]. repeat split.
  simpl. rewrite <- !app_assoc. reflexivity.
Qed.

Lemma diff_apply_not_found_witness :
  exists st',
    diff_apply Examples.unidiff_xml (Some "does-not-exist") UniHunk_zero
      Examples.st_D = Ok (-1, st') /\
    diff_stack st' = diff_stack Examples.st_D /\
    diff_nstack st' = diff_nstack Examples.st_D /\
    universe st' = universe Examples.st_D /\
    trace st' =
      trace Examples.st_D ++
      [EvReadFile; EvParseMemory; EvFreeDoc; EvFreeBuf;
       EvWARN (Warn_not_found (Some "does-not-exist"))].
Proof.
  eapply (diff_apply_not_found Examples.unidiff_xml "does-not-exist"
            UniHunk_zero Examples.st_D).
  - reflexivity.
  - reflexivity.
  - reflexivity.
  - discriminate.
  - refine (proj1 (Forall_forall
                     (fun x => xml_isNode x "unidiff" = true ->
                               exists s, xmlr_attr x "name" = Some s /\
                                         s <> "does-not-exist") _) _).
    repeat constructor; intros _; eexists; (split; [reflexivity|discriminate]).
Defined.

(** C7 as stated fails: the name "D" is carried by no "unidiff" element
    of the document that defines "I" only, but it is active in the state
    reached by applying "D"; [diff_apply] on it returns 0 at its first
    test, with the state, and so the trace, as they were: no failure value
    and no warning. *)
Lemma diff_apply_absent_but_active :
  lookup_unidiff Examples.add_Q_xml (Some "D") = Ok NotFound /\
  diff_isApplied (Some "D") Examples.st_D = Ok (1, Examples.st_D) /\
  diff_apply Examples.add_Q_xml (Some "D") UniHunk_zero Examples.st_D
  = Ok (0, Examples.st_D) /\
  ~ (exists r st',
       diff_apply Examples.add_Q_xml (Some "D") UniHunk_zero Examples.st_D
       = Ok (r, st') /\
       r <> 0).
Proof.
  split; [reflexivity|]. split; [reflexivity|]. split; [reflexivity|].
  intros (r & st' & Hrun & Hr).
  assert (H0 : diff_apply Examples.add_Q_xml (Some "D") UniHunk_zero
                 Examples.st_D = Ok (0, Examples.st_D)) by reflexivity.
  rewrite H0 in Hrun. injection Hrun as <- _. by apply Hr.
Qed.

(** C8: on the malformed-document paths [diff_apply] returns with the
    parsed document and its buffer still allocated: the trace gains one
    allocation of each and no release. *)
Theorem diff_apply_malformed_leaks `{SP : Space} (data : xmlDocPtr)
  (n : option string) (g : UniHunk_t) (st : State) root others :
  diff_isApplied n st = Ok (0, st) ->
  data = Some (root :: others) ->
  node_name root <> "unidiffs" \/ node_children root = [] ->
  exists st' evs,
    diff_apply data n g st = Ok (0, st') /\
    trace st' = trace st ++ evs /\
    live_docs evs = 1 /\ live_bufs evs = 1.
Proof.
  intros Hna Hd Hbad.
  destruct (diff_apply_malformed data n g st root others Hna Hd Hbad)
    as [m Hrun].
  eexists. exists [EvReadFile; EvParseMemory; EvERR m].
  split; [exact Hrun|]. split.
  - simpl. rewrite <- !app_assoc. reflexivity.
  - split; reflexivity.
Qed.

Lemma diff_apply_malformed_leaks_witness :
  exists st' evs,
    diff_apply Examples.empty_xml (Some "D") UniHunk_zero Examples.st0
    = Ok (0, st') /\
    trace st' = trace Examples.st0 ++ evs /\
    live_docs evs = 1 /\ live_bufs evs = 1.
Proof.
  eapply (diff_apply_malformed_leaks Examples.empty_xml (Some "D")
            UniHunk_zero Examples.st0).
  - reflexivity.
  - reflexivity.
  - right. reflexivity.
Defined.

(** ** What the parse stores in a hunk *)

Section Parse.

Context `{SP : Space}.

Lemma read_type_other (add remove : UniHunkType_t) (t : string)
  (h : UniHunk_t) :
  t <> "add" -> t <> "remove" -> read_type add remove (Some t) h = Ok h.
Proof.
  intros Ha Hr. unfold read_type.
  destruct (strcmp_diff t "add" Ha) as (c & -> & Hc).
  cbn [Res_bind]. rewrite Hc.
  destruct (strcmp_diff t "remove" Hr) as (c' & -> & Hc').
  cbn [Res_bind]. by rewrite Hc'.
Qed.

Lemma read_type_payload (add remove : UniHunkType_t) (buf : option string)
  (h h' : UniHunk_t) :
  read_type add remove buf h = Ok h' -> u h' = u h /\ target h' = target h.
Proof.
  unfold read_type, Res_bind.
  destruct (strcmp buf (Some "add")) as [c|]; [|discriminate].
  destruct (c =? 0); [by intros [= <-]|].
  destruct (strcmp buf (Some "remove")) as [c'|]; [|discriminate].
  destruct (c' =? 0); by intros [= <-].
Qed.

End Parse.

(** C9, as amended: the spawn chance of a fleet hunk is the [int] that
    [atoi] yields for the "chance" attribute of its element, any value of
    an [int]; nothing confines it to 0..100. *)
Theorem fleet_hunk_chance `{SP : Space} (cur : xmlNode)
  (base hunk h : UniHunk_t) :
  fleet_hunk cur base hunk = Ok h ->
  exists s,
    xmlr_attr cur "chance" = Some s /\
    chance (u_fleet (u h)) = atoi_str s /\
    INT_MIN <= chance (u_fleet (u h)) <= INT_MAX.
Proof.
  unfold fleet_hunk, Res_bind.
  destruct (strdup (target_name (target base))) as [tn|]; [|discriminate].
  destruct (xmlr_attr cur "chance") as [s|]; simpl; [|discriminate].
  intros H. apply read_type_payload in H as [Hu _].
  exists s. split; [reflexivity|]. rewrite Hu. simpl.
  split; [reflexivity|apply atoi_str_range].
Qed.

Lemma fleet_hunk_chance_witness :
  exists s,
    xmlr_attr Examples.fleet_element "chance" = Some s /\
    chance (u_fleet (u Examples.hunk_F)) = atoi_str s /\
    INT_MIN <= chance (u_fleet (u Examples.hunk_F)) <= INT_MAX.
Proof.
  apply (fleet_hunk_chance (SP:=Examples.sp) Examples.fleet_element
           (system_base (Examples.elem "system" [("name", "S")] []))
           UniHunk_zero Examples.hunk_F).
  reflexivity.
Defined.

(** C9 as stated fails: the definition "F" of the example document gives
    its fleet a chance of 150, and the hunk filed in [applied] carries
    it. *)
Lemma fleet_chance_out_of_range :
  exists st',
    diff_apply Examples.unidiff_xml (Some "F") UniHunk_zero Examples.st0
    = Ok (0, st') /\
    stack st' = [Examples.diff_F] /\
    applied Examples.diff_F = [Examples.hunk_F] /\
    type Examples.hunk_F = HUNK_TYPE_FLEET_ADD /\
    ~ (0 <= chance (u_fleet (u Examples.hunk_F)) <= 100).
Proof.
  eexists. split; [reflexivity|].
  split; [reflexivity|]. split; [reflexivity|]. split; [reflexivity|].
  unfold Examples.hunk_F, u_fleet, chance, u, u_chance. lia.
Qed.

(** What [atoi] yields at the edges: [strtol] stops at the first
    character that is no digit and saturates at the bounds of [long], and
    the cast keeps the low 32 bits. *)
Example atoi_edges :
  atoi_str " +42abc" = 42 /\
  atoi_str "-7" = -7 /\
  atoi_str "none" = 0 /\
  atoi_str "4294967297" = 1 /\
  atoi_str "9223372036854775808" = -1 /\
  atoi_str "-9223372036854775809" = 0.
Proof. repeat split; reflexivity. Qed.

(** C10: a "planet" or "fleet" element whose text is neither "add" nor
    "remove" is still handed to [diff_patchHunk] and filed in the diff,
    in [applied] or in [failed] by the result, and the hunk filed has the
    type the local [hunk] had before the element: the one of the previous
    hunk, or of the indeterminate initial value. *)
Theorem stale_type_kept `{SP : Space} (i : nat) (base : UniHunk_t)
  (cur : xmlNode) (hunk : UniHunk_t) (st : State) (d : UniDiff_t)
  (s t : string) :
  stack st !! i = Some d ->
  xml_isNode cur "planet" = true \/
  (xml_isNode cur "fleet" = true /\ is_Some (xmlr_attr cur "chance")) ->
  target_name (target base) = Some s ->
  xml_get cur = Some t ->
  t <> "add" ->
  t <> "remove" ->
  exists h st' d',
    diff_patch_change (Some i) base cur hunk st = Ok (h, st') /\
    type h = type hunk /\
    universe st' = snd (patch_universe h (universe st)) /\
    stack st' !! i = Some d' /\
    (if fst (patch_universe h (universe st)) <? 0
     then failed d' = failed d ++ [h] /\ applied d' = applied d
     else applied d' = applied d ++ [h] /\ failed d' = failed d).
Proof.
  intros Hd Hnode Hbase Hget Ha Hr.
  rewrite (diff_patch_change_run i base cur hunk st d Hd).
  assert (Hh : exists h, change_hunk base cur hunk = Ok (Some h) /\
                         type h = type hunk).
  { unfold change_hunk.
    destruct (xml_isNode cur "planet") eqn:Ep.
    - unfold planet_hunk. rewrite Hbase, Hget. simpl.
      rewrite read_type_other by done. simpl. eauto.
    - destruct Hnode as [?|[-> [c Hc]]]; [discriminate|].
      unfold fleet_hunk. rewrite Hbase, Hget, Hc. simpl.
      rewrite read_type_other by done. simpl. eauto. }
  destruct Hh as (h & -> & Hty).
  eexists h, _, _. split; [reflexivity|]. split; [exact Hty|].
  split; [reflexivity|]. split.
  { rewrite stack_set_stack. apply list_lookup_insert_eq.
    eapply lookup_lt_Some, Hd. }
  unfold file_hunk. simpl.
  destruct (patch_universe h (universe st)) as [r w]. simpl.
  destruct (r <? 0); done.
Qed.

Lemma stale_type_kept_witness :
  exists h st' d',
    diff_patch_change (Some 0%nat)
      (system_base (Examples.elem "system" [("name", "S")] []))
      Examples.toggle_element (Examples.hunk_A HUNK_TYPE_PLANET_REMOVE)
      Examples.st_D = Ok (h, st') /\
    type h = type (Examples.hunk_A HUNK_TYPE_PLANET_REMOVE) /\
    universe st' = snd (patch_universe h (universe Examples.st_D)) /\
    stack st' !! 0%nat = Some d' /\
    (if fst (patch_universe h (universe Examples.st_D)) <? 0
     then failed d' = failed Examples.diff_D ++ [h] /\
          applied d' = applied Examples.diff_D
     else applied d' = applied Examples.diff_D ++ [h] /\
          failed d' = failed Examples.diff_D).
Proof.
  apply (stale_type_kept 0
           (system_base (Examples.elem "system" [("name", "S")] []))
           Examples.toggle_element (Examples.hunk_A HUNK_TYPE_PLANET_REMOVE)
           Examples.st_D Examples.diff_D "S" "toggle").
  - reflexivity.
  - left. reflexivity.
  - reflexivity.
  - reflexivity.
  - discriminate.
  - discriminate.
Defined.

(** With the local [hunk] of [diff_patch] holding, before its first
    assignment, a value of type planet-remove, the only element of
    definition "G" (text "toggle") is filed with that type. *)
Example garbage_type_filed :
  exists st' d h,
    diff_apply Examples.unidiff_xml (Some "G")
      (with_type HUNK_TYPE_PLANET_REMOVE UniHunk_zero) Examples.st0
    = Ok (0, st') /\
    stack st' = [d] /\
    applied d = [] /\
    failed d = [h] /\
    type h = HUNK_TYPE_PLANET_REMOVE /\
    u_slot (u h) = UString "C".
Proof.
  eexists _, _, _. split; [reflexivity|]. repeat split.
Qed.

(** With a value of type fleet-remove there, the hunk is rejected with
    that type and the planet name in its union, and the DEBUG line of the
    failed hunk reads the name as a fleet definition. *)
Example garbage_fleet_type_crashes :
  diff_apply Examples.unidiff_xml (Some "G")
    (with_type HUNK_TYPE_FLEET_REMOVE UniHunk_zero) Examples.st0
  = Crash.
Proof. reflexivity. Qed.

(** ** Applying a definition and removing the diff *)

Section ApplyRemove.

Context `{SP : Space}.

Lemma unidiff_hunks_steps (x : xmlNode) (g : UniHunk_t) hs :
  unidiff_hunks x g = Ok hs ->
  exists steps, unidiff_steps x g = Ok steps /\ hs = omap step_hunk steps.
Proof.
  unfold unidiff_hunks, Res_bind.
  destruct (unidiff_steps x g) as [steps|]; [|discriminate].
  intros [= <-]. eauto.
Qed.

Lemma diff_get_from_last (l : list UniDiff_t) (i : nat) (n : option string) d :
  diff_get_from l i n = Ok None ->
  name d = n ->
  is_Some n ->
  diff_get_from (l ++ [d]) i n = Ok (Some (i + length l)%nat).
Proof.
  revert i. induction l as [|e l IH]; intros i Hg Hn [s Hs]; simpl in *.
  - rewrite Hn, Hs, strcmp_same. simpl. do 2 f_equal. lia.
  - unfold Res_bind in *.
    destruct (strcmp (name e) n) as [c|]; [|discriminate].
    destruct (c =? 0); [discriminate|].
    rewrite (IH (S i)); eauto. do 2 f_equal. lia.
Qed.

(** The outcome of [diff_apply] on a name that is not active and whose
    definition reads as the hunks [hs]. *)
Lemma diff_apply_found (data : xmlDocPtr) (n : option string)
  (g : UniHunk_t) (st : State) x hs :
  diff_isApplied n st = Ok (0, st) ->
  lookup_unidiff data n = Ok (Found x) ->
  unidiff_hunks x g = Ok hs ->
  forallb debug_ok (rejected hs (universe st)) = true ->
  exists st' d,
    diff_apply data n g st = Ok (0, st') /\
    stack st' = stack st ++ [d] /\
    name d = n /\
    applied d = accepted hs (universe st) /\
    failed d = rejected hs (universe st) /\
    universe st' = patch_all hs (universe st) /\
    diff_get_from (stack st') 0 n = Ok (Some (length (stack st))).
Proof.
  intros Hna Hl Hhs Hlog.
  apply unidiff_hunks_steps in Hhs as (steps & Hsteps & ->).
  apply diff_isApplied_0 in Hna.
  apply lookup_unidiff_Found in Hl as Hn. destruct Hn as [Hn Hsome].
  rewrite diff_apply_exact, Hna, Hl. cbv zeta.
  destruct (diff_patch_run x g (emit EvParseMemory (emit EvReadFile st))
              steps Hsteps Hlog) as (st1 & Hp & Hs & Hu & _).
  rewrite (bind_run _ _ _ _ _ Hp). unfold log, bind, ret.
  simpl in Hs, Hu. rewrite Hn in Hs, Hu.
  destruct (file_hunks_spec (omap step_hunk steps) (fresh_diff n)
              (universe st)) as (Ha & Hf & Hw).
  exists (emit EvFreeBuf (emit EvFreeDoc st1)),
    (fst (file_hunks (omap step_hunk steps) (fresh_diff n, universe st))).
  change (stack (emit EvFreeBuf (emit EvFreeDoc st1))) with (stack st1).
  change (universe (emit EvFreeBuf (emit EvFreeDoc st1)))
    with (universe st1).
  split; [reflexivity|].
  split; [exact Hs|]. split; [by rewrite file_hunks_name|].
  split; [exact Ha|]. split; [exact Hf|]. split; [by rewrite Hu|].
  rewrite Hs. apply (diff_get_from_last _ 0); [exact Hna| |exact Hsome].
  by rewrite file_hunks_name.
Qed.

Lemma rejected_debug_ok (hs : list UniHunk_t) (w : Universe) :
  forallb debug_ok hs = true -> forallb debug_ok (rejected hs w) = true.
Proof.
  revert w. induction hs as [|h hs IH]; intros w Hall; [reflexivity|].
  simpl in Hall. apply andb_prop in Hall as [Hh Hrest]. cbn [rejected].
  destruct (fst (patch_universe h w) <? 0); [|by apply IH].
  cbn [forallb]. rewrite Hh. by apply IH.
Qed.

(** On a definition one of whose rejected hunks cannot be printed,
    [diff_apply] does not return. *)
Lemma diff_apply_found_stops (data : xmlDocPtr) (n : option string)
  (g : UniHunk_t) (st : State) x hs :
  diff_isApplied n st = Ok (0, st) ->
  lookup_unidiff data n = Ok (Found x) ->
  unidiff_hunks x g = Ok hs ->
  forallb debug_ok (rejected hs (universe st)) = false ->
  diff_apply data n g st = Crash.
Proof.
  intros Hna Hl Hhs Hlog.
  apply unidiff_hunks_steps in Hhs as (steps & Hsteps & ->).
  apply diff_isApplied_0 in Hna.
  rewrite diff_apply_exact, Hna, Hl. cbv zeta.
  apply bind_crash.
  exact (diff_patch_stops x g (emit EvParseMemory (emit EvReadFile st))
           steps Hsteps Hlog).
Qed.

Lemma accepted_invertible (hs : list UniHunk_t) (w : Universe) :
  Forall hunk_invertible (accepted hs w).
Proof.
  revert w. induction hs as [|h hs IH]; intros w; simpl; [constructor|].
  destruct (fst (patch_universe h w) <? 0) eqn:E; [apply IH|].
  constructor; [|apply IH]. by apply (patch_universe_accepts h w).
Qed.

(** The outcome of [diff_remove] on the name of a diff whose applied
    hunks all have an inverse. *)
Lemma diff_remove_run (n : option string) (st : State) (i : nat) d :
  diff_get_from (stack st) 0 n = Ok (Some i) ->
  stack st !! i = Some d ->
  Forall hunk_invertible (applied d) ->
  exists st' evs,
    diff_remove n st = Ok (tt, st') /\
    stack st' = delete i (stack st) /\
    universe st' = patch_all (invert <$> applied d) (universe st) /\
    trace st' = trace st ++ evs /\
    Forall2 (fun e h => exists r, e = EvSpace (invert h) r) evs (applied d).
Proof.
  intros Hg Hd Hinv.
  destruct (diff_removeDiff_run i st d Hd)
    as (st1 & st' & Hloop & Hrun & Hs & Hu & Htr).
  destruct (diff_removeDiff_loop_spec _ _ _ Hinv Hloop)
    as (Hu1 & evs & Htr1 & Hev).
  exists st', evs. split.
  { unfold diff_remove, diff_get. unfold bind at 1, lift. rewrite Hg.
    rewrite (bind_run _ _ _ _ _ Hrun). reflexivity. }
  split; [exact Hs|]. split; [by rewrite Hu|].
  split; [by rewrite Htr|exact Hev].
Qed.

End ApplyRemove.

(** C5: removing an active diff hands to space.h the inverses of the
    hunks of its [applied] sequence, one call per hunk, index 0 first;
    [invert] swaps add and remove and keeps target and payload.  The
    universe left is the one these calls produce in that order. *)
Theorem diff_remove_replays `{SP : Space} (st : State) (i : nat)
  (d : UniDiff_t) :
  reachable st ->
  stack st !! i = Some d ->
  exists st' evs,
    diff_remove (name d) st = Ok (tt, st') /\
    trace st' = trace st ++ evs /\
    Forall2 (fun e h => exists r, e = EvSpace (invert h) r) evs (applied d) /\
    space_calls evs = invert <$> applied d /\
    universe st' = patch_all (invert <$> applied d) (universe st) /\
    stack st' = delete i (stack st).
Proof.
  intros Hreach Hd.
  apply reachable_stack_ok in Hreach as [Hok Hnd].
  assert (Hg : diff_get_from (stack st) 0 (name d) = Ok (Some i)).
  { apply (diff_get_from_lookup _ 0 i d); [|exact Hnd|exact Hd].
    eapply Forall_impl; [exact Hok|]. by intros e [He _]. }
  assert (Hinv : Forall hunk_invertible (applied d)).
  { eapply Forall_lookup_1 in Hok; [|exact Hd]. by destruct Hok. }
  destruct (diff_remove_run (name d) st i d Hg Hd Hinv)
    as (st' & evs & Hrun & Hs & Hu & Htr & Hev).
  exists st', evs. split; [exact Hrun|]. split; [exact Htr|].
  split; [exact Hev|]. split; [by apply space_calls_Forall2|]. done.
Qed.

Lemma diff_remove_replays_witness :
  exists st' evs,
    diff_remove (Some "D") Examples.st_D = Ok (tt, st') /\
    trace st' = trace Examples.st_D ++ evs /\
    Forall2 (fun e h => exists r, e = EvSpace (invert h) r) evs
      [Examples.hunk_A HUNK_TYPE_PLANET_ADD;
       Examples.hunk_A HUNK_TYPE_PLANET_REMOVE] /\
    space_calls evs =
      [invert (Examples.hunk_A HUNK_TYPE_PLANET_ADD);
       invert (Examples.hunk_A HUNK_TYPE_PLANET_REMOVE)] /\
    universe st' =
      patch_all
        [invert (Examples.hunk_A HUNK_TYPE_PLANET_ADD);
         invert (Examples.hunk_A HUNK_TYPE_PLANET_REMOVE)]
        (universe Examples.st_D) /\
    stack st' = [].
Proof.
  apply (diff_remove_replays Examples.st_D 0
           {| name := Some "D";
              applied := [Examples.hunk_A HUNK_TYPE_PLANET_ADD;
                          Examples.hunk_A HUNK_TYPE_PLANET_REMOVE];
              mapplied := 32; failed := []; mfailed := 0 |}).
  - apply (reach_apply Examples.unidiff_xml (Some "D") UniHunk_zero
             Examples.st0 0 Examples.st_D).
    + apply reach_initial.
    + reflexivity.
  - reflexivity.
Defined.

(** C4: a definition some of whose hunks space.h rejects is applied with
    overall result 0 when the DEBUG line of every rejected hunk can be
    printed: the record pushed holds in [applied] the hunks that were
    accepted and in [failed] those that were rejected, each in document
    order, and a later [diff_remove] hands to space.h the inverses of the
    hunks in [applied] and nothing else.  When a rejected hunk has a fleet
    type and holds no fleet definition ([fleet_get] returned NULL, or a
    planet name lies there under a stale type), [diff_apply] does not
    return: the DEBUG loop over the failed hunks dereferences the
    pointer. *)
Theorem diff_apply_partial_failure `{SP : Space} (data : xmlDocPtr)
  (n : option string) (g : UniHunk_t) (st : State) (x : xmlNode)
  (hs : list UniHunk_t) :
  diff_isApplied n st = Ok (0, st) ->
  lookup_unidiff data n = Ok (Found x) ->
  unidiff_hunks x g = Ok hs ->
  if forallb debug_ok (rejected hs (universe st)) then
    exists st' d,
      diff_apply data n g st = Ok (0, st') /\
      stack st' = stack st ++ [d] /\
      name d = n /\
      applied d = accepted hs (universe st) /\
      failed d = rejected hs (universe st) /\
      exists st'' evs,
        diff_remove n st' = Ok (tt, st'') /\
        trace st'' = trace st' ++ evs /\
        space_calls evs = invert <$> applied d /\
        length evs = length (applied d) /\
        stack st'' = stack st
  else diff_apply data n g st = Crash.
Proof.
  intros Hna Hl Hhs.
  destruct (forallb debug_ok (rejected hs (universe st))) eqn:Hlog.
  2:{ by apply (diff_apply_found_stops data n g st x hs). }
  destruct (diff_apply_found data n g st x hs Hna Hl Hhs Hlog)
    as (st' & d & Hrun & Hs & Hn & Ha & Hf & Hu & Hg).
  exists st', d. split; [exact Hrun|]. split; [exact Hs|].
  split; [exact Hn|]. split; [exact Ha|]. split; [exact Hf|].
  assert (Hd : stack st' !! length (stack st) = Some d).
  { rewrite Hs. apply lookup_last. }
  assert (Hinv : Forall hunk_invertible (applied d)).
  { rewrite Ha. apply accepted_invertible. }
  destruct (diff_remove_run n st' _ d Hg Hd Hinv)
    as (st'' & evs & Hrm & Hs' & _ & Htr & Hev).
  exists st'', evs. split; [exact Hrm|]. split; [exact Htr|].
  split; [by apply space_calls_Forall2|].
  split; [by eapply Forall2_length|].
  rewrite Hs', Hs, delete_middle. by rewrite app_nil_r.
Qed.

Lemma diff_apply_partial_failure_witness :
  if forallb debug_ok
       (rejected (SP:=Examples.sp) Examples2.hunks_J
          (universe Examples.st0))
  then
    exists st' d,
      diff_apply Examples2.ghost_xml (Some "J") UniHunk_zero Examples.st0
      = Ok (0, st') /\
      stack st' = stack Examples.st0 ++ [d] /\
      name d = Some "J" /\
      applied d = accepted Examples2.hunks_J (universe Examples.st0) /\
      failed d = rejected Examples2.hunks_J (universe Examples.st0) /\
      exists st'' evs,
        diff_remove (Some "J") st' = Ok (tt, st'') /\
        trace st'' = trace st' ++ evs /\
        space_calls evs = invert <$> applied d /\
        length evs = length (applied d) /\
        stack st'' = stack Examples.st0
  else
    diff_apply Examples2.ghost_xml (Some "J") UniHunk_zero Examples.st0
    = Crash.
Proof.
  apply (diff_apply_partial_failure Examples2.ghost_xml (Some "J")
           UniHunk_zero Examples.st0 Examples2.unidiff_J Examples2.hunks_J).
  - reflexivity.
  - reflexivity.
  - reflexivity.
Defined.

(** Definition "J" has one accepted hunk and one rejected hunk, a fleet
    that is not defined on a system that does not exist; applying it runs
    into the DEBUG line of the failed hunk. *)
Example partial_failure_crash :
  accepted (SP:=Examples.sp) Examples2.hunks_J Examples.w0
  = [Examples2.hunk_P] /\
  rejected (SP:=Examples.sp) Examples2.hunks_J Examples.w0
  = [Examples2.hunk_Ghost] /\
  diff_apply Examples2.ghost_xml (Some "J") UniHunk_zero Examples.st0
  = Crash.
Proof. repeat split; reflexivity. Qed.

(** Definition "E" has one rejected and one accepted hunk, both planets:
    it is applied with result 0 and the two hunks are filed apart. *)
Example partial_failure_filed :
  exists st' d,
    diff_apply Examples.unidiff_xml (Some "E") UniHunk_zero Examples.st0
    = Ok (0, st') /\
    stack st' = [d] /\
    applied d = [Examples.hunk_B "S"] /\
    failed d = [Examples.hunk_B "Nowhere"].
Proof. eexists _, _. split; [reflexivity|]. repeat split. Qed.

(** Of the hunks of definition "E" the one on the system "Nowhere" is
    rejected and the one on "S" accepted. *)
Example hunks_E_split :
  accepted (SP:=Examples.sp) Examples.hunks_E Examples.w0
  = [Examples.hunk_B "S"] /\
  rejected (SP:=Examples.sp) Examples.hunks_E Examples.w0
  = [Examples.hunk_B "Nowhere"].
Proof. split; reflexivity. Qed.

(** ** Saving and loading *)

Section SaveLoad.

Context `{SP : Space}.

Lemma xml_each_app {A : Type} (body : xmlNode -> A -> M A)
  (l1 l2 : xmlNodePtr) (a : A) (st : State) :
  xml_each body (l1 ++ l2) a st =
  bind (xml_each body l1 a) (fun a' => xml_each body l2 a') st.
Proof.
  revert a st. induction l1 as [|x l1 IH]; intros a st; simpl.
  - reflexivity.
  - rewrite bind_assoc. apply bind_ext. intros a' st1. apply IH.
Qed.

Lemma diff_load_diffs_other (data : xmlDocPtr) (g : UniHunk_t)
  (writer : list xmlNode) (st : State) :
  Forall (fun x => xml_isNode x "diffs" = false) writer ->
  xml_each (diff_load_diffs data g) writer tt st = Ok (tt, st).
Proof.
  induction 1 as [|x l Hx _ IH]; simpl; [reflexivity|].
  unfold diff_load_diffs at 1. rewrite Hx. unfold bind, ret. exact IH.
Qed.

Lemma names_some (l : list UniDiff_t) :
  Forall (fun d => is_Some (name d)) l <-> Forall is_Some (name <$> l).
Proof. symmetry. apply (Forall_fmap name is_Some l). Qed.

(** One [diff_apply] of the load, on a name that is not active. *)
Lemma diff_apply_load (data : xmlDocPtr) (g : UniHunk_t) (s : string)
  (st : State) :
  Forall (fun d => is_Some (name d)) (stack st) ->
  Some s ∉ name <$> stack st ->
  applies data g (Some s) = true \/ skips data (Some s) = true ->
  exists r st',
    diff_apply data (Some s) g st = Ok (r, st') /\
    name <$> stack st' =
      (name <$> stack st) ++
      (if applies data g (Some s) then [Some s] else []).
Proof.
  intros Hsome Hnew Hcase.
  pose proof (diff_get_from_absent _ 0 s Hsome Hnew) as Hg.
  unfold applies, skips in *.
  destruct (lookup_unidiff data (Some s)) as [[| | |x]|] eqn:El.
  1-3: rewrite diff_apply_exact, Hg, El; cbv zeta; eexists _, _;
    split; [reflexivity|]; by rewrite app_nil_r.
  - destruct (unidiff_steps x g) as [steps|] eqn:Es.
    2:{ destruct Hcase; discriminate. }
    assert (Hhs : unidiff_hunks x g = Ok (omap step_hunk steps)).
    { unfold unidiff_hunks. by rewrite Es. }
    destruct Hcase as [Hlog|?]; [|discriminate].
    destruct (diff_apply_found data (Some s) g st x _
                (proj2 (diff_isApplied_0 _ _) Hg) El Hhs
                (rejected_debug_ok _ _ Hlog))
      as (st' & d & Hrun & Hs & Hn & _).
    exists 0, st'. split; [exact Hrun|].
    rewrite Hs, fmap_app, Hlog. simpl. by rewrite Hn.
  - destruct Hcase; discriminate.
Qed.

Lemma diff_load_names (data : xmlDocPtr) (g : UniHunk_t)
  (ds : list UniDiff_t) :
  forall st : State,
    Forall (fun d => is_Some (name d)) (stack st) ->
    Forall (fun d => is_Some (name d)) ds ->
    NoDup ((name <$> stack st) ++ (name <$> ds)) ->
    (forall n, n ∈ name <$> ds ->
               applies data g n = true \/ skips data n = true) ->
    exists st',
      xml_each (diff_load_diff data g)
        ((fun diff => xmlw_elem "diff" (name diff)) <$> ds) tt st
      = Ok (tt, st') /\
      name <$> stack st' =
        (name <$> stack st) ++
        filter (fun n => applies data g n = true) (name <$> ds).
Proof.
  induction ds as [|d ds IH]; intros st Hst Hds Hnd Hcase.
  - exists st. split; [reflexivity|]. simpl. by rewrite app_nil_r.
  - apply Forall_cons in Hds as [[s Hs] Hds].
    rewrite fmap_cons, Hs in Hnd.
    assert (Hnew : Some s ∉ name <$> stack st).
    { apply NoDup_app in Hnd as (_ & Hdisj & _). intros Hin.
      apply (Hdisj _ Hin). apply list_elem_of_here. }
    assert (Hc : applies data g (Some s) = true \/ skips data (Some s) = true).
    { apply Hcase. rewrite fmap_cons, Hs. apply list_elem_of_here. }
    destruct (diff_apply_load data g s st Hst Hnew Hc)
      as (r & st1 & Hrun & Hnames).
    assert (Hst1 : Forall (fun d => is_Some (name d)) (stack st1)).
    { apply names_some. rewrite Hnames. apply Forall_app. split.
      - by apply names_some.
      - destruct (applies data g (Some s)); repeat constructor. eauto. }
    assert (Hnd1 : NoDup ((name <$> stack st1) ++ (name <$> ds))).
    { rewrite Hnames.
      destruct (applies data g (Some s)).
      - rewrite <- app_assoc. exact Hnd.
      - rewrite app_nil_r. apply NoDup_app in Hnd as (H1 & H2 & H3).
        apply NoDup_cons in H3 as [_ H3].
        apply NoDup_app. split; [exact H1|]. split; [|exact H3].
        intros x Hx Hin. apply (H2 x Hx). by apply list_elem_of_further. }
    destruct (IH st1 Hst1 Hds Hnd1) as (st' & Hrun' & Hnames').
    { intros n Hn. apply Hcase. rewrite fmap_cons.
      by apply list_elem_of_further. }
    exists st'. split.
    + rewrite fmap_cons. simpl. unfold diff_load_diff at 1.
      change (xml_isNode (xmlw_elem "diff" (name d)) "diff") with true.
      change (xml_get (xmlw_elem "diff" (name d))) with (name d).
      cbv iota. rewrite Hs. rewrite !bind_assoc.
      rewrite (bind_run _ _ _ _ _ Hrun). unfold bind, ret at 1.
      exact Hrun'.
    + rewrite Hnames', Hnames. rewrite fmap_cons, Hs.
      rewrite filter_cons. rewrite <- app_assoc.
      destruct (applies data g (Some s)) eqn:Ea.
      * rewrite decide_True by done. reflexivity.
      * rewrite decide_False by done. reflexivity.
Qed.

Lemma filter_all_true {A : Type} (f : A -> bool) (l : list A) :
  (forall x, x ∈ l -> f x = true) -> filter (fun x => f x = true) l = l.
Proof.
  induction l as [|x l IH]; intros H; [reflexivity|].
  rewrite filter_cons, decide_True by (apply H, list_elem_of_here).
  f_equal. apply IH. intros y Hy. apply H. by apply list_elem_of_further.
Qed.

End SaveLoad.



(** The names the example saves and reloads. *)
Example save_load_names :
  name <$> stack Examples.st_DE = [Some "D"; Some "E"] /\
  filter (fun n => applies (SP:=Examples.sp) Examples.unidiff_xml
                     UniHunk_zero n = true)
    (name <$> stack Examples.st_DE) = [Some "D"; Some "E"].
Proof. split; reflexivity. Qed.

(** A saved name neither applied nor passed over: against a document
    in which "D" is a fleet that is not defined, on a system that does not
    exist, the hunk is rejected and the load of the save of the example
    ends in the DEBUG line of that hunk. *)
Example load_stops_at_unprintable :
  applies (SP:=Examples.sp) Examples2.redefined_xml UniHunk_zero (Some "D")
  = false /\
  skips Examples2.redefined_xml (Some "D") = false /\
  diff_load Examples2.redefined_xml Examples.save_xml UniHunk_zero
    Examples.st_D = Crash.
Proof. repeat split; reflexivity. Qed.

(** ** Reverting in the world model of the specification *)

Lemma patch_all_cons `{SP : Space} (h : UniHunk_t) (hs : list UniHunk_t)
  (w : Universe) :
  patch_all (h :: hs) w = patch_all hs (snd (patch_universe h w)).
Proof. reflexivity. Qed.

Lemma rejected_nil_accepted `{SP : Space} (hs : list UniHunk_t)
  (w : Universe) :
  rejected hs w = [] -> accepted hs w = hs.
Proof.
  revert w. induction hs as [|h hs IH]; intros w; [reflexivity|]. simpl.
  destruct (fst (patch_universe h w) <? 0); [discriminate|].
  intros H. f_equal. by apply IH.
Qed.

Lemma rejected_cons_nil `{SP : Space} (h : UniHunk_t) (hs : list UniHunk_t)
  (w : Universe) :
  rejected (h :: hs) w = [] ->
  (fst (patch_universe h w) <? 0) = false /\
  rejected hs (snd (patch_universe h w)) = [].
Proof.
  simpl. destruct (fst (patch_universe h w) <? 0); [discriminate|done].
Qed.

Module SpecSpaceFacts.

Import SpecSpace.

Section Facts.

Variable fleet_stack : gset string.

#[local] Hint Extern 0 Space => exact (space fleet_stack)
  : typeclass_instances.

Lemma World_eq (w w' : World) :
  systems w = systems w' -> planets w = planets w' -> fleets w = fleets w' ->
  w = w'.
Proof. destruct w, w'; simpl; by intros -> -> ->. Qed.

Lemma act_systems (b : bool) (i : Item) (w : World) :
  systems (act b i w) = systems w.
Proof. by destruct i. Qed.

Lemma act_comm (b c : bool) (i j : Item) (w : World) :
  i <> j -> act b i (act c j w) = act c j (act b i w).
Proof.
  intros Hne. destruct i as [p|f], j as [q|k]; simpl;
    apply World_eq; simpl; try reflexivity.
  - assert (Hpq : p <> q) by congruence. destruct b, c; set_solver.
  - assert (Hfk : f <> k) by congruence. destruct b, c; set_solver.
Qed.

Lemma act_holds (b : bool) (i j : Item) (w : World) :
  i <> j -> holds (act b i w) j <-> holds w j.
Proof.
  intros Hne. destruct i as [p|f], j as [q|k]; simpl; try reflexivity.
  - assert (Hpq : p <> q) by congruence. destruct b; set_solver.
  - assert (Hfk : f <> k) by congruence. destruct b; set_solver.
Qed.

(** Taking out what was put in, where it was absent, and putting back
    what was taken out, where it was present, restore the world. *)
Lemma act_undo (b : bool) (i : Item) (w : World) :
  (if b then ~ holds w i else holds w i) ->
  act (negb b) i (act b i w) = w.
Proof.
  intros H. destruct i as [p|f]; simpl in *;
    apply World_eq; simpl; try reflexivity; destruct b; simpl.
  - set_solver.
  - apply set_eq. intros x. rewrite elem_of_union, elem_of_difference,
      elem_of_singleton. destruct (decide (x = p)) as [->|]; tauto.
  - set_solver.
  - apply set_eq. intros x. rewrite elem_of_union, elem_of_difference,
      elem_of_singleton. destruct (decide (x = f)) as [->|]; tauto.
Qed.

Lemma act_absent (i : Item) (w : World) :
  ~ holds w i -> act false i w = w.
Proof.
  intros H. destruct i as [p|f]; simpl in *; apply World_eq; simpl;
    try reflexivity; set_solver.
Qed.

Lemma hunk_item_invert (h : UniHunk_t) : hunk_item (invert h) = hunk_item h.
Proof.
  unfold hunk_item, invert. simpl.
  destruct (target_name (target h)); [|reflexivity].
  by destruct (type h).
Qed.

(** The system a hunk that names an item targets. *)
Lemma hunk_item_target (h : UniHunk_t) (i : Item) :
  hunk_item h = Some i ->
  exists s, target_name (target h) = Some s /\
            s = match i with inl sp => sp.1 | inr sf => sf.1 end.
Proof.
  unfold hunk_item. destruct (target_name (target h)) as [s|]; [|discriminate].
  destruct (type h), (u_slot (u h)); try discriminate;
    intros [= <-]; eauto.
Qed.

(** A hunk that space.h accepts names an item of an existing system and
    acts on it; a removal that is accepted finds its item. *)
Lemma patch_accepted (h : UniHunk_t) (w : World) :
  (fst (patch_universe h w) <? 0) = false ->
  exists i s,
    hunk_item h = Some i /\
    target_name (target h) = Some s /\ s ∈ systems w /\
    snd (patch_universe h w) = effect w h /\
    (is_add h = false -> holds w i).
Proof.
  unfold patch_universe, effect, hunk_item, is_add. simpl.
  unfold get, addPlanet, rmPlanet, addFleet, rmFleet, u_name, u_fleet.
  destruct (target_name (target h)) as [s|];
    [|by destruct (type h), (u_slot (u h))].
  destruct (decide (s ∈ systems w)) as [Hs|Hs];
    [|by destruct (type h), (u_slot (u h))].
  destruct (type h) eqn:Et, (u_slot (u h)) as [|n|n] eqn:Es; simpl;
    try discriminate; intros Hacc.
  - eexists _, s. repeat split; try done.
  - destruct (decide ((s, n) ∈ planets w)); [|discriminate].
    eexists _, s. repeat split; try done.
  - eexists _, s. repeat split; try done.
  - destruct (decide ((s, (n, u_chance (u h))) ∈ fleets w)); [|discriminate].
    eexists _, s. repeat split; try done.
Qed.

(** The inverse of a hunk on an existing system undoes it: putting always
    succeeds, and taking out an absent item changes nothing. *)
Lemma patch_inverse (h : UniHunk_t) (w : World) (i : Item) (s : string) :
  hunk_item h = Some i ->
  target_name (target h) = Some s ->
  s ∈ systems w ->
  snd (patch_universe (invert h) w) = undo w h.
Proof.
  intros Hi Ht Hs. unfold undo. rewrite Hi.
  unfold hunk_item in Hi. rewrite Ht in Hi.
  unfold patch_universe, is_add, invert. simpl. rewrite Ht.
  unfold get, addPlanet, rmPlanet, addFleet, rmFleet, u_name, u_fleet.
  rewrite decide_True by exact Hs.
  destruct (type h) eqn:Et, (u_slot (u h)) as [|n|n] eqn:Es; simpl;
    try discriminate; injection Hi as <-; simpl; try reflexivity.
  - destruct (decide ((s, n) ∈ planets w)) as [Hin|Hin]; [reflexivity|].
    simpl. symmetry. by apply (act_absent (inl (s, n))).
  - destruct (decide ((s, (n, u_chance (u h))) ∈ fleets w)) as [Hin|Hin];
      [reflexivity|].
    simpl. symmetry. by apply (act_absent (inr (s, (n, u_chance (u h))))).
Qed.

Lemma effect_systems (w : World) (h : UniHunk_t) :
  systems (effect w h) = systems w.
Proof. unfold effect. destruct (hunk_item h); [apply act_systems|done]. Qed.

Lemma fold_effect_systems (hs : list UniHunk_t) (w : World) :
  systems (fold_left effect hs w) = systems w.
Proof.
  revert w. induction hs as [|h hs IH]; intros w; [reflexivity|].
  simpl. rewrite IH. apply effect_systems.
Qed.

(** Acting on an item commutes with the effects of hunks that name other
    items. *)
Lemma act_fold_effect (b : bool) (i : Item) (hs : list UniHunk_t)
  (w : World) :
  Some i ∉ hunk_item <$> hs ->
  act b i (fold_left effect hs w) = fold_left effect hs (act b i w).
Proof.
  revert w. induction hs as [|h hs IH]; intros w Hni; [reflexivity|].
  rewrite fmap_cons in Hni. apply not_elem_of_cons in Hni as [Hne Hni].
  simpl. rewrite (IH _ Hni). f_equal. unfold effect.
  destruct (hunk_item h) as [j|]; [|reflexivity].
  apply act_comm. congruence.
Qed.

(** When all hunks are accepted, the universe they leave is the one their
    effects produce; they all target existing systems, and with pairwise
    different items every removal finds its item in the initial world. *)
Lemma patch_all_effect (hs : list UniHunk_t) (w : World) :
  rejected hs w = [] ->
  NoDup (hunk_item <$> hs) ->
  patch_all hs w = fold_left effect hs w /\
  Forall (fun h => exists i s,
            hunk_item h = Some i /\
            target_name (target h) = Some s /\ s ∈ systems w /\
            (is_add h = false -> holds w i)) hs.
Proof.
  revert w. induction hs as [|h hs IH]; intros w Hrej Hnd.
  - split; [reflexivity|constructor].
  - apply rejected_cons_nil in Hrej as [Eacc Hrej]. rewrite fmap_cons in Hnd.
    apply NoDup_cons in Hnd as [Hni Hnd].
    destruct (patch_accepted h w Eacc) as (i & s & Hi & Ht & Hs & He & Hrm).
    destruct (IH _ Hrej Hnd) as [Hall Hfor].
    rewrite patch_all_cons. rewrite He in Hall, Hfor. split.
    + rewrite He. exact Hall.
    + constructor; [by exists i, s|].
      apply Forall_forall. intros h' Hin.
      rewrite Forall_forall in Hfor.
      destruct (Hfor h' Hin) as (j & t & Hj & Ht' & Hs' & Hrm').
      exists j, t. rewrite effect_systems in Hs'.
      repeat split; try done. intros Hadd.
      assert (Hij : i <> j).
      { intros ->. apply Hni. rewrite Hi. apply list_elem_of_fmap.
        exists h'. by split. }
      apply Hrm' in Hadd. unfold effect in Hadd. rewrite Hi in Hadd.
      by apply act_holds in Hadd.
Qed.

Lemma undo_systems (w : World) (h : UniHunk_t) :
  systems (undo w h) = systems w.
Proof. unfold undo. destruct (hunk_item h); [apply act_systems|done]. Qed.

(** On hunks that target existing systems the inverses, run in order,
    leave the universe their undoings produce. *)
Lemma patch_all_undo (hs : list UniHunk_t) (w0 w : World) :
  Forall (fun h => exists i s,
            hunk_item h = Some i /\
            target_name (target h) = Some s /\ s ∈ systems w0 /\
            (is_add h = false -> holds w0 i)) hs ->
  systems w = systems w0 ->
  patch_all (invert <$> hs) w = fold_left undo hs w.
Proof.
  intros Hfor. revert w. induction Hfor as [|h hs Hh _ IH]; intros w Hsys.
  - reflexivity.
  - destruct Hh as (i & s & Hi & Ht & Hs & _).
    rewrite fmap_cons, patch_all_cons.
    rewrite (patch_inverse h w i s Hi Ht) by (by rewrite Hsys).
    simpl. apply IH. by rewrite undo_systems.
Qed.

(** Undoing, first hunk first, the effects of hunks on pairwise different
    items, each of which changed the world, restores it. *)
Lemma fold_undo_effect (hs : list UniHunk_t) (w : World) :
  NoDup (hunk_item <$> hs) ->
  Forall (fun h => exists i,
            hunk_item h = Some i /\
            if is_add h then ~ holds w i else holds w i) hs ->
  fold_left undo hs (fold_left effect hs w) = w.
Proof.
  induction hs as [|h hs IH]; intros Hnd Hfor; [reflexivity|].
  rewrite fmap_cons in Hnd. apply NoDup_cons in Hnd as [Hni Hnd].
  apply Forall_cons in Hfor as [(i & Hi & Hch) Hfor].
  simpl. unfold undo at 2. rewrite Hi. rewrite Hi in Hni.
  rewrite (act_fold_effect _ i hs _ Hni).
  unfold effect at 2. rewrite Hi. rewrite act_undo by exact Hch.
  by apply IH.
Qed.

(** C1, as amended: in the world model of the specification, when space.h
    accepts every hunk of a definition, no two of its hunks name the same
    item (a planet in a system, a fleet with its chance in a system) and
    the items it adds are absent beforehand, [diff_apply] followed by
    [diff_remove] restores the universe, whatever the order of the planet
    and fleet hunks. *)
Theorem revert_restores_separate (data : xmlDocPtr) (n : option string)
  (g : UniHunk_t) (st : State) (x : xmlNode) (hs : list UniHunk_t) :
  diff_isApplied n st = Ok (0, st) ->
  lookup_unidiff data n = Ok (Found x) ->
  unidiff_hunks x g = Ok hs ->
  rejected hs (universe st) = [] ->
  separate hs (universe st) ->
  exists st1 st2 d,
    diff_apply data n g st = Ok (0, st1) /\
    stack st1 = stack st ++ [d] /\
    applied d = hs /\
    failed d = [] /\
    diff_remove n st1 = Ok (tt, st2) /\
    universe st2 = universe st /\
    (forall s, planets_of (universe st2) s = planets_of (universe st) s /\
               fleets_of (universe st2) s = fleets_of (universe st) s) /\
    stack st2 = stack st.
Proof.
  intros Hna Hl Hhs Hrej [Hnd Hfresh].
  assert (Hlog : forallb debug_ok (rejected hs (universe st)) = true)
    by (by rewrite Hrej).
  destruct (diff_apply_found data n g st x hs Hna Hl Hhs Hlog)
    as (st1 & d & Hrun & Hs & Hn & Ha & Hf & Hu & Hg).
  rewrite (rejected_nil_accepted hs _ Hrej) in Ha. rewrite Hrej in Hf.
  assert (Hd : stack st1 !! length (stack st) = Some d).
  { rewrite Hs. apply lookup_last. }
  assert (Hinv : Forall hunk_invertible (applied d)).
  { rewrite Ha, <- (rejected_nil_accepted hs _ Hrej).
    apply accepted_invertible. }
  destruct (diff_remove_run n st1 _ d Hg Hd Hinv)
    as (st2 & evs & Hrm & Hs2 & Hu2 & _).
  assert (Hw : universe st2 = universe st).
  2:{ exists st1, st2, d. split; [exact Hrun|]. split; [exact Hs|].
      split; [exact Ha|]. split; [exact Hf|]. split; [exact Hrm|].
      split; [exact Hw|]. split; [by rewrite Hw|].
      rewrite Hs2, Hs, delete_middle. by rewrite app_nil_r. }
  - rewrite Hu2, Ha, Hu.
    destruct (patch_all_effect hs (universe st) Hrej Hnd) as [He Hfor].
    rewrite He.
    rewrite (patch_all_undo hs (universe st) _ Hfor)
      by apply fold_effect_systems.
    apply fold_undo_effect; [exact Hnd|].
    apply Forall_forall. intros h Hin.
    rewrite Forall_forall in Hfor, Hfresh.
    destruct (Hfor h Hin) as (i & s & Hi & _ & _ & Hfound).
    exists i. split; [exact Hi|].
    destruct (is_add h) eqn:Eadd; [by apply (Hfresh h Hin)|by apply Hfound].
Qed.

End Facts.

End SpecSpaceFacts.

Lemma revert_restores_separate_witness :
  exists st1 st2 d,
    diff_apply Examples.unidiff_xml (Some "H") UniHunk_zero Examples.st0
    = Ok (0, st1) /\
    stack st1 = stack Examples.st0 ++ [d] /\
    applied d = Examples.hunks_H /\
    failed d = [] /\
    diff_remove (Some "H") st1 = Ok (tt, st2) /\
    universe st2 = universe Examples.st0 /\
    (forall s,
       SpecSpace.planets_of (universe st2) s
       = SpecSpace.planets_of (universe Examples.st0) s /\
       SpecSpace.fleets_of (universe st2) s
       = SpecSpace.fleets_of (universe Examples.st0) s) /\
    stack st2 = stack Examples.st0.
Proof.
  eapply (SpecSpaceFacts.revert_restores_separate {["Pirates"]}
            Examples.unidiff_xml (Some "H") UniHunk_zero Examples.st0).
  - reflexivity.
  - reflexivity.
  - reflexivity.
  - reflexivity.
  - split.
    + refine (bool_decide_unpack (NoDup _) _). vm_compute. exact I.
    + repeat constructor; intros i [= <-] _ Hin; simpl in Hin;
        by apply not_elem_of_empty in Hin.
Defined.

(** C1 as stated fails: definition "D" adds planet "A" to system "S" and
    removes it again; space.h accepts both hunks ([failed] is empty), and
    after [diff_remove] the planet set of "S", empty before the apply,
    holds "A": the inverses are replayed first hunk first, so the removal
    of "A" comes before its addition. *)
Lemma revert_not_identity :
  diff_apply Examples.unidiff_xml (Some "D") UniHunk_zero Examples.st0
  = Ok (0, Examples.st_D) /\
  stack Examples.st_D = [Examples.diff_D] /\
  failed Examples.diff_D = [] /\
  diff_remove (Some "D") Examples.st_D = Ok (tt, Examples.st_D_removed) /\
  SpecSpace.planets_of (universe Examples.st0) "S" = ∅ /\
  SpecSpace.planets_of (universe Examples.st_D_removed) "S" = {["A"]} /\
  SpecSpace.planets_of (universe Examples.st_D_removed) "S"
  <> SpecSpace.planets_of (universe Examples.st0) "S".
Proof.
  assert (H0 : SpecSpace.planets_of (universe Examples.st0) "S" = ∅)
    by (vm_compute; reflexivity).
  assert (H1 : SpecSpace.planets_of (universe Examples.st_D_removed) "S"
               = {["A"]}) by (vm_compute; reflexivity).
  repeat split; try reflexivity; try assumption.
  rewrite H0, H1. intros H.
  assert (Hin : "A" ∈ ({["A"]} : gset string)) by set_solver.
  rewrite H in Hin. by apply not_elem_of_empty in Hin.
Qed.

(** The items a diff adds have to be absent beforehand: adding "Q" to a
    system that holds it is accepted and changes nothing, and the removal
    of the diff then takes "Q" out. *)
Example revert_of_present_planet :
  diff_apply Examples.add_Q_xml (Some "I") UniHunk_zero Examples.st0_Q
  = Ok (0, Examples.st_I) /\
  (exists d, stack Examples.st_I = [d] /\ failed d = []) /\
  diff_remove (Some "I") Examples.st_I = Ok (tt, Examples.st_I_removed) /\
  SpecSpace.planets_of Examples.w_Q "S" = {["Q"]} /\
  SpecSpace.planets_of (universe Examples.st_I_removed) "S" = ∅.
Proof.
  split; [reflexivity|]. split; [eexists; split; reflexivity|].
  split; [reflexivity|]. split; vm_compute; reflexivity.
Qed.

(** * Further properties of unidiff.c *)

(** ** Looking diffs up *)

Section Lookup.

Context `{SP : Space}.

Lemma diff_get_from_first (l : list UniDiff_t) (k i : nat)
  (n : option string) :
  diff_get_from l k n = Ok (Some i) ->
  forall j e, (j < i - k)%nat -> l !! j = Some e -> name e <> n.
Proof.
  revert k. induction l as [|d l IH]; intros k H j e Hj He; [done|].
  simpl in H. unfold Res_bind in H.
  destruct (strcmp (name d) n) as [c|] eqn:E; [|discriminate].
  destruct (c =? 0) eqn:Ec.
  - injection H as <-. lia.
  - apply strcmp_Ok in E as (x & y & Hx & Hy & Hc). apply Z.eqb_neq in Ec.
    destruct j as [|j]; simpl in He.
    + injection He as <-. rewrite Hx, Hy. intros [= ->]. tauto.
    + apply diff_get_from_Some in H as Hle. destruct Hle as (_ & Hle & _).
      eapply (IH (S k) H j e); [lia|exact He].
Qed.

Lemma diff_get_from_None_all (l : list UniDiff_t) (k : nat)
  (n : option string) :
  diff_get_from l k n = Ok None -> Forall (fun e => name e <> n) l.
Proof.
  intros H. apply diff_get_from_None in H. apply Forall_forall.
  intros e He Heq. apply H. rewrite <- Heq. apply list_elem_of_fmap.
  by exists e.
Qed.

End Lookup.

(** X1: whatever [diff_get] returns, the state is left as it was; a
    pointer returned designates the first diff of the stack that carries
    the name, and NULL is returned only when no diff carries it. *)
Theorem diff_get_first_match `{SP : Space} (n : option string) (st : State) :
  match diff_get n st with
  | Ok (Some i, st') =>
      st' = st /\
      exists d, stack st !! i = Some d /\ name d = n /\
                forall j e, (j < i)%nat -> stack st !! j = Some e ->
                            name e <> n
  | Ok (None, st') => st' = st /\ Forall (fun e => name e <> n) (stack st)
  | Crash => True
  end.
Proof.
  unfold diff_get, lift.
  destruct (diff_get_from (stack st) 0 n) as [[i|]|] eqn:E; [| |exact I].
  - split; [reflexivity|].
    destruct (diff_get_from_Some _ _ _ _ E) as (d & _ & Hd & Hn & _).
    rewrite Nat.sub_0_r in Hd. exists d. repeat split; try done.
    intros j e Hj. apply (diff_get_from_first _ _ _ _ E). lia.
  - split; [reflexivity|]. by eapply diff_get_from_None_all.
Qed.

(** X2: in a reachable state [diff_isApplied] on a non-NULL name never
    dereferences NULL, changes nothing, and answers 1 exactly when a diff
    of that name is on the stack. *)
Theorem diff_isApplied_member `{SP : Space} (s : string) (st : State) :
  reachable st ->
  diff_isApplied (Some s) st =
  Ok (if bool_decide (Some s ∈ name <$> stack st) then 1 else 0, st).
Proof.
  intros Hreach. apply reachable_stack_ok in Hreach as [Hok Hnd].
  assert (Hsome : Forall (fun d => is_Some (name d)) (stack st)).
  { eapply Forall_impl; [exact Hok|]. by intros d [Hd _]. }
  destruct (bool_decide_reflect (Some s ∈ name <$> stack st)) as [Hin|Hout].
  - apply list_elem_of_fmap in Hin as (d & Hn & Hd).
    apply list_elem_of_lookup in Hd as [i Hi].
    apply diff_isApplied_1. exists (0 + i)%nat. rewrite Hn.
    by apply diff_get_from_lookup.
  - apply diff_isApplied_0. by apply diff_get_from_absent.
Qed.

Lemma diff_isApplied_member_witness :
  diff_isApplied (Some "E") Examples.st_DE =
  Ok (if bool_decide (Some "E" ∈ name <$> stack Examples.st_DE)
      then 1 else 0, Examples.st_DE).
Proof.
  apply (diff_isApplied_member "E" Examples.st_DE).
  apply (reach_apply Examples.unidiff_xml (Some "E") UniHunk_zero
           Examples.st_D 0 Examples.st_DE).
  - apply (reach_apply Examples.unidiff_xml (Some "D") UniHunk_zero
             Examples.st0 0 Examples.st_D).
    + apply reach_initial.
    + reflexivity.
  - reflexivity.
Defined.

(** X3: in every reachable state the diffs of the stack have non-NULL,
    pairwise different names, and no hunk of an [applied] sequence has
    the type [HUNK_TYPE_NONE]. *)
Theorem reachable_names_unique `{SP : Space} (st : State) :
  reachable st ->
  NoDup (name <$> stack st) /\
  Forall (fun d => is_Some (name d) /\
                   Forall (fun h => type h <> HUNK_TYPE_NONE) (applied d))
    (stack st).
Proof.
  intros Hreach. apply reachable_stack_ok in Hreach as [Hok Hnd].
  split; [exact Hnd|exact Hok].
Qed.

Lemma reachable_names_unique_witness :
  NoDup (name <$> stack Examples.st_DE) /\
  Forall (fun d => is_Some (name d) /\
                   Forall (fun h => type h <> HUNK_TYPE_NONE) (applied d))
    (stack Examples.st_DE).
Proof.
  apply (reachable_names_unique Examples.st_DE).
  apply (reach_apply Examples.unidiff_xml (Some "E") UniHunk_zero
           Examples.st_D 0 Examples.st_DE).
  - apply (reach_apply Examples.unidiff_xml (Some "D") UniHunk_zero
             Examples.st0 0 Examples.st_D).
    + apply reach_initial.
    + reflexivity.
  - reflexivity.
Defined.

(** X4: a run of [diff_apply] that returns either leaves stack and
    universe as they were, or returns 0 after pushing, at the end of the
    stack, one record that carries the name asked for; the records that
    were on the stack are never changed, moved or removed. *)
Theorem diff_apply_pushes_at_most_one `{SP : Space} (data : xmlDocPtr)
  (n : option string) (g : UniHunk_t) (st st' : State) (r : Z) :
  diff_apply data n g st = Ok (r, st') ->
  (stack st' = stack st /\ universe st' = universe st) \/
  (exists d, r = 0 /\ stack st' = stack st ++ [d] /\ name d = n).
Proof.
  rewrite diff_apply_exact.
  destruct (diff_get_from (stack st) 0 n) as [[j|]|] eqn:Eg;
    [| |discriminate].
  { intros [= <- <-]. by left. }
  cbv zeta.
  destruct (lookup_unidiff data n) as [[| | |x]|] eqn:El;
    try discriminate; try (intros [= <- <-]; by left).
  intros H. apply bind_Ok in H as (r' & st1 & H1 & H2).
  unfold log, bind, ret in H2. injection H2 as <- <-.
  apply diff_patch_Ok in H1 as (steps & Es & _ & _ & Hs & Hu & _).
  right. eexists. split; [reflexivity|].
  split; [exact Hs|]. rewrite file_hunks_name. simpl.
  apply lookup_unidiff_Found in El. tauto.
Qed.

Lemma diff_apply_pushes_at_most_one_witness :
  (stack Examples.st_DE = stack Examples.st_D /\
   universe Examples.st_DE = universe Examples.st_D) \/
  (exists d, 0 = 0 /\ stack Examples.st_DE = stack Examples.st_D ++ [d] /\
             name d = Some "E").
Proof.
  apply (diff_apply_pushes_at_most_one Examples.unidiff_xml (Some "E")
           UniHunk_zero Examples.st_D Examples.st_DE 0).
  reflexivity.
Defined.

(** X5: after [diff_apply] has found and read the definition of a name
    that was not active, none of whose rejected hunks stops the DEBUG
    loop, [diff_isApplied] answers 1 for it, [diff_nstack] has grown by
    one, and applying the name once more returns 0 and changes nothing. *)
Theorem diff_apply_then_isApplied `{SP : Space} (data : xmlDocPtr)
  (n : option string) (g : UniHunk_t) (st : State) (x : xmlNode)
  (hs : list UniHunk_t) :
  diff_isApplied n st = Ok (0, st) ->
  lookup_unidiff data n = Ok (Found x) ->
  unidiff_hunks x g = Ok hs ->
  forallb debug_ok (rejected hs (universe st)) = true ->
  exists st',
    diff_apply data n g st = Ok (0, st') /\
    diff_isApplied n st' = Ok (1, st') /\
    diff_nstack st' = diff_nstack st + 1 /\
    forall data' g', diff_apply data' n g' st' = Ok (0, st').
Proof.
  intros Hna Hl Hhs Hlog.
  destruct (diff_apply_found data n g st x hs Hna Hl Hhs Hlog)
    as (st' & d & Hrun & Hs & _ & _ & _ & _ & Hg).
  exists st'. split; [exact Hrun|].
  split; [apply diff_isApplied_1; eauto|]. split.
  - unfold diff_nstack. rewrite Hs, length_app. simpl. lia.
  - intros data' g'. rewrite diff_apply_exact, Hg. reflexivity.
Qed.

Lemma diff_apply_then_isApplied_witness :
  exists st',
    diff_apply Examples.unidiff_xml (Some "H") UniHunk_zero Examples.st_D
    = Ok (0, st') /\
    diff_isApplied (Some "H") st' = Ok (1, st') /\
    diff_nstack st' = diff_nstack Examples.st_D + 1 /\
    forall data' g', diff_apply data' (Some "H") g' st' = Ok (0, st').
Proof.
  apply (diff_apply_then_isApplied Examples.unidiff_xml (Some "H")
           UniHunk_zero Examples.st_D Examples2.unidiff_H
           Examples.hunks_H).
  - reflexivity.
  - reflexivity.
  - reflexivity.
  - reflexivity.
Defined.

(** ** Removing diffs *)

Section Reverting.

Context `{SP : Space}.

Lemma diff_removeDiff_loop_exact (hs : list UniHunk_t) (st : State) :
  exists st',
    diff_removeDiff_loop hs st = Ok (tt, st') /\
    diff_stack st' = diff_stack st /\
    diff_mstack st' = diff_mstack st /\
    universe st' = revert_hunks hs (universe st) /\
    trace st' = trace st ++ revert_events hs (universe st).
Proof.
  revert st. induction hs as [|h hs IH]; intros st; simpl.
  - exists st. repeat split; try done. by rewrite app_nil_r.
  - destruct (inverted_type (type h)) as [t|].
    + rewrite (bind_run _ _ _ _ _ (diff_patchHunk_run _ st)).
      destruct (IH (after_patch (with_type t h) st))
        as (st' & -> & H1 & H2 & H3 & H4).
      exists st'. repeat split; try done.
      rewrite H4. simpl. by rewrite <- app_assoc.
    + unfold WARN, log, bind at 1.
      destruct (IH (emit (EvWARN (Warn_unknown_Hunk_type (type h))) st))
        as (st' & -> & H1 & H2 & H3 & H4).
      exists st'. repeat split; try done.
      rewrite H4. simpl. by rewrite <- app_assoc.
Qed.

Lemma space_calls_revert_events (hs : list UniHunk_t) (w : Universe) :
  space_calls (revert_events hs w) =
  invert <$> filter (fun h => type h <> HUNK_TYPE_NONE) hs.
Proof.
  revert w. induction hs as [|h hs IH]; intros w; [reflexivity|].
  simpl. rewrite filter_cons.
  destruct (inverted_type (type h)) as [t|] eqn:Et.
  - rewrite decide_True.
    2:{ intros H. rewrite H in Et. discriminate. }
    rewrite fmap_cons, <- (IH (snd (patch_universe (with_type t h) w))).
    rewrite <- (invert_with_type h t Et).
    unfold space_calls, patch_event. simpl.
    destruct t; try reflexivity.
    destruct (type h); discriminate.
  - rewrite decide_False.
    2:{ intros H. apply H. by destruct (type h). }
    apply IH.
Qed.

Lemma revert_events_quiet (hs : list UniHunk_t) (w : Universe) :
  Forall quiet (revert_events hs w).
Proof.
  revert w. induction hs as [|h hs IH]; intros w; simpl; [constructor|].
  destruct (inverted_type (type h)) as [t|]; constructor; try apply IH;
    try exact I.
  unfold patch_event. by destruct (type (with_type t h)).
Qed.

Lemma diff_removeDiff_exact (i : nat) (st : State) d :
  stack st !! i = Some d ->
  exists st',
    diff_removeDiff i st = Ok (0, st') /\
    stack st' = delete i (stack st) /\
    diff_mstack st' = diff_mstack st /\
    universe st' = revert_hunks (applied d) (universe st) /\
    trace st' = trace st ++ revert_events (applied d) (universe st).
Proof.
  intros Hd.
  destruct (diff_removeDiff_loop_exact (applied d) st)
    as (st1 & Hl & Hs & Hm & Hu & Ht).
  assert (Hd1 : stack st1 !! i = Some d).
  { unfold stack. rewrite Hs. exact Hd. }
  exists (set_stack (delete i (stack st)) st1).
  split; [|done].
  unfold diff_removeDiff, read_diff. unfold bind at 1. rewrite Hd.
  rewrite (bind_run _ _ _ _ _ Hl). unfold diff_cleanup.
  rewrite (bind_run _ _ _ _ _ (update_diff_run _ _ st1 d Hd1)).
  unfold stack_remove, bind, ret. rewrite !stack_set_stack.
  rewrite delete_insert_same. unfold stack at 1. rewrite Hs.
  reflexivity.
Qed.

Lemma revert_stack_snoc (l : list UniDiff_t) (d : UniDiff_t) (w : Universe) :
  revert_stack (l ++ [d]) w = revert_stack l (revert_hunks (applied d) w).
Proof. unfold revert_stack. by rewrite foldr_app. Qed.

Lemma diff_clear_loop_exact (rounds : nat) (st : State) :
  (length (stack st) <= rounds)%nat ->
  exists st',
    diff_clear_loop rounds st = Ok (tt, st') /\
    stack st' = [] /\
    diff_mstack st' = diff_mstack st /\
    universe st' = revert_stack (stack st) (universe st) /\
    exists evs, trace st' = trace st ++ evs /\ Forall quiet evs.
Proof.
  revert st. induction rounds as [|k IH]; intros st Hle.
  - assert (Hs : stack st = []).
    { destruct (stack st); [reflexivity|simpl in Hle; lia]. }
    exists st. simpl. rewrite Hs. repeat split; try done.
    exists []. by rewrite app_nil_r.
  - simpl. unfold diff_nstack.
    destruct (stack st) as [|d0 l0] eqn:Es0.
    { exists st. simpl. rewrite Es0. repeat split; try done.
      exists []. by rewrite app_nil_r. }
    destruct (exists_last (l:=d0 :: l0) ltac:(discriminate))
      as (l' & d & Es').
    rewrite Es' in *. clear Es' d0 l0. rename Es0 into Es.
    + rewrite length_app in *. simpl in *.
      replace (0 <? Z.of_nat (length l' + 1)) with true
        by (symmetry; apply Z.ltb_lt; lia).
      replace (Nat.pred (length l' + 1)) with (length l') by lia.
      assert (Hd : stack st !! length l' = Some d).
      { rewrite Es. apply list_lookup_middle. reflexivity. }
      destruct (diff_removeDiff_exact _ st d Hd)
        as (st1 & Hr & Hs1 & Hm1 & Hu1 & Ht1).
      rewrite (bind_run _ _ _ _ _ Hr).
      rewrite Es, delete_middle, app_nil_r in Hs1.
      destruct (IH st1) as (st' & Hrun & Hs' & Hm' & Hu' & evs & Ht' & Hq).
      { rewrite Hs1. lia. }
      exists st'. split; [exact Hrun|]. split; [exact Hs'|].
      split; [congruence|]. split.
      * rewrite Hu', Hs1, Hu1. by rewrite revert_stack_snoc.
      * exists (revert_events (applied d) (universe st) ++ evs). split.
        -- rewrite Ht', Ht1. by rewrite <- app_assoc.
        -- apply Forall_app. split; [apply revert_events_quiet|exact Hq].
Qed.

Lemma NoDup_fmap_delete {A B : Type} (f : A -> B) (l : list A) (i : nat)
  (x : A) :
  NoDup (f <$> l) -> l !! i = Some x -> f x ∉ f <$> delete i l.
Proof.
  intros Hnd Hi. rewrite delete_take_drop.
  rewrite <- (take_drop_middle l i x Hi) in Hnd.
  rewrite fmap_app, fmap_cons in Hnd.
  apply NoDup_app in Hnd as (_ & Hdisj & Hnd).
  apply NoDup_cons in Hnd as [Hni _].
  rewrite fmap_app. intros Hin. apply elem_of_app in Hin as [Hin|Hin].
  - apply (Hdisj _ Hin). apply list_elem_of_here.
  - contradiction.
Qed.

End Reverting.

(** X6: [diff_removeDiff] on any record of the stack returns 0; it hands
    to space.h the inverse of every applied hunk whose type has one, index
    0 first, whether or not an earlier call failed, warns about the
    others, never replays a hunk of [failed], and closes the gap in the
    stack without giving back any of its allocation. *)
Theorem diff_removeDiff_effect `{SP : Space} (i : nat) (st : State)
  (d : UniDiff_t) :
  stack st !! i = Some d ->
  exists st',
    diff_removeDiff i st = Ok (0, st') /\
    stack st' = delete i (stack st) /\
    diff_mstack st' = diff_mstack st /\
    universe st' = revert_hunks (applied d) (universe st) /\
    trace st' = trace st ++ revert_events (applied d) (universe st) /\
    space_calls (revert_events (applied d) (universe st)) =
      invert <$> filter (fun h => type h <> HUNK_TYPE_NONE) (applied d).
Proof.
  intros Hd.
  destruct (diff_removeDiff_exact i st d Hd) as (st' & H1 & H2 & H3 & H4 & H5).
  exists st'. repeat split; try done. apply space_calls_revert_events.
Qed.

Lemma diff_removeDiff_effect_witness :
  exists st',
    diff_removeDiff 0 Examples.st_DE = Ok (0, st') /\
    stack st' = delete 0%nat (stack Examples.st_DE) /\
    diff_mstack st' = diff_mstack Examples.st_DE /\
    universe st' =
      revert_hunks (applied Examples.diff_D) (universe Examples.st_DE) /\
    trace st' =
      trace Examples.st_DE ++
      revert_events (applied Examples.diff_D) (universe Examples.st_DE) /\
    space_calls
      (revert_events (applied Examples.diff_D) (universe Examples.st_DE)) =
      invert <$> filter (fun h => type h <> HUNK_TYPE_NONE)
                   (applied Examples.diff_D).
Proof.
  apply (diff_removeDiff_effect 0 Examples.st_DE Examples.diff_D).
  reflexivity.
Defined.

(** X7: [diff_clear] returns from every state with an empty stack and an
    unchanged allocation; the universe it leaves is the one obtained by
    reverting the diffs one after the other, the last of the stack first;
    it neither reads nor releases a definitions document. *)
Theorem diff_clear_reverts_all `{SP : Space} (st : State) :
  exists st',
    diff_clear st = Ok (tt, st') /\
    stack st' = [] /\
    diff_nstack st' = 0 /\
    diff_mstack st' = diff_mstack st /\
    universe st' = revert_stack (stack st) (universe st) /\
    exists evs, trace st' = trace st ++ evs /\ Forall quiet evs.
Proof.
  destruct (diff_clear_loop_exact (length (stack st)) st)
    as (st' & Hrun & Hs & Hm & Hu & Hev); [lia|].
  exists st'. split; [exact Hrun|]. split; [exact Hs|].
  split; [unfold diff_nstack; by rewrite Hs|]. done.
Qed.

(** X8: in a reachable state, after [diff_remove] of the name of a diff
    of the stack [diff_isApplied] answers 0 for that name and still 1 for
    the name of every other diff, and [diff_nstack] is one less. *)
Theorem diff_remove_then_isApplied `{SP : Space} (st : State) (i : nat)
  (d : UniDiff_t) :
  reachable st ->
  stack st !! i = Some d ->
  exists st',
    diff_remove (name d) st = Ok (tt, st') /\
    diff_isApplied (name d) st' = Ok (0, st') /\
    diff_nstack st' = diff_nstack st - 1 /\
    forall j e, j <> i -> stack st !! j = Some e ->
                diff_isApplied (name e) st' = Ok (1, st').
Proof.
  intros Hreach Hd.
  apply reachable_stack_ok in Hreach as Hok. destruct Hok as [Hok Hnd].
  assert (Hsome : Forall (fun d => is_Some (name d)) (stack st)).
  { eapply Forall_impl; [exact Hok|]. by intros e [He _]. }
  assert (Hg : diff_get_from (stack st) 0 (name d) = Ok (Some i)).
  { by apply (diff_get_from_lookup _ 0 i d). }
  assert (Hinv : Forall hunk_invertible (applied d)).
  { eapply Forall_lookup_1 in Hok; [|exact Hd]. by destruct Hok. }
  destruct (diff_remove_run (name d) st i d Hg Hd Hinv)
    as (st' & evs & Hrun & Hs & _).
  assert (Hsome' : Forall (fun d => is_Some (name d)) (stack st')).
  { rewrite Hs. by apply Forall_delete. }
  assert (Hnd' : NoDup (name <$> stack st')).
  { rewrite Hs, list_fmap_delete. eapply sublist_NoDup; [exact Hnd|].
    apply sublist_delete. }
  exists st'. split; [exact Hrun|]. split; [|split].
  - apply diff_isApplied_0.
    eapply Forall_lookup_1 in Hsome as [s Hname]; [|exact Hd].
    rewrite Hname. apply diff_get_from_absent; [exact Hsome'|].
    rewrite <- Hname, Hs. by apply NoDup_fmap_delete.
  - unfold diff_nstack. rewrite Hs, length_delete by eauto.
    apply lookup_lt_Some in Hd. lia.
  - intros j e Hji He.
    assert (Hin : e ∈ stack st').
    { rewrite Hs, delete_take_drop.
      rewrite <- (take_drop_middle _ i d Hd) in He.
      apply elem_of_app.
      destruct (decide (j < i)%nat) as [Hlt|Hge].
      - left. rewrite lookup_app_l in He
          by (rewrite length_take; apply lookup_lt_Some in Hd; lia).
        by eapply list_elem_of_lookup_2.
      - right. rewrite lookup_app_r in He
          by (rewrite length_take; apply lookup_lt_Some in Hd; lia).
        rewrite length_take in He.
        replace (j - i `min` length (stack st))%nat with (S (j - S i)) in He
          by (apply lookup_lt_Some in Hd; lia).
        simpl in He. by eapply list_elem_of_lookup_2. }
    apply list_elem_of_lookup in Hin as [k Hk].
    apply diff_isApplied_1. exists (0 + k)%nat.
    by apply diff_get_from_lookup.
Qed.

Lemma diff_remove_then_isApplied_witness :
  exists st',
    diff_remove (name Examples.diff_D) Examples.st_DE = Ok (tt, st') /\
    diff_isApplied (name Examples.diff_D) st' = Ok (0, st') /\
    diff_nstack st' = diff_nstack Examples.st_DE - 1 /\
    forall j e, j <> 0%nat -> stack Examples.st_DE !! j = Some e ->
                diff_isApplied (name e) st' = Ok (1, st').
Proof.
  apply (diff_remove_then_isApplied Examples.st_DE 0 Examples.diff_D).
  - apply (reach_apply Examples.unidiff_xml (Some "E") UniHunk_zero
             Examples.st_D 0 Examples.st_DE).
    + apply (reach_apply Examples.unidiff_xml (Some "D") UniHunk_zero
               Examples.st0 0 Examples.st_D).
      * apply reach_initial.
      * reflexivity.
    + reflexivity.
  - reflexivity.
Defined.

(** ** The arrays never outgrow their allocation *)

Section Capacity.

Context `{SP : Space}.

Lemma preserves_ret {A : Type} (P : State -> Prop) (a : A) :
  preserves P (ret a).
Proof. intros st b st' HP. unfold ret. by intros [= _ <-]. Qed.

Lemma preserves_bind {A B : Type} (P : State -> Prop) (m : M A)
  (k : A -> M B) :
  preserves P m -> (forall a, preserves P (k a)) -> preserves P (bind m k).
Proof.
  intros Hm Hk st b st' HP H. apply bind_Ok in H as (a & st1 & H1 & H2).
  eapply Hk; [|exact H2]. eapply Hm; eauto.
Qed.

Lemma preserves_lift {A : Type} (P : State -> Prop) (r : Res A) :
  preserves P (lift r).
Proof.
  intros st b st' HP. unfold lift. destruct r; [|discriminate].
  by intros [= _ <-].
Qed.

Lemma preserves_xml_each {A : Type} (P : State -> Prop)
  (body : xmlNode -> A -> M A) (l : xmlNodePtr) (a : A) :
  (forall x b, preserves P (body x b)) -> preserves P (xml_each body l a).
Proof.
  intros Hbody. revert a. induction l as [|x l IH]; intros a; simpl.
  - apply preserves_ret.
  - apply preserves_bind; [apply Hbody|]. intros b. apply IH.
Qed.

Lemma chunked_grow (n m : Z) :
  chunked n m ->
  chunked (n + 1) (if m <? n + 1 then m + CHUNK_SIZE else m).
Proof.
  intros [[H0 Hle] Hdiv]. unfold chunked, CHUNK_SIZE in *.
  destruct (Z.ltb_spec m (n + 1)).
  - split; [lia|]. apply Z.divide_add_r; [exact Hdiv|apply Z.divide_refl].
  - split; [lia|exact Hdiv].
Qed.

Lemma hunkFailed_cap (d : UniDiff_t) (h : UniHunk_t) :
  diff_cap_ok d -> diff_cap_ok (hunkFailed d h).
Proof.
  intros [Ha Hf]. split; [exact Ha|].
  unfold hunkFailed, nfailed. simpl. rewrite length_app. simpl.
  replace (Z.of_nat (length (failed d) + 1)) with (nfailed d + 1)
    by (unfold nfailed; lia).
  by apply chunked_grow.
Qed.

Lemma hunkSuccess_cap (d : UniDiff_t) (h : UniHunk_t) :
  diff_cap_ok d -> diff_cap_ok (hunkSuccess d h).
Proof.
  intros [Ha Hf]. split; [|exact Hf].
  unfold hunkSuccess, napplied. simpl. rewrite length_app. simpl.
  replace (Z.of_nat (length (applied d) + 1)) with (napplied d + 1)
    by (unfold napplied; lia).
  by apply chunked_grow.
Qed.

Lemma UniDiff_zero_cap : diff_cap_ok UniDiff_zero.
Proof.
  split; (split; [unfold napplied, nfailed; simpl; lia|]); apply Z.divide_0_r.
Qed.

Lemma cap_ok_log (e : Event) : preserves cap_ok (log e).
Proof. intros st [] st' HP. unfold log. by intros [= <-]. Qed.

Lemma cap_ok_debug_hunk (h : UniHunk_t) : preserves cap_ok (debug_hunk h).
Proof.
  intros st [] st' HP. rewrite debug_hunk_run.
  destruct (debug_ok h); [|discriminate]. by intros [= <-].
Qed.

Lemma cap_ok_update (i : nat) (f : UniDiff_t -> UniDiff_t) :
  (forall d, diff_cap_ok d -> diff_cap_ok (f d)) ->
  preserves cap_ok (update_diff i f).
Proof.
  intros Hf st [] st' [Hn Hall]. unfold update_diff.
  destruct (stack st !! i) as [d|] eqn:Hd; [|discriminate].
  intros [= <-]. split.
  - unfold diff_nstack. rewrite stack_set_stack, length_insert. exact Hn.
  - rewrite stack_set_stack. apply Forall_insert; [exact Hall|].
    apply Hf. eapply Forall_lookup_1; eauto.
Qed.

Lemma cap_ok_read (i : nat) : preserves cap_ok (read_diff i).
Proof.
  intros st d st' HP. unfold read_diff.
  destruct (stack st !! i); [|discriminate]. by intros [= _ <-].
Qed.

Lemma cap_ok_patchHunk (h : UniHunk_t) : preserves cap_ok (diff_patchHunk h).
Proof.
  intros st r st' HP. rewrite diff_patchHunk_run. by intros [= _ <-].
Qed.

Lemma cap_ok_patch_and_file (diff : UniDiff_ptr) (h : UniHunk_t) :
  preserves cap_ok (patch_and_file diff h).
Proof.
  unfold patch_and_file. apply preserves_bind; [apply cap_ok_patchHunk|].
  intros r. unfold diff_hunkFailed, diff_hunkSuccess.
  destruct (r <? 0), diff as [i|]; try apply preserves_ret;
    apply cap_ok_update; intros d; [apply hunkFailed_cap|apply hunkSuccess_cap].
Qed.

Lemma cap_ok_newDiff : preserves cap_ok diff_newDiff.
Proof.
  intros st i st' [Hn Hall]. unfold diff_newDiff.
  unfold cap_ok, diff_nstack, stack in *.
  destruct (diff_stack st) as [l|]; intros [= _ <-]; simpl.
  - rewrite length_app. simpl. split.
    + replace (Z.of_nat (length l + 1)) with (Z.of_nat (length l) + 1) by lia.
      by apply chunked_grow.
    + apply Forall_app. split; [exact Hall|].
      constructor; [apply UniDiff_zero_cap|constructor].
  - split.
    + split; [unfold CHUNK_SIZE; lia|apply Z.divide_refl].
    + constructor; [apply UniDiff_zero_cap|constructor].
Qed.

Lemma cap_ok_patch (x : xmlNode) (g : UniHunk_t) :
  preserves cap_ok (diff_patch x g).
Proof.
  unfold diff_patch. apply preserves_bind; [apply cap_ok_newDiff|].
  intros diff. apply preserves_bind.
  { apply cap_ok_update. intros _ _. apply UniDiff_zero_cap. }
  intros _. apply preserves_bind.
  { apply cap_ok_update. by intros d Hd. }
  intros _. apply preserves_bind.
  { apply preserves_xml_each. intros node hunk. unfold diff_patch_system.
    destruct (xml_isNode node "system"); [|apply preserves_ret].
    apply preserves_bind.
    - destruct (target_name (target (system_base node)));
        [apply preserves_ret|].
      apply preserves_bind; [apply cap_ok_read|]. intros d. apply cap_ok_log.
    - intros _. apply preserves_xml_each. intros cur h.
      unfold diff_patch_change.
      destruct (xml_isNode cur "planet");
        [|destruct (xml_isNode cur "fleet"); [|apply preserves_ret]];
        (apply preserves_bind; [apply preserves_lift|]; intros h';
         apply preserves_bind; [apply cap_ok_patch_and_file|]; intros _;
         apply preserves_ret). }
  intros _. apply preserves_bind; [apply cap_ok_read|]. intros d.
  apply preserves_bind; [|intros _; apply preserves_ret].
  destruct (0 <? nfailed d); [|apply preserves_ret].
  apply preserves_bind; [apply cap_ok_log|]. intros _.
  induction (failed d) as [|h l IH]; simpl; [apply preserves_ret|].
  apply preserves_bind; [apply cap_ok_debug_hunk|]. intros _. exact IH.
Qed.

Lemma cap_ok_apply (data : xmlDocPtr) (n : option string) (g : UniHunk_t) :
  preserves cap_ok (diff_apply data n g).
Proof.
  intros st r st' HP. rewrite diff_apply_exact.
  destruct (diff_get_from (stack st) 0 n) as [[j|]|]; [| |discriminate].
  { by intros [= _ <-]. }
  cbv zeta.
  destruct (lookup_unidiff data n) as [[| | |x]|];
    try discriminate; try (by intros [= _ <-]).
  intros H. apply bind_Ok in H as (r' & st1 & H1 & H2).
  unfold log, bind, ret in H2. injection H2 as _ <-.
  exact (cap_ok_patch x g _ _ _ (HP : cap_ok (emit EvParseMemory (emit EvReadFile st))) H1).
Qed.

Lemma cap_ok_removeDiff (i : nat) : preserves cap_ok (diff_removeDiff i).
Proof.
  intros st r st' [Hn Hall] H.
  unfold diff_removeDiff, read_diff in H. unfold bind at 1 in H.
  destruct (stack st !! i) as [d|] eqn:Hd; [|discriminate].
  destruct (diff_removeDiff_exact i st d Hd) as (st2 & Hrun & Hs & Hm & _).
  assert (Heq : diff_removeDiff i st = Ok (r, st')).
  { unfold diff_removeDiff, read_diff. unfold bind at 1. rewrite Hd.
    exact H. }
  rewrite Hrun in Heq. injection Heq as _ <-.
  unfold cap_ok, diff_nstack. rewrite Hs, Hm. split.
  - destruct Hn as [[H0 Hle] Hdiv]. unfold diff_nstack in *.
    split; [|exact Hdiv]. rewrite length_delete by eauto.
    apply lookup_lt_Some in Hd. lia.
  - by apply Forall_delete.
Qed.

Lemma cap_ok_clear : preserves cap_ok diff_clear.
Proof.
  intros st [] st' HP. unfold diff_clear.
  generalize (length (stack st)). intros k. revert st HP.
  induction k as [|k IH]; intros st HP; simpl.
  - by intros [= <-].
  - destruct (0 <? diff_nstack st); [|by intros [= <-]].
    intros H. apply bind_Ok in H as (r & st1 & H1 & H2).
    eapply IH; [|exact H2]. eapply cap_ok_removeDiff; eauto.
Qed.

Lemma cap_ok_remove (n : option string) : preserves cap_ok (diff_remove n).
Proof.
  unfold diff_remove. apply preserves_bind.
  - intros st p st' HP H. apply diff_get_state in H. by subst.
  - intros [i|]; [|apply preserves_ret].
    apply preserves_bind; [apply cap_ok_removeDiff|].
    intros _. apply preserves_ret.
Qed.

Lemma cap_ok_load (data : xmlDocPtr) (parent : xmlNode) (g : UniHunk_t) :
  preserves cap_ok (diff_load data parent g).
Proof.
  unfold diff_load. apply preserves_bind; [apply cap_ok_clear|].
  intros _. apply preserves_bind; [|intros _; apply preserves_ret].
  apply preserves_xml_each. intros node []. unfold diff_load_diffs.
  destruct (xml_isNode node "diffs"); [|apply preserves_ret].
  apply preserves_xml_each. intros cur []. unfold diff_load_diff.
  destruct (xml_isNode cur "diff"); [|apply preserves_ret].
  apply preserves_bind; [apply cap_ok_apply|]. intros _. apply preserves_ret.
Qed.

End Capacity.

(** X9: in every reachable state the number of diffs does not exceed the
    number of allocated ones, in every diff the numbers of applied and of
    failed hunks do not exceed the allocated ones, and every allocation is
    a multiple of [CHUNK_SIZE]: no diff or hunk is ever copied past the end
    of its array. *)
Theorem reachable_within_capacity `{SP : Space} (st : State) :
  reachable st ->
  0 <= diff_nstack st <= diff_mstack st /\
  (CHUNK_SIZE | diff_mstack st) /\
  Forall (fun d =>
            napplied d <= mapplied d /\ (CHUNK_SIZE | mapplied d) /\
            nfailed d <= mfailed d /\ (CHUNK_SIZE | mfailed d))
    (stack st).
Proof.
  intros Hreach.
  assert (Hcap : cap_ok st).
  { induction Hreach as [w|st w _ IH|data n g st r st' _ IH Hrun
                         |n st st' _ IH Hrun|st st' _ IH Hrun
                         |data parent g st r st' _ IH Hrun].
    - split; [|constructor]. split; [unfold diff_nstack; simpl; lia|]. apply Z.divide_0_r.
    - exact IH.
    - eapply cap_ok_apply; eauto.
    - eapply cap_ok_remove; eauto.
    - eapply cap_ok_clear; eauto.
    - eapply cap_ok_load; eauto. }
  destruct Hcap as [[Hn Hdiv] Hall]. split; [exact Hn|]. split; [exact Hdiv|].
  eapply Forall_impl; [exact Hall|].
  intros d [[[_ Ha] Hda] [[_ Hf] Hdf]]. done.
Qed.

Lemma reachable_within_capacity_witness :
  0 <= diff_nstack Examples.st_DE <= diff_mstack Examples.st_DE /\
  (CHUNK_SIZE | diff_mstack Examples.st_DE) /\
  Forall (fun d =>
            napplied d <= mapplied d /\ (CHUNK_SIZE | mapplied d) /\
            nfailed d <= mfailed d /\ (CHUNK_SIZE | mfailed d))
    (stack Examples.st_DE).
Proof.
  apply (reachable_within_capacity Examples.st_DE).
  apply (reach_apply Examples.unidiff_xml (Some "E") UniHunk_zero
           Examples.st_D 0 Examples.st_DE).
  - apply (reach_apply Examples.unidiff_xml (Some "D") UniHunk_zero
             Examples.st0 0 Examples.st_D).
    + apply reach_initial.
    + reflexivity.
  - reflexivity.
Defined.

(** ** Which definitions can be read *)

Section Reading.

Context `{SP : Space}.

Lemma read_type_Some (add remove : UniHunkType_t) (s : string)
  (h : UniHunk_t) :
  exists h', read_type add remove (Some s) h = Ok h'.
Proof.
  unfold read_type, strcmp, Res_bind.
  destruct (_ =? 0); [eauto|]. destruct (_ =? 0); eauto.
Qed.

Lemma change_hunk_wf (base : UniHunk_t) (cur : xmlNode) (hunk : UniHunk_t) :
  match change_hunk base cur hunk with
  | Ok _ => wf_change (has_value (target_name (target base))) cur = true
  | Crash => wf_change (has_value (target_name (target base))) cur = false
  end.
Proof.
  unfold change_hunk, wf_change, planet_hunk, fleet_hunk, atoi, strdup.
  destruct (xml_isNode cur "planet").
  - destruct (target_name (target base)) as [tn|]; [|reflexivity].
    cbn [Res_bind has_value andb].
    destruct (xml_get cur) as [s|]; [|reflexivity].
    match goal with |- context [read_type ?a ?r (Some s) ?h] =>
      destruct (read_type_Some a r s h) as [h' ->] end.
    reflexivity.
  - destruct (xml_isNode cur "fleet"); [|reflexivity].
    destruct (target_name (target base)) as [tn|]; [|reflexivity].
    cbn [Res_bind has_value andb].
    destruct (xmlr_attr cur "chance") as [c|]; [|reflexivity].
    cbn [Res_bind has_value andb].
    destruct (xml_get cur) as [s|]; [|reflexivity].
    match goal with |- context [read_type ?a ?r (Some s) ?h] =>
      destruct (read_type_Some a r s h) as [h' ->] end.
    reflexivity.
Qed.

Lemma changes_hunks_wf (base : UniHunk_t) (l : xmlNodePtr) :
  forall hunk,
    match changes_hunks base l hunk with
    | Ok _ =>
        forallb (wf_change (has_value (target_name (target base)))) l = true
    | Crash =>
        forallb (wf_change (has_value (target_name (target base)))) l = false
    end.
Proof.
  induction l as [|cur l IH]; intros hunk; [reflexivity|].
  cbn [changes_hunks forallb].
  pose proof (change_hunk_wf base cur hunk) as Hc.
  destruct (change_hunk base cur hunk) as [[h|]|]; rewrite Hc;
    cbn [Res_bind andb]; [| |reflexivity].
  - specialize (IH h). by destruct (changes_hunks base l h).
  - apply IH.
Qed.

Lemma systems_steps_wf (dn : option string) (l : xmlNodePtr) :
  forall hunk,
    match systems_steps dn l hunk with
    | Ok _ => forallb wf_system l = true
    | Crash => forallb wf_system l = false
    end.
Proof.
  induction l as [|node l IH]; intros hunk; [reflexivity|].
  cbn [systems_steps forallb]. unfold wf_system at 1 3.
  destruct (xml_isNode node "system"); [|apply IH].
  pose proof (changes_hunks_wf (system_base node) (node_children node) hunk)
    as Hc.
  change (target_name (target (system_base node)))
    with (xmlr_attr node "name") in Hc.
  destruct (changes_hunks (system_base node) (node_children node) hunk)
    as [p|]; rewrite Hc; cbn [Res_bind andb]; [|reflexivity].
  specialize (IH (snd p)). by destruct (systems_steps dn l (snd p)).
Qed.

Lemma unidiff_steps_wf (x : xmlNode) (g : UniHunk_t) :
  match unidiff_steps x g with
  | Ok _ => wf_unidiff x = true
  | Crash => wf_unidiff x = false
  end.
Proof.
  unfold unidiff_steps, wf_unidiff.
  pose proof (systems_steps_wf (xmlr_attr x "name") (node_children x) g) as H.
  by destruct (systems_steps (xmlr_attr x "name") (node_children x) g).
Qed.

Lemma planet_hunk_target (cur : xmlNode) (base hunk h : UniHunk_t) :
  planet_hunk cur base hunk = Ok h ->
  target h = target base /\ is_Some (target_name (target base)) /\
  u_slot (u h) = str_slot (xmlr_attr cur "name") /\
  (type h = type hunk \/ type h = HUNK_TYPE_PLANET_ADD \/
   type h = HUNK_TYPE_PLANET_REMOVE).
Proof.
  unfold planet_hunk, strdup.
  destruct (target base) as [tt tn] eqn:Et. simpl.
  destruct tn as [s|]; [|discriminate]. cbn [Res_bind].
  intros H. pose proof (read_type_payload _ _ _ _ _ H) as [Hu Ht].
  rewrite Ht, Hu. simpl. split; [reflexivity|]. split; [by eexists|].
  split; [reflexivity|].
  unfold read_type, Res_bind in H.
  destruct (strcmp (xml_get cur) (Some "add")) as [c|]; [|discriminate].
  destruct (c =? 0); [injection H as <-; auto|].
  destruct (strcmp (xml_get cur) (Some "remove")) as [c'|]; [|discriminate].
  destruct (c' =? 0); injection H as <-; auto.
Qed.

Lemma fleet_hunk_target (cur : xmlNode) (base hunk h : UniHunk_t) :
  fleet_hunk cur base hunk = Ok h ->
  target h = target base /\ is_Some (target_name (target base)) /\
  u_slot (u h) = fleet_get (xmlr_attr cur "name") /\
  (type h = type hunk \/ type h = HUNK_TYPE_FLEET_ADD \/
   type h = HUNK_TYPE_FLEET_REMOVE).
Proof.
  unfold fleet_hunk, strdup, atoi.
  destruct (target base) as [tt tn] eqn:Et. simpl.
  destruct tn as [s|]; [|discriminate]. cbn [Res_bind].
  destruct (xmlr_attr cur "chance") as [c|]; [|discriminate].
  cbn [Res_bind].
  intros H. pose proof (read_type_payload _ _ _ _ _ H) as [Hu Ht].
  rewrite Ht, Hu. simpl. split; [reflexivity|]. split; [by eexists|].
  split; [reflexivity|].
  unfold read_type, Res_bind in H.
  destruct (strcmp (xml_get cur) (Some "add")) as [c0|]; [|discriminate].
  destruct (c0 =? 0); [injection H as <-; auto|].
  destruct (strcmp (xml_get cur) (Some "remove")) as [c'|]; [|discriminate].
  destruct (c' =? 0); injection H as <-; auto.
Qed.

Lemma change_hunk_shape (base : UniHunk_t) (cur : xmlNode)
  (hunk : UniHunk_t) o :
  change_hunk base cur hunk = Ok o ->
  match o with
  | Some h =>
      is_change cur = true /\ target h = target base /\
      is_Some (target_name (target base))
  | None => is_change cur = false
  end.
Proof.
  unfold change_hunk, is_change.
  destruct (xml_isNode cur "planet").
  - destruct (planet_hunk cur base hunk) as [h|] eqn:E; [|discriminate].
    intros [= <-]. apply planet_hunk_target in E as (? & ? & _). done.
  - destruct (xml_isNode cur "fleet").
    + destruct (fleet_hunk cur base hunk) as [h|] eqn:E; [|discriminate].
      intros [= <-]. apply fleet_hunk_target in E as (? & ? & _). done.
    + by intros [= <-].
Qed.

Lemma changes_hunks_shape (base : UniHunk_t) (l : list xmlNode) :
  forall hunk hs last,
    changes_hunks base l hunk = Ok (hs, last) ->
    length hs = length (filter (fun c => is_change c = true) l) /\
    Forall (fun h => target h = target base /\
                     is_Some (target_name (target base))) hs.
Proof.
  induction l as [|cur l IH]; intros hunk hs last; cbn [changes_hunks].
  - intros [= <- _]. by split.
  - destruct (change_hunk base cur hunk) as [o|] eqn:Ec; [|discriminate].
    apply change_hunk_shape in Ec. cbn [Res_bind]. destruct o as [h|].
    + destruct Ec as (Hc & Ht & Hn).
      destruct (changes_hunks base l h) as [[hs' last']|] eqn:Er;
        [|discriminate].
      cbn [Res_bind fst snd]. intros [= <- _].
      apply IH in Er as [Hlen Hall].
      rewrite filter_cons, decide_True by exact Hc. simpl.
      split; [by rewrite Hlen|]. by constructor.
    + intros H. apply IH in H as [Hlen Hall].
      rewrite filter_cons, decide_False by (rewrite Ec; discriminate).
      by split.
Qed.

Lemma omap_SHunk (hs : list UniHunk_t) :
  omap step_hunk (SHunk <$> hs) = hs.
Proof.
  induction hs as [|h hs IH]; [reflexivity|].
  rewrite fmap_cons. cbn [omap list_omap step_hunk]. by rewrite IH.
Qed.

Lemma omap_steps (w : list Step) (hs : list UniHunk_t) (ss : list Step) :
  omap step_hunk w = [] ->
  omap step_hunk (w ++ (SHunk <$> hs) ++ ss) = hs ++ omap step_hunk ss.
Proof. intros Hw. by rewrite !omap_app, omap_SHunk, Hw. Qed.

Lemma systems_steps_shape (dn : option string) (l : xmlNodePtr) :
  forall hunk ss last,
    systems_steps dn l hunk = Ok (ss, last) ->
    length (omap step_hunk ss) = count_changes l /\
    Forall (fun h =>
              target_type (target h) = HUNK_TARGET_SYSTEM /\
              is_Some (target_name (target h)) /\
              exists node, node ∈ l /\ xml_isNode node "system" = true /\
                           target_name (target h) = xmlr_attr node "name")
      (omap step_hunk ss).
Proof.
  induction l as [|node l IH]; intros hunk ss last;
    cbn [systems_steps count_changes].
  - intros [= <- _]. by split.
  - destruct (xml_isNode node "system") eqn:En.
    + destruct (changes_hunks (system_base node) (node_children node) hunk)
        as [[hs h1]|] eqn:Ec; [|discriminate].
      cbn [Res_bind fst snd].
      destruct (systems_steps dn l h1) as [[ss' last']|] eqn:Er;
        [|discriminate].
      cbn [Res_bind fst snd]. intros [= <- _].
      apply changes_hunks_shape in Ec as [Hlen Hall].
      apply IH in Er as [Hlen' Hall'].
      rewrite omap_steps by (by case_match).
      rewrite length_app, Hlen, Hlen'. split; [reflexivity|].
      apply Forall_app. split.
      * eapply Forall_impl; [exact Hall|]. intros h [-> Hs].
        split; [reflexivity|]. split; [exact Hs|].
        exists node. split; [apply list_elem_of_here|]. by split.
      * eapply Forall_impl; [exact Hall'|].
        intros h (Ht & Hs & n' & Hin & Hn & Heq).
        split; [exact Ht|]. split; [exact Hs|].
        exists n'. split; [by apply list_elem_of_further|]. by split.
    + intros H. apply IH in H as [Hlen Hall]. split; [exact Hlen|].
      eapply Forall_impl; [exact Hall|].
      intros h (Ht & Hs & n' & Hin & Hn & Heq).
      split; [exact Ht|]. split; [exact Hs|].
      exists n'. split; [by apply list_elem_of_further|]. by split.
Qed.

End Reading.

(** X10: [diff_patch] dereferences NULL exactly on a definition that is
    not well formed (a "planet" or "fleet" element under a "system"
    without a name, a "planet" without a text, a "fleet" without a text
    or a "chance" attribute), or one of whose rejected hunks has a fleet
    type and holds no fleet definition, which stops the DEBUG loop over
    the failed hunks; on every other definition it returns 0. *)
Theorem diff_patch_crash_iff `{SP : Space} (x : xmlNode) (g : UniHunk_t)
  (st : State) :
  match diff_patch x g st with
  | Ok (r, _) =>
      r = 0 /\ wf_unidiff x = true /\
      exists hs, unidiff_hunks x g = Ok hs /\
                 forallb debug_ok (rejected hs (universe st)) = true
  | Crash =>
      wf_unidiff x = false \/
      exists hs, unidiff_hunks x g = Ok hs /\
                 forallb debug_ok (rejected hs (universe st)) = false
  end.
Proof.
  pose proof (unidiff_steps_wf x g) as Hwf.
  destruct (unidiff_steps x g) as [steps|] eqn:Es.
  - assert (Hhs : unidiff_hunks x g = Ok (omap step_hunk steps)).
    { unfold unidiff_hunks. by rewrite Es. }
    destruct (forallb debug_ok
                (rejected (omap step_hunk steps) (universe st))) eqn:Hok.
    + destruct (diff_patch_run x g st steps Es Hok) as (st' & -> & _).
      split; [reflexivity|]. split; [exact Hwf|]. eauto.
    + rewrite (diff_patch_stops x g st steps Es Hok). right. eauto.
  - rewrite (diff_patch_crash x g st Es). by left.
Qed.

(** X11: the hunks read from a definition are as many as the "planet" and
    "fleet" elements that lie directly under its "system" elements; each
    has a system for its target, named (never NULL) after the "name"
    attribute of one of these "system" elements. *)
Theorem unidiff_hunks_shape `{SP : Space} (x : xmlNode) (g : UniHunk_t)
  (hs : list UniHunk_t) :
  unidiff_hunks x g = Ok hs ->
  length hs = count_changes (node_children x) /\
  Forall (fun h =>
            target_type (target h) = HUNK_TARGET_SYSTEM /\
            is_Some (target_name (target h)) /\
            exists node, node ∈ node_children x /\
                         xml_isNode node "system" = true /\
                         target_name (target h) = xmlr_attr node "name")
    hs.
Proof.
  intros H. apply unidiff_hunks_steps in H as (steps & Hs & ->).
  unfold unidiff_steps in Hs.
  destruct (systems_steps (xmlr_attr x "name") (node_children x) g)
    as [[ss last]|] eqn:E; [|discriminate].
  injection Hs as <-. by apply systems_steps_shape in E.
Qed.

Lemma unidiff_hunks_shape_witness :
  length Examples.hunks_H =
    count_changes (node_children Examples2.unidiff_H) /\
  Forall (fun h =>
            target_type (target h) = HUNK_TARGET_SYSTEM /\
            is_Some (target_name (target h)) /\
            exists node, node ∈ node_children Examples2.unidiff_H /\
                         xml_isNode node "system" = true /\
                         target_name (target h) = xmlr_attr node "name")
    Examples.hunks_H.
Proof.
  apply (unidiff_hunks_shape (SP:=Examples.sp) Examples2.unidiff_H
           UniHunk_zero Examples.hunks_H).
  reflexivity.
Defined.

(** ** The paths of [diff_apply] and [diff_load] *)

Section Paths.

Context `{SP : Space}.

Lemma systems_steps_no_system (dn : option string) (l : xmlNodePtr)
  (hunk : UniHunk_t) :
  Forall (fun c => xml_isNode c "system" = false) l ->
  systems_steps dn l hunk = Ok ([], hunk).
Proof.
  induction 1 as [|c l Hc _ IH]; [reflexivity|].
  cbn [systems_steps]. by rewrite Hc.
Qed.

Lemma diff_load_run (data : xmlDocPtr) (g : UniHunk_t) (ds : list UniDiff_t)
  (writer : list xmlNode) (parent : xmlNode) (st0 : State) :
  Forall (fun d => is_Some (name d)) ds ->
  NoDup (name <$> ds) ->
  (forall n, n ∈ name <$> ds ->
             applies data g n = true \/ skips data n = true) ->
  Forall (fun x => xml_isNode x "diffs" = false) writer ->
  node_children parent =
    writer ++
    [xmlw_element "diffs" ((fun diff => xmlw_elem "diff" (name diff)) <$> ds)] ->
  exists st',
    diff_load data parent g st0 = Ok (0, st') /\
    name <$> stack st' =
      filter (fun n => applies data g n = true) (name <$> ds).
Proof.
  intros Hsome Hnd Hcase Hwriter Hparent.
  destruct (diff_clear_empties st0) as (st1 & Hclear & Hs1).
  destruct (diff_load_names data g ds st1) as (st' & Hrun & Hnames).
  { rewrite Hs1. constructor. }
  { exact Hsome. }
  { rewrite Hs1. exact Hnd. }
  { exact Hcase. }
  rewrite Hs1 in Hnames. simpl in Hnames.
  exists st'. split; [|exact Hnames].
  unfold diff_load. rewrite (bind_run _ _ _ _ _ Hclear).
  rewrite Hparent.
  unfold bind at 1. rewrite xml_each_app. unfold bind at 1.
  rewrite (diff_load_diffs_other data g writer st1 Hwriter).
  simpl xml_each. unfold diff_load_diffs at 1.
  change (xml_isNode (xmlw_element "diffs" _) "diffs") with true.
  cbv iota. unfold bind at 1. simpl node_children. rewrite Hrun.
  reflexivity.
Qed.

End Paths.

(** X12: on a definitions document whose root is "unidiffs" and has a
    child, every run of [diff_apply] that returns has released what it
    acquired: the events it appended to the trace hold as many releases of
    a document as parses, and as many releases of a buffer as reads. *)
Theorem diff_apply_releases `{SP : Space} (data : xmlDocPtr)
  (n : option string) (g : UniHunk_t) (st : State) (root : xmlNode)
  (others : list xmlNode) (r : Z) (st' : State) :
  data = Some (root :: others) ->
  node_name root = "unidiffs" ->
  node_children root <> [] ->
  diff_apply data n g st = Ok (r, st') ->
  exists evs,
    trace st' = trace st ++ evs /\ live_docs evs = 0 /\ live_bufs evs = 0.
Proof.
  intros -> Hroot Hch. rewrite diff_apply_exact.
  destruct (diff_get_from (stack st) 0 n) as [[j|]|]; [| |discriminate].
  { intros [= _ <-]. exists []. by rewrite app_nil_r. }
  cbv zeta. unfold lookup_unidiff. rewrite Hroot.
  change ("unidiffs" =? "unidiffs")%string with true. cbv iota.
  destruct (node_children root) as [|c cs] eqn:Ec; [done|].
  destruct (find_unidiff (c :: cs) n) as [[x|]|]; cbn [Res_bind];
    [| |discriminate].
  - intros H. apply bind_Ok in H as (r' & st1 & H1 & H2).
    unfold log, bind, ret in H2. injection H2 as _ <-.
    apply diff_patch_Ok in H1
      as (steps & _ & _ & _ & _ & _ & evs & Htr & Hq).
    exists ([EvReadFile; EvParseMemory] ++ evs ++ [EvFreeDoc; EvFreeBuf]).
    split.
    + simpl. rewrite Htr. simpl. rewrite <- !app_assoc. reflexivity.
    + apply quiet_live in Hq as [Hd Hb].
      rewrite !live_docs_app, !live_bufs_app, Hd, Hb. done.
  - intros [= _ <-].
    exists [EvReadFile; EvParseMemory; EvFreeDoc; EvFreeBuf;
            EvWARN (Warn_not_found n)].
    split; [|done]. simpl. rewrite <- !app_assoc. reflexivity.
Qed.

Lemma diff_apply_releases_witness :
  exists evs,
    trace Examples.st_I = trace Examples.st0_Q ++ evs /\
    live_docs evs = 0 /\ live_bufs evs = 0.
Proof.
  apply (diff_apply_releases Examples.add_Q_xml (Some "I") UniHunk_zero
           Examples.st0_Q
           (Examples.elem "unidiffs" []
              [Examples.elem "unidiff" [("name", "I")]
                 [Examples.elem "system" [("name", "S")]
                    [Examples.elem "planet" [("name", "Q")]
                       [Examples.text "add"]]]])
           [] 0 Examples.st_I).
  - reflexivity.
  - reflexivity.
  - discriminate.
  - reflexivity.
Defined.

(** X13: a definition that holds no "system" element is applied all the
    same: [diff_apply] returns 0 and pushes a record with that name, no
    hunk and no hunk array; the universe is as before and
    [diff_isApplied] answers 1 for the name. *)
Theorem diff_apply_empty_definition `{SP : Space} (data : xmlDocPtr)
  (n : option string) (g : UniHunk_t) (st : State) (x : xmlNode) :
  diff_isApplied n st = Ok (0, st) ->
  lookup_unidiff data n = Ok (Found x) ->
  Forall (fun c => xml_isNode c "system" = false) (node_children x) ->
  exists st',
    diff_apply data n g st = Ok (0, st') /\
    stack st' = stack st ++ [fresh_diff n] /\
    universe st' = universe st /\
    diff_isApplied n st' = Ok (1, st').
Proof.
  intros Hna Hl Hno.
  assert (Hsteps : unidiff_steps x g = Ok []).
  { unfold unidiff_steps. by rewrite systems_steps_no_system. }
  assert (Hhs : unidiff_hunks x g = Ok []).
  { unfold unidiff_hunks. by rewrite Hsteps. }
  destruct (diff_apply_found data n g st x [] Hna Hl Hhs eq_refl)
    as (st' & d & Hrun & _ & _ & _ & _ & _ & Hget).
  exists st'. split; [exact Hrun|].
  pose proof Hna as Hget0. apply diff_isApplied_0 in Hget0.
  destruct (diff_patch_run x g (emit EvParseMemory (emit EvReadFile st)) []
              Hsteps eq_refl) as (st1 & Hp & Hst & Hu & _).
  apply lookup_unidiff_Found in Hl as Hl'. destruct Hl' as [Hname _].
  rewrite diff_apply_exact, Hget0, Hl in Hrun. cbv zeta in Hrun.
  rewrite (bind_run _ _ _ _ _ Hp) in Hrun. unfold log, bind, ret in Hrun.
  injection Hrun as <-.
  split; [|split].
  - change (stack st1 = stack st ++ [fresh_diff n]).
    rewrite Hst, Hname. reflexivity.
  - change (universe st1 = universe st). rewrite Hu. reflexivity.
  - apply diff_isApplied_1. eauto.
Qed.

Lemma diff_apply_empty_definition_witness :
  exists st',
    diff_apply Examples2.odd_xml (Some "Empty") UniHunk_zero Examples.st_D
    = Ok (0, st') /\
    stack st' = stack Examples.st_D ++ [fresh_diff (Some "Empty")] /\
    universe st' = universe Examples.st_D /\
    diff_isApplied (Some "Empty") st' = Ok (1, st').
Proof.
  apply (diff_apply_empty_definition Examples2.odd_xml (Some "Empty")
           UniHunk_zero Examples.st_D Examples2.unidiff_Empty).
  - reflexivity.
  - reflexivity.
  - constructor.
Defined.

(** X14: [diff_load] on a saved game without a "diffs" element reads no
    definition: it returns 0 with an empty stack, and the universe is the
    one left by reverting every diff that was active, the last one
    first. *)
Theorem diff_load_without_diffs `{SP : Space} (data : xmlDocPtr)
  (parent : xmlNode) (g : UniHunk_t) (st : State) :
  Forall (fun x => xml_isNode x "diffs" = false) (node_children parent) ->
  exists st',
    diff_load data parent g st = Ok (0, st') /\
    stack st' = [] /\
    universe st' = revert_stack (stack st) (universe st) /\
    exists evs, trace st' = trace st ++ evs /\ Forall quiet evs.
Proof.
  intros Hno.
  destruct (diff_clear_loop_exact (length (stack st)) st (le_n _))
    as (st1 & Hclear & Hs & _ & Hu & Hev).
  exists st1. split; [|by repeat split].
  unfold diff_load.
  assert (Hc : diff_clear st = Ok (tt, st1)) by exact Hclear.
  rewrite (bind_run _ _ _ _ _ Hc). unfold bind at 1.
  by rewrite (diff_load_diffs_other data g (node_children parent) st1 Hno).
Qed.

Lemma diff_load_without_diffs_witness :
  exists st',
    diff_load None Examples2.save_without_diffs UniHunk_zero Examples.st_DE
    = Ok (0, st') /\
    stack st' = [] /\
    universe st' =
      revert_stack (SP:=Examples.sp) (stack Examples.st_DE)
        (universe Examples.st_DE) /\
    exists evs, trace st' = trace Examples.st_DE ++ evs /\ Forall quiet evs.
Proof.
  apply (diff_load_without_diffs None Examples2.save_without_diffs
           UniHunk_zero Examples.st_DE).
  repeat constructor.
Defined.

(** X15: saving, loading that save and saving again writes the same
    "diffs" element, when every saved name is still defined, its
    definition can be read and each of its hunks can be printed by the
    DEBUG loop: [diff_load] returns 0 from any state, and [diff_save] in
    the loaded state equals [diff_save] in the saved one. *)
Theorem save_load_save `{SP : Space} (data : xmlDocPtr) (g : UniHunk_t)
  (st st0 : State) (writer writer' : list xmlNode) (parent : xmlNode) :
  reachable st ->
  Forall (fun x => xml_isNode x "diffs" = false) writer ->
  node_children parent = snd (diff_save writer st) ->
  (forall n, n ∈ name <$> stack st -> applies data g n = true) ->
  exists st',
    diff_load data parent g st0 = Ok (0, st') /\
    diff_save writer' st' = diff_save writer' st.
Proof.
  intros Hreach Hwriter Hparent Hall.
  apply reachable_stack_ok in Hreach as [Hok Hnd].
  destruct (diff_load_run data g (stack st) writer parent st0)
    as (st' & Hrun & Hnames).
  { eapply Forall_impl; [exact Hok|]. by intros d [Hd _]. }
  { exact Hnd. }
  { intros n Hn. left. by apply Hall. }
  { exact Hwriter. }
  { exact Hparent. }
  exists st'. split; [exact Hrun|].
  rewrite filter_all_true in Hnames by exact Hall.
  unfold diff_save. do 3 f_equal.
  change (fun diff => xmlw_elem "diff" (name diff))
    with (xmlw_elem "diff" ∘ name).
  by rewrite !list_fmap_compose, Hnames.
Qed.

Lemma save_load_save_witness :
  exists st',
    diff_load Examples.unidiff_xml Examples.save_xml UniHunk_zero
      Examples.st_D = Ok (0, st') /\
    diff_save [] st' = diff_save [] Examples.st_DE.
Proof.
  apply (save_load_save Examples.unidiff_xml UniHunk_zero
           Examples.st_DE Examples.st_D [] [] Examples.save_xml).
  - apply (reach_apply Examples.unidiff_xml (Some "E") UniHunk_zero
             Examples.st_D 0 Examples.st_DE).
    + apply (reach_apply Examples.unidiff_xml (Some "D") UniHunk_zero
               Examples.st0 0 Examples.st_D).
      * apply reach_initial.
      * reflexivity.
    + reflexivity.
  - constructor.
  - reflexivity.
  - refine (proj1 (Forall_forall _ _) _). repeat constructor.
Defined.

(** ** What [diff_cleanupHunk] hands to [free] *)

(** X16: for a hunk the "planet" branch of [diff_patch] files,
    [diff_cleanupHunk] frees exactly the two copies the branch made (the
    target name and the planet name) when the hunk's type is a planet
    type or the element has no "name" attribute; with any other type, a
    stale one, the copy of the planet name is not freed. *)
Theorem planet_hunk_cleanup `{SP : Space} (cur : xmlNode)
  (base hunk h : UniHunk_t) :
  planet_hunk cur base hunk = Ok h ->
  fst (diff_cleanupHunk h) = planet_owned cur base <->
  type h = HUNK_TYPE_PLANET_ADD \/ type h = HUNK_TYPE_PLANET_REMOVE \/
  xmlr_attr cur "name" = None.
Proof.
  intros H. apply planet_hunk_target in H as (Ht & _ & Hu & _).
  unfold diff_cleanupHunk, planet_owned, u_name. cbn [fst].
  rewrite Ht, Hu. split.
  - intros Heq. apply app_inv_head in Heq.
    destruct (xmlr_attr cur "name") as [s|]; [|auto].
    destruct (type h); auto; discriminate.
  - intros Hcase. f_equal.
    destruct (xmlr_attr cur "name") as [s|].
    + destruct Hcase as [-> | [-> | ?]]; [reflexivity|reflexivity|done].
    + by destruct (type h).
Qed.

Lemma planet_hunk_cleanup_witness :
  fst (diff_cleanupHunk (Examples.hunk_A HUNK_TYPE_PLANET_ADD)) =
    planet_owned Examples2.planet_element Examples2.base_S <->
  type (Examples.hunk_A HUNK_TYPE_PLANET_ADD) = HUNK_TYPE_PLANET_ADD \/
  type (Examples.hunk_A HUNK_TYPE_PLANET_ADD) = HUNK_TYPE_PLANET_REMOVE \/
  xmlr_attr Examples2.planet_element "name" = None.
Proof.
  apply (planet_hunk_cleanup (SP:=Examples.sp) Examples2.planet_element
           Examples2.base_S UniHunk_zero
           (Examples.hunk_A HUNK_TYPE_PLANET_ADD)).
  reflexivity.
Defined.

(** X17: for a hunk the "fleet" branch of [diff_patch] files,
    [diff_cleanupHunk] frees exactly the copy of the target name, unless
    the hunk's type is a planet type, which it can only be as the stale
    type of the hunk before, and the fleet was found: then the fleet
    definition, which belongs to the fleet stack, is handed to [free]
    too. *)
Theorem fleet_hunk_cleanup `{SP : Space} (cur : xmlNode)
  (base hunk h : UniHunk_t) :
  fleet_hunk cur base hunk = Ok h ->
  (type h = HUNK_TYPE_PLANET_ADD \/ type h = HUNK_TYPE_PLANET_REMOVE ->
   type h = type hunk) /\
  fst (diff_cleanupHunk h) =
    fleet_owned base ++
    (if bool_decide (type h = HUNK_TYPE_PLANET_ADD \/
                     type h = HUNK_TYPE_PLANET_REMOVE)
     then match fleet_get (xmlr_attr cur "name") with
          | UNull => []
          | p => [FreeSlot p]
          end
     else []).
Proof.
  intros H. apply fleet_hunk_target in H as (Ht & _ & Hu & Hty).
  split.
  - intros [Hp | Hp]; destruct Hty as [? | [? | ?]]; congruence.
  - unfold diff_cleanupHunk, fleet_owned, u_name. cbn [fst].
    rewrite Ht, Hu. f_equal.
    destruct (type h); try reflexivity;
      (rewrite bool_decide_eq_false_2; [reflexivity|intros [?|?]; done]).
Qed.

Lemma fleet_hunk_cleanup_witness :
  (type {| target := target Examples2.base_S;
           type := HUNK_TYPE_PLANET_ADD;
           u := {| u_slot := UFleet "Pirates"; u_chance := 50 |} |}
   = HUNK_TYPE_PLANET_ADD \/
   type {| target := target Examples2.base_S;
           type := HUNK_TYPE_PLANET_ADD;
           u := {| u_slot := UFleet "Pirates"; u_chance := 50 |} |}
   = HUNK_TYPE_PLANET_REMOVE ->
   type {| target := target Examples2.base_S;
           type := HUNK_TYPE_PLANET_ADD;
           u := {| u_slot := UFleet "Pirates"; u_chance := 50 |} |}
   = type (Examples.hunk_A HUNK_TYPE_PLANET_ADD)) /\
  fst (diff_cleanupHunk
         {| target := target Examples2.base_S;
            type := HUNK_TYPE_PLANET_ADD;
            u := {| u_slot := UFleet "Pirates"; u_chance := 50 |} |}) =
    fleet_owned Examples2.base_S ++
    (if bool_decide
          (type {| target := target Examples2.base_S;
                   type := HUNK_TYPE_PLANET_ADD;
                   u := {| u_slot := UFleet "Pirates"; u_chance := 50 |} |}
           = HUNK_TYPE_PLANET_ADD \/
           type {| target := target Examples2.base_S;
                   type := HUNK_TYPE_PLANET_ADD;
                   u := {| u_slot := UFleet "Pirates"; u_chance := 50 |} |}
           = HUNK_TYPE_PLANET_REMOVE)
     then match fleet_get (Space:=Examples.sp)
                  (xmlr_attr Examples2.odd_fleet_element "name") with
          | UNull => []
          | p => [FreeSlot p]
          end
     else []).
Proof.
  apply (fleet_hunk_cleanup (SP:=Examples.sp) Examples2.odd_fleet_element
           Examples2.base_S (Examples.hunk_A HUNK_TYPE_PLANET_ADD)
           {| target := target Examples2.base_S;
              type := HUNK_TYPE_PLANET_ADD;
              u := {| u_slot := UFleet "Pirates"; u_chance := 50 |} |}).
  reflexivity.
Defined.

(** ** The queue *)

Section QueueFacts.

Context {V : Type}.

Lemma queue_step_held (q : Queue.t V) (o : Queue.op) :
  2 <= Queue.held q -> 2 <= Queue.held (Queue.step q o).
Proof.
  unfold Queue.held. intros H. destruct o as [val|]; simpl; [lia|].
  unfold Queue.dequeue.
  destruct (Z.ltb_spec (Queue.q_first q) (Queue.q_last q)); [exact H|lia].
Qed.

Lemma queue_run_enqueues (vals : list (option V)) (q : Queue.t V) :
  Queue.q_first (Queue.run q (Queue.Enqueue <$> vals)) = Queue.q_first q /\
  Queue.q_last (Queue.run q (Queue.Enqueue <$> vals))
  = Queue.q_last q + Z.of_nat (length vals).
Proof.
  revert q. induction vals as [|v vals IH]; intros q.
  - simpl. split; [reflexivity|lia].
  - rewrite fmap_cons. cbn [Queue.run fold_left].
    destruct (IH (Queue.step q (Queue.Enqueue v))) as [Hf Hl].
    unfold Queue.run in *. rewrite Hf, Hl. simpl. split; [reflexivity|lia].
Qed.

End QueueFacts.

(** X18: on a queue that holds nothing ([first = last + 1], as in a new
    one), a value that is enqueued is what the next dequeue returns; both
    counters have then moved on by one and the entry is gone. *)
Theorem queue_enqueue_dequeue {V : Type} (q : Queue.t V) (val : option V) :
  Queue.held q = 0 ->
  Queue.dequeue (Queue.enqueue q val) =
  Queue.Value (val, {| Queue.q_first := Queue.q_first q + 1;
                       Queue.q_last := Queue.q_last q + 1;
                       Queue.q_slots :=
                         delete (Queue.q_first q) (Queue.q_slots q) |}).
Proof.
  unfold Queue.held. intros H.
  assert (Hl : Queue.q_last q + 1 = Queue.q_first q) by lia.
  unfold Queue.dequeue, Queue.enqueue. cbn [Queue.q_first Queue.q_last
    Queue.q_slots]. rewrite Hl, Z.ltb_irrefl.
  destruct val as [v|]; cbn [Queue.assign].
  - by rewrite lookup_insert_eq, delete_insert_eq.
  - by rewrite lookup_delete_eq, delete_delete_eq.
Qed.

Lemma queue_enqueue_dequeue_witness :
  Queue.dequeue (Queue.enqueue (Queue.new (V:=Z)) (Some 7)) =
  Queue.Value (Some 7,
               {| Queue.q_first := Queue.q_first (Queue.new (V:=Z)) + 1;
                  Queue.q_last := Queue.q_last (Queue.new (V:=Z)) + 1;
                  Queue.q_slots :=
                    delete (Queue.q_first (Queue.new (V:=Z)))
                      (Queue.q_slots (Queue.new (V:=Z))) |}).
Proof.
  apply (queue_enqueue_dequeue (Queue.new (V:=Z)) (Some 7)).
  reflexivity.
Defined.

(** X19: once a queue holds two entries or more, [dequeue] raises
    "Queue is empty!" and [isEmpty] answers true, and this stays so
    whatever is enqueued or dequeued afterwards: no entry can be taken out
    again. *)
Theorem queue_stuck {V : Type} (q : Queue.t V) (ops : list Queue.op) :
  2 <= Queue.held q ->
  2 <= Queue.held (Queue.run q ops) /\
  Queue.isEmpty (Queue.run q ops) = true /\
  Queue.dequeue (Queue.run q ops) = Queue.Error "Queue is empty!".
Proof.
  intros H.
  assert (Hheld : 2 <= Queue.held (Queue.run q ops)).
  { revert q H. induction ops as [|o ops IH]; intros q H; [exact H|].
    cbn [Queue.run fold_left]. apply IH. by apply queue_step_held. }
  split; [exact Hheld|].
  unfold Queue.held in Hheld. unfold Queue.isEmpty, Queue.dequeue.
  destruct (Z.ltb_spec (Queue.q_first (Queue.run q ops))
              (Queue.q_last (Queue.run q ops))); [done|lia].
Qed.

Lemma queue_stuck_witness :
  2 <= Queue.held
         (Queue.run
            (Queue.enqueue (Queue.enqueue (Queue.new (V:=Z)) (Some 1))
               (Some 2))
            [Queue.Dequeue; Queue.Enqueue (Some 3); Queue.Dequeue]) /\
  Queue.isEmpty
    (Queue.run
       (Queue.enqueue (Queue.enqueue (Queue.new (V:=Z)) (Some 1)) (Some 2))
       [Queue.Dequeue; Queue.Enqueue (Some 3); Queue.Dequeue]) = true /\
  Queue.dequeue
    (Queue.run
       (Queue.enqueue (Queue.enqueue (Queue.new (V:=Z)) (Some 1)) (Some 2))
       [Queue.Dequeue; Queue.Enqueue (Some 3); Queue.Dequeue])
  = Queue.Error "Queue is empty!".
Proof.
  apply (queue_stuck
           (Queue.enqueue (Queue.enqueue (Queue.new (V:=Z)) (Some 1))
              (Some 2))
           [Queue.Dequeue; Queue.Enqueue (Some 3); Queue.Dequeue]).
  vm_compute. discriminate.
Defined.

(** X20: after [n] values have been enqueued in a new queue, [isEmpty]
    answers true exactly when [n] is 2 or more, and exactly then
    [dequeue] raises its error; a new queue answers false, and its
    [dequeue] returns without an error. *)
Theorem queue_new_enqueues {V : Type} (vals : list (option V)) :
  Queue.held (Queue.run Queue.new (Queue.Enqueue <$> vals))
  = Z.of_nat (length vals) /\
  Queue.isEmpty (Queue.run Queue.new (Queue.Enqueue <$> vals))
  = bool_decide (2 <= length vals)%nat /\
  (Queue.dequeue (Queue.run Queue.new (Queue.Enqueue <$> vals))
   = Queue.Error "Queue is empty!" <-> (2 <= length vals)%nat).
Proof.
  destruct (queue_run_enqueues vals (Queue.new (V:=V))) as [Hf Hl].
  cbn [Queue.new Queue.q_first Queue.q_last] in Hf, Hl.
  unfold Queue.held, Queue.isEmpty, Queue.dequeue. rewrite Hf, Hl.
  split; [lia|]. split.
  - destruct (Z.ltb_spec 0 (-1 + Z.of_nat (length vals))).
    + symmetry. apply bool_decide_eq_true_2. lia.
    + symmetry. apply bool_decide_eq_false_2. lia.
  - destruct (Z.ltb_spec 0 (-1 + Z.of_nat (length vals))).
    + split; [lia|done].
    + split; [discriminate|lia].
Qed.

(** ** Applying and removing in turn *)

Section Turns.

Context `{SP : Space}.

Lemma delete_last (l : list UniDiff_t) (d : UniDiff_t) :
  delete (length l) (l ++ [d]) = l.
Proof.
  induction l as [|e l IH]; [reflexivity|].
  simpl. f_equal. exact IH.
Qed.

Lemma diff_get_from_total (l : list UniDiff_t) (s : string) :
  Forall (fun d => is_Some (name d)) l ->
  forall i, exists p, diff_get_from l i (Some s) = Ok p.
Proof.
  induction 1 as [|d l [x Hx] _ IH]; intros i; [by eexists|].
  cbn [diff_get_from]. rewrite Hx. unfold strcmp, Res_bind.
  destruct (_ =? 0); [by eexists|apply IH].
Qed.

Lemma diff_get_from_NULL (l : list UniDiff_t) (i : nat) :
  l <> [] -> diff_get_from l i None = Crash.
Proof.
  destruct l as [|d l]; [done|]. intros _. cbn [diff_get_from].
  unfold strcmp. by destruct (name d).
Qed.

Lemma diff_get_from_crash_iff (l : list UniDiff_t) (n : option string) :
  Forall (fun d => is_Some (name d)) l ->
  diff_get_from l 0 n = Crash <-> n = None /\ l <> [].
Proof.
  intros Hsome. split.
  - intros Hc. destruct n as [s|].
    + destruct (diff_get_from_total l s Hsome 0) as [p Hp]. congruence.
    + split; [reflexivity|]. intros ->. discriminate.
  - intros [-> Hne]. by apply diff_get_from_NULL.
Qed.

End Turns.

(** X21: applying a definition that is not active, none of whose rejected
    hunks stops the DEBUG loop, and removing it again gives the stack back
    as it was, with the name inactive again; the universe is the one left
    by applying the hunks and then reverting the accepted ones. *)
Theorem diff_apply_then_remove `{SP : Space} (data : xmlDocPtr)
  (n : option string) (g : UniHunk_t) (st : State) (x : xmlNode)
  (hs : list UniHunk_t) :
  diff_isApplied n st = Ok (0, st) ->
  lookup_unidiff data n = Ok (Found x) ->
  unidiff_hunks x g = Ok hs ->
  forallb debug_ok (rejected hs (universe st)) = true ->
  exists st' st'',
    diff_apply data n g st = Ok (0, st') /\
    diff_remove n st' = Ok (tt, st'') /\
    stack st'' = stack st /\
    diff_isApplied n st'' = Ok (0, st'') /\
    universe st'' =
      revert_hunks (accepted hs (universe st)) (patch_all hs (universe st)).
Proof.
  intros Hna Hl Hhs Hlog.
  destruct (diff_apply_found data n g st x hs Hna Hl Hhs Hlog)
    as (st' & d & Hrun & Hst & _ & Happ & _ & Hu & Hget).
  assert (Hd : stack st' !! length (stack st) = Some d).
  { rewrite Hst. by apply list_lookup_middle. }
  destruct (diff_removeDiff_exact (length (stack st)) st' d Hd)
    as (st'' & Hrm & Hs'' & _ & Hu'' & _).
  assert (Hstack : stack st'' = stack st).
  { rewrite Hs'', Hst. apply delete_last. }
  exists st', st''. split; [exact Hrun|]. split; [|split; [exact Hstack|split]].
  - unfold diff_remove.
    assert (Hg : diff_get n st' = Ok (Some (length (stack st)), st')).
    { unfold diff_get, lift. by rewrite Hget. }
    rewrite (bind_run _ _ _ _ _ Hg), (bind_run _ _ _ _ _ Hrm). reflexivity.
  - apply diff_isApplied_0. rewrite Hstack. by apply diff_isApplied_0.
  - by rewrite Hu'', Happ, Hu.
Qed.

Lemma diff_apply_then_remove_witness :
  exists st' st'',
    diff_apply Examples.unidiff_xml (Some "H") UniHunk_zero Examples.st_D
    = Ok (0, st') /\
    diff_remove (Some "H") st' = Ok (tt, st'') /\
    stack st'' = stack Examples.st_D /\
    diff_isApplied (Some "H") st'' = Ok (0, st'') /\
    universe st'' =
      revert_hunks (SP:=Examples.sp)
        (accepted Examples.hunks_H (universe Examples.st_D))
        (patch_all Examples.hunks_H (universe Examples.st_D)).
Proof.
  apply (diff_apply_then_remove Examples.unidiff_xml (Some "H") UniHunk_zero
           Examples.st_D Examples2.unidiff_H Examples.hunks_H).
  - reflexivity.
  - reflexivity.
  - reflexivity.
  - reflexivity.
Defined.

(** X22: in a reachable state a second [diff_remove] of the same name
    changes nothing: whatever the first one did, the name is not active
    afterwards and the second returns at its NULL test. *)
Theorem diff_remove_twice `{SP : Space} (n : option string)
  (st st' : State) :
  reachable st ->
  diff_remove n st = Ok (tt, st') ->
  diff_remove n st' = Ok (tt, st').
Proof.
  intros Hreach Hrun.
  apply reachable_stack_ok in Hreach as [Hok Hnd].
  assert (Hsome : Forall (fun d => is_Some (name d)) (stack st)).
  { eapply Forall_impl; [exact Hok|]. by intros e [He _]. }
  unfold diff_remove in Hrun. apply bind_Ok in Hrun as (p & st1 & Hg & Hk).
  pose proof (diff_get_state _ _ _ _ Hg) as ->.
  unfold diff_get, lift in Hg.
  destruct (diff_get_from (stack st) 0 n) as [[i|]|] eqn:E;
    [| |discriminate]; injection Hg as <-.
  - destruct (diff_get_from_Some _ _ _ _ E) as (d & _ & Hd & Hn & [s Hs]).
    rewrite Nat.sub_0_r in Hd.
    destruct (diff_removeDiff_exact i st d Hd) as (st2 & Hrm & Hs2 & _).
    rewrite (bind_run _ _ _ _ _ Hrm) in Hk. injection Hk as <-.
    apply diff_remove_skip. rewrite Hs.
    apply diff_get_from_absent.
    + rewrite Hs2. by apply Forall_delete.
    + rewrite <- Hs, <- Hn, Hs2. by apply NoDup_fmap_delete.
  - injection Hk as <-. by apply diff_remove_skip.
Qed.

Lemma diff_remove_twice_witness :
  diff_remove (Some "D") Examples.st_D_removed
  = Ok (tt, Examples.st_D_removed).
Proof.
  apply (diff_remove_twice (Some "D") Examples.st_D Examples.st_D_removed).
  - apply (reach_apply Examples.unidiff_xml (Some "D") UniHunk_zero
             Examples.st0 0 Examples.st_D).
    + apply reach_initial.
    + reflexivity.
  - reflexivity.
Defined.

(** X23: in a reachable state [diff_get], and with it [diff_isApplied]
    and [diff_remove], dereferences NULL exactly when it is called with a
    NULL name while the stack is not empty; for every other name the
    three return. *)
Theorem diff_get_crash_iff `{SP : Space} (n : option string) (st : State) :
  reachable st ->
  (diff_get n st = Crash <-> n = None /\ stack st <> []) /\
  (diff_isApplied n st = Crash <-> n = None /\ stack st <> []) /\
  (diff_remove n st = Crash <-> n = None /\ stack st <> []).
Proof.
  intros Hreach. apply reachable_stack_ok in Hreach as [Hok Hnd].
  assert (Hsome : Forall (fun d => is_Some (name d)) (stack st)).
  { eapply Forall_impl; [exact Hok|]. by intros e [He _]. }
  pose proof (diff_get_from_crash_iff (stack st) n Hsome) as Hiff.
  unfold diff_remove, diff_isApplied, bind, diff_get, lift, ret.
  destruct (diff_get_from (stack st) 0 n) as [[i|]|] eqn:E.
  - destruct (diff_get_from_Some _ _ _ _ E) as (d & _ & Hd & _).
    rewrite Nat.sub_0_r in Hd.
    destruct (diff_removeDiff_exact i st d Hd) as (st2 & -> & _).
    split; [|split]; (split; intros Hx; [discriminate|by apply Hiff in Hx]).
  - split; [|split]; (split; intros Hx; [discriminate|by apply Hiff in Hx]).
  - split; [|split]; (split; intros Hx; [by apply Hiff|reflexivity]).
Qed.

Lemma diff_get_crash_iff_witness :
  (diff_get None Examples.st_D = Crash <->
   None = (None : option string) /\ stack Examples.st_D <> []) /\
  (diff_isApplied None Examples.st_D = Crash <->
   None = (None : option string) /\ stack Examples.st_D <> []) /\
  (diff_remove None Examples.st_D = Crash <->
   None = (None : option string) /\ stack Examples.st_D <> []).
Proof.
  apply (diff_get_crash_iff None Examples.st_D).
  apply (reach_apply Examples.unidiff_xml (Some "D") UniHunk_zero
           Examples.st0 0 Examples.st_D).
  - apply reach_initial.
  - reflexivity.
Defined.
